(** * mfsjs: MFS volume engine and MacPaint codec, embedded in Rocq

    A shallow embedding of [mfs.js] (classes [MFSLibUtils], [MFSVolume]) and of
    [macpaint.js] (classes [PackBits] and the dithering strategies), with the
    properties of the specification stated and proved over it.

    Conventions.
    - JavaScript numbers that are integers in the source are [Z]; array
      positions are [nat] where the source index starts at 0 and only grows.
    - A typed array ([Uint8Array]) is a [list Z] of bytes; reading outside it
      gives [None] ([undefined]); writing outside it is ignored, as in JS.
    - A [DataView] read or write outside the buffer raises [RangeError]; the
      accessors below return [None] there and the callers turn that into the
      behaviour of the source ([catch] block, or a propagated exception).
    - A [while] loop is a [Fixpoint] on a fuel argument; running out of fuel
      is the separate outcome [OutOfFuel], and each entry point is proved to
      never produce it. *)

From stdpp Require Import gmap list strings.
From Stdlib Require Import ZArith Lia QArith.
Local Open Scope Z_scope.

(** ** Outcomes of a call *)

Inductive outcome (A : Type) : Type :=
| Returns (a : A)
| Throws (msg : string)
| OutOfFuel.
Arguments Returns {A} a.
Arguments Throws {A} msg.
Arguments OutOfFuel {A}.

Definition obind {A B} (m : outcome A) (k : A -> outcome B) : outcome B :=
  match m with
  | Returns a => k a
  | Throws msg => Throws msg
  | OutOfFuel => OutOfFuel
  end.

Notation "x <- m ;; k" := (obind m (fun x => k))
  (at level 100, m at next level, right associativity).

(** ** PackBits (macpaint.js, class PackBits) *)

Module PackBits.

(** [new Uint8Array(array)]: every number is reduced modulo 256. *)
Definition ToUint8 (v : Z) : Z := v mod 256.

(** [DataView.getUint8]; [None] is the [RangeError]. *)
Definition getUint8 (view : list Z) (off : Z) : option Z :=
  if (0 <=? off) && (off <? Z.of_nat (length view))
  then view !! Z.to_nat off else None.

(** [DataView.getInt8]: the same byte read as a signed 8-bit number. *)
Definition getInt8 (view : list Z) (off : Z) : option Z :=
  (fun b => if b <? 128 then b else b - 256) <$> getUint8 view off.

(** [output[idx] = v] on a [Uint8Array]: ignored outside the array. *)
Definition u8set (output : list Z) (idx : Z) (v : Z) : list Z :=
  if 0 <=? idx then <[Z.to_nat idx := ToUint8 v]> output else output.

Inductive Error :=
| UnexpectedEnd      (* "Unexpected end of input during decompression." *)
| LiteralExceeds     (* "Literal run exceeds scanline boundary." *)
| LiteralPastInput   (* "Literal run reads past input buffer." *)
| RepeatExceeds      (* "Repeat run exceeds scanline boundary." *)
| RepeatPastInput    (* "Repeat run reads past input buffer for byte to repeat." *)
| NotSeventyTwo (got : Z) (* "Scanline decompression did not yield 72 bytes, got ..." *)
| Exception.         (* "Exception during decompression: ..." (the catch block) *)

(** The object returned by [decompressScanline]. *)
Record Result := mkResult {
  data : list Z;
  bytesRead : Z;
  error : option Error
}.

(** The local variables of [decompressScanline]. *)
Record DState := mkDState {
  output : list Z;
  outputIndex : Z;
  currentOffset : Z
}.

(** What one pass through the body of [while (outputIndex < 72)] does:
    go round again, or leave the function with a [return] (possibly the one
    of the [catch] block). *)
Inductive flow :=
| Next (st : DState)
| Stop (st : DState) (e : Error).

(** [for (i < count) output[outputIndex++] = inputView.getUint8(currentOffset++)] *)
Fixpoint copy_literal (count : nat) (view : list Z) (st : DState) : flow :=
  match count with
  | O => Next st
  | S c =>
      match getUint8 view (currentOffset st) with
      | None => Stop (mkDState (output st) (outputIndex st + 1) (currentOffset st + 1)) Exception
      | Some b =>
          copy_literal c view
            (mkDState (u8set (output st) (outputIndex st) b)
                      (outputIndex st + 1) (currentOffset st + 1))
      end
  end.

(** [for (i < count) output[outputIndex++] = byteToRepeat] *)
Fixpoint fill_repeat (count : nat) (b : Z) (st : DState) : DState :=
  match count with
  | O => st
  | S c =>
      fill_repeat c b
        (mkDState (u8set (output st) (outputIndex st) b)
                  (outputIndex st + 1) (currentOffset st))
  end.

Definition byteLength (view : list Z) : Z := Z.of_nat (length view).

(** The body of the [while] loop of [decompressScanline]. *)
Definition decompress_step (view : list Z) (st : DState) : flow :=
  if byteLength view <=? currentOffset st then Stop st UnexpectedEnd
  else
    match getInt8 view (currentOffset st) with
    | None => Stop (mkDState (output st) (outputIndex st) (currentOffset st + 1)) Exception
    | Some headerByte =>
        let st1 := mkDState (output st) (outputIndex st) (currentOffset st + 1) in
        if 0 <=? headerByte then
          let count := headerByte + 1 in
          if 72 <? outputIndex st1 + count then Stop st1 LiteralExceeds
          else if byteLength view <? currentOffset st1 + count then Stop st1 LiteralPastInput
          else copy_literal (Z.to_nat count) view st1
        else if (-127 <=? headerByte) && (headerByte <=? -1) then
          let count := 1 - headerByte in
          if 72 <? outputIndex st1 + count then Stop st1 RepeatExceeds
          else if byteLength view <=? currentOffset st1 then Stop st1 RepeatPastInput
          else
            match getUint8 view (currentOffset st1) with
            | None => Stop (mkDState (output st1) (outputIndex st1) (currentOffset st1 + 1)) Exception
            | Some byteToRepeat =>
                Next (fill_repeat (Z.to_nat count) byteToRepeat
                        (mkDState (output st1) (outputIndex st1) (currentOffset st1 + 1)))
            end
        else Next st1
    end.

(** [while (outputIndex < 72) { body }], then the test and the [return]
    that follow the loop. The second component is the [error] property. *)
Fixpoint decompress_loop (fuel : nat) (view : list Z) (st : DState)
  : outcome (DState * option Error) :=
  if outputIndex st <? 72 then
    match fuel with
    | O => OutOfFuel
    | S fuel' =>
        match decompress_step view st with
        | Next st' => decompress_loop fuel' view st'
        | Stop st' e => Returns (st', Some e)
        end
    end
  else if negb (outputIndex st =? 72) then Returns (st, Some (NotSeventyTwo (outputIndex st)))
  else Returns (st, None).

Definition decompressScanline (inputView : list Z) (initialOffset : Z) : outcome Result :=
  r <- decompress_loop (S (length inputView)) inputView
         (mkDState (replicate 72 0) 0 initialOffset);;
  Returns (mkResult (output r.1) (currentOffset r.1 - initialOffset) r.2).

(** *** compressScanline *)

(** [while (i + runLength < n && s[i] === s[i + runLength] && runLength < 128) runLength++] *)
Fixpoint find_repeat (fuel : nat) (s : list Z) (n i runLength : nat) : outcome nat :=
  if (i + runLength <? n)%nat && bool_decide (s !! i = s !! (i + runLength)%nat)
     && (runLength <? 128)%nat
  then match fuel with
       | O => OutOfFuel
       | S fuel' => find_repeat fuel' s n i (S runLength)
       end
  else Returns runLength.

(** The inner [while (i < n)] of the literal branch; returns the final [i]. *)
Fixpoint find_literal_end (fuel : nat) (s : list Z) (n literalStart i : nat) : outcome nat :=
  if (i <? n)%nat then
    if (i + 1 <? n)%nat && bool_decide (s !! i = s !! (i + 1)%nat) then Returns i
    else if (127 <=? i - literalStart)%nat then Returns i
    else match fuel with
         | O => OutOfFuel
         | S fuel' => find_literal_end fuel' s n literalStart (S i)
         end
  else Returns i.

(** [scanlineData[k]] pushed on the plain array [compressed]; [undefined]
    becomes 0 when the array is turned into a [Uint8Array]. *)
Definition at_ (s : list Z) (k : nat) : Z := default 0 (s !! k).

(** [for (j < literalLength) compressed.push(scanlineData[literalStart + j])] *)
Definition literal_bytes (s : list Z) (literalStart literalLength : nat) : list Z :=
  (fun j => at_ s (literalStart + j)) <$> seq 0 literalLength.

(** The outer [while (i < n)] of [compressScanline]. *)
Fixpoint compress_loop (fuel : nat) (s : list Z) (n i : nat) (compressed : list Z)
  : outcome (list Z) :=
  if (i <? n)%nat then
    match fuel with
    | O => OutOfFuel
    | S fuel' =>
        runLength <- find_repeat n s n i 1;;
        if (1 <? runLength)%nat then
          compress_loop fuel' s n (i + runLength)
            (compressed ++ [- (Z.of_nat runLength - 1); at_ s i])
        else
          j <- find_literal_end n s n i (S i);;
          let literalLength := (j - i)%nat in
          compress_loop fuel' s n j
            (compressed ++ [Z.of_nat literalLength - 1] ++ literal_bytes s i literalLength)
    end
  else Returns compressed.

Definition compressScanline (scanlineData : list Z) : outcome (list Z) :=
  if negb (length scanlineData =? 72)%nat
  then Throws "Scanline data must be 72 bytes long for PackBits compression."
  else
    compressed <- compress_loop 72 scanlineData (length scanlineData) 0 [];;
    Returns (ToUint8 <$> compressed).

(** A scanline as a [Uint8Array] holds it: 72 bytes, each in 0..255. *)
Definition is_bytes (s : list Z) : Prop := Forall (fun b => 0 <= b < 256) s.


(** *** Notions used to state the properties of the codec *)

(** The condition of the repeat-scanning loop. *)
Definition repeat_goes_on (s : list Z) (n i r : nat) : Prop :=
  (i + r < n)%nat /\ s !! i = s !! (i + r)%nat /\ (r < 128)%nat.

(** The three ways the literal-scanning loop ends at position [j]. *)
Definition literal_stops (s : list Z) (n literalStart j : nat) : Prop :=
  j = n
  \/ ((j + 1 < n)%nat /\ s !! j = s !! (j + 1)%nat)
  \/ (127 <= j - literalStart)%nat.

(** The packet written for the input positions [i .. i'). *)
Inductive packet (s : list Z) (n i i' : nat) (pkt : list Z) : Prop :=
| packet_repeat (k : nat) :
    i' = (i + k)%nat -> (2 <= k <= 128)%nat -> (i + k <= n)%nat ->
    (forall j, (j < k)%nat -> s !! (i + j)%nat = s !! i) ->
    pkt = [- (Z.of_nat k - 1); at_ s i] ->
    packet s n i i' pkt
| packet_literal (l : nat) :
    i' = (i + l)%nat -> (1 <= l <= 127)%nat -> (i + l <= n)%nat ->
    ~ repeat_goes_on s n i 1 ->
    literal_stops s n i i' ->
    pkt = [Z.of_nat l - 1] ++ literal_bytes s i l ->
    packet s n i i' pkt.

(** A repeat of at least two bytes starts at [i]. *)
Definition repeat_starts (s : list Z) (n i : nat) : Prop :=
  (i + 1 < n)%nat /\ s !! i = s !! (i + 1)%nat.

(** A scanline on which the compressor does worst: a single byte followed
    by a pair, 24 times. *)
Definition abb_scanline : list Z := concat (replicate 24 [1; 2; 2]).

(** A scanline with no two equal neighbours: the bytes 0, 1, ..., 71. *)
Definition ramp_scanline : list Z := Z.of_nat <$> seq 0 72.

(** [out] with the bytes [bs] stored from position [i] on. *)
Definition splice (out : list Z) (i : nat) (bs : list Z) : list Z :=
  take i out ++ bs ++ drop (i + length bs) out.

End PackBits.

(** ** State and exceptions

    A method of [MFSVolume] reads and writes the fields of [this] and may
    throw after it has changed some of them. [M S A] is a computation over a
    state [S] that returns an [A]: it ends with a value and a state, or with
    a thrown error and the state reached when it was thrown, or runs out of
    fuel. *)

Inductive res (S A : Type) : Type :=
| Done (a : A) (s : S)
| Thrown (msg : string) (s : S)
| NoFuel.
Arguments Done {S A} a s.
Arguments Thrown {S A} msg s.
Arguments NoFuel {S A}.

Definition M (S A : Type) : Type := S -> res S A.

Definition ret {S A} (a : A) : M S A := fun s => Done a s.

Definition bind {S A B} (m : M S A) (k : A -> M S B) : M S B :=
  fun s =>
    match m s with
    | Done a s' => k a s'
    | Thrown msg s' => Thrown msg s'
    | NoFuel => NoFuel
    end.

Definition throw {S A} (msg : string) : M S A := fun s => Thrown msg s.
Definition nofuel {S A} : M S A := fun _ => NoFuel.
Definition get {S} : M S S := fun s => Done s s.
Definition put {S} (s : S) : M S unit := fun _ => Done tt s.

Notation "x <~ m ;; k" := (bind m (fun x => k))
  (at level 100, m at next level, right associativity).
Notation "m ;;; k" := (bind m (fun _ => k))
  (at level 100, right associativity).

(** A computation on a part [T] of the state [S]. *)
Definition zoom {S T A} (proj : S -> T) (upd : T -> S -> S) (m : M T A) : M S A :=
  fun s =>
    match m (proj s) with
    | Done a t => Done a (upd t s)
    | Thrown msg t => Thrown msg (upd t s)
    | NoFuel => NoFuel
    end.

(** A call that cannot change the state. *)
Definition liftO {S A} (o : outcome A) : M S A :=
  fun s =>
    match o with
    | Returns a => Done a s
    | Throws msg => Thrown msg s
    | OutOfFuel => NoFuel
    end.

(** A JavaScript string: its UTF-16 code units. *)
Definition JSString : Type := list Z.

Definition js (s : string) : JSString :=
  (fun c => Z.of_N (Ascii.N_of_ascii c)) <$> String.list_ascii_of_string s.

(** A [Date]: milliseconds since 1970; [None] is [null]. *)
Definition Date : Type := Z.

(** ** mfs.js: constants and class MFSLibUtils *)

Definition MFS_SIGNATURE : Z := 0xD2D7.
Definition SECTOR_SIZE : Z := 512.
Definition DEFAULT_ALLOC_BLOCK_SIZE_400K : Z := 1024.
Definition MDB_START_SECTOR : Z := 2.
Definition BOOT_BLOCK_SECTORS : Z := 2.
(** [Date.UTC(1904, 0, 1) / 1000] *)
Definition MFS_EPOCH_OFFSET : Z := -2082844800.

(** The [ArrayBuffer] of the volume with its [DataView]: a zero-initialised
    buffer of [byteLength] bytes; [bytes] holds the bytes written so far. *)
Record Image := mkImage {
  bytes : gmap Z Z;
  byteLength : Z
}.

Definition byte_at (img : Image) (off : Z) : Z := default 0 (bytes img !! off).

Definition in_buffer (img : Image) (off len : Z) : bool :=
  (0 <=? off) && (off + len <=? byteLength img).

Definition store (img : Image) (off v : Z) : Image :=
  mkImage (<[off := v mod 256]> (bytes img)) (byteLength img).

Module MFSLibUtils.

Definition RangeError : string := "RangeError: Offset is outside the bounds of the DataView".

Definition readUint8 (offset : Z) : M Image Z :=
  fun img =>
    if in_buffer img offset 1 then Done (byte_at img offset) img
    else Thrown RangeError img.

Definition writeUint8 (offset value : Z) : M Image unit :=
  fun img =>
    if in_buffer img offset 1 then Done tt (store img offset value)
    else Thrown RangeError img.

Definition readUint16BE (offset : Z) : M Image Z :=
  fun img =>
    if in_buffer img offset 2
    then Done (byte_at img offset * 256 + byte_at img (offset + 1)) img
    else Thrown RangeError img.

Definition writeUint16BE (offset value : Z) : M Image unit :=
  fun img =>
    if in_buffer img offset 2
    then let w := value mod 65536 in
         Done tt (store (store img offset (w / 256)) (offset + 1) w)
    else Thrown RangeError img.

Definition readUint32BE (offset : Z) : M Image Z :=
  fun img =>
    if in_buffer img offset 4
    then Done (byte_at img offset * 16777216 + byte_at img (offset + 1) * 65536
               + byte_at img (offset + 2) * 256 + byte_at img (offset + 3)) img
    else Thrown RangeError img.

Definition writeUint32BE (offset value : Z) : M Image unit :=
  fun img =>
    if in_buffer img offset 4
    then let w := value mod 4294967296 in
         Done tt (store (store (store (store img offset (w / 16777216))
                                  (offset + 1) (w / 65536))
                           (offset + 2) (w / 256))
                    (offset + 3) w)
    else Thrown RangeError img.

(** [for (i < count) str += String.fromCharCode(readUint8(from + i))] *)
Fixpoint read_chars (count : nat) (from : Z) : M Image JSString :=
  match count with
  | O => ret []
  | S c =>
      ch <~ readUint8 from ;;
      rest <~ read_chars c (from + 1) ;;
      ret (ch :: rest)
  end.

Definition readPascalString (offset maxLength : Z) : M Image JSString :=
  length <~ readUint8 offset ;;
  let actualLength := Z.min length maxLength in
  read_chars (Z.to_nat actualLength) (offset + 1).

(** [for (...) writeUint8(from + i, values[i])] *)
Fixpoint write_bytes (from : Z) (values : list Z) : M Image unit :=
  match values with
  | [] => ret tt
  | b :: rest => writeUint8 from b ;;; write_bytes (from + 1) rest
  end.

Definition writePascalString (offset : Z) (str : JSString) (fixedLength : Z) : M Image unit :=
  let len := Z.min (Z.of_nat (length str)) (fixedLength - 1) in
  writeUint8 offset len ;;;
  write_bytes (offset + 1) (take (Z.to_nat len) str) ;;;
  write_bytes (offset + 1 + len) (replicate (Z.to_nat (fixedLength - 1 - len)) 0).

Definition mfsTimestampToDate (mfsTime : Z) : option Date :=
  if mfsTime =? 0 then None else Some ((mfsTime + MFS_EPOCH_OFFSET) * 1000).

Definition dateToMFSTimestamp (date : option Date) : Z :=
  match date with
  | None => 0
  | Some ms => ms / 1000 - MFS_EPOCH_OFFSET
  end.

Definition getABMEntryFromTriplet (b0 b1 b2 : Z) (isEvenIndex : bool) : Z :=
  if isEvenIndex then Z.lor (Z.shiftl b0 4) (Z.shiftr b1 4)
  else Z.lor (Z.shiftl (Z.land b1 0x0F) 8) b2.

Definition packABMEntryToTriplet (value b0 b1 b2 : Z) (isEvenIndex : bool)
  : outcome (Z * Z * Z) :=
  if 0xFFF <? value then Throws "ABM value exceeds 12-bit range"
  else if isEvenIndex then
    let b0 := Z.land (Z.shiftr value 4) 0xFF in
    let b1 := Z.lor (Z.land b1 0x0F) (Z.shiftl (Z.land value 0x0F) 4) in
    Returns (b0, b1, b2)
  else
    let b1 := Z.lor (Z.land b1 0xF0) (Z.land (Z.shiftr value 8) 0x0F) in
    let b2 := Z.land value 0xFF in
    Returns (b0, b1, b2).

End MFSLibUtils.

(** ** mfs.js: class MFSVolume *)

(** [this.volumeInfo] *)
Module VolumeInfo.
Record t := mk {
  signature : Z;
  creationDate : option Date;
  modificationDate : option Date;
  attributes : Z;
  numFiles : Z;
  dirStartBlock : Z;
  dirLengthBlocks : Z;
  numAllocBlocks : Z;
  allocBlockSize : Z;
  clumpSize : Z;
  allocBlockStartSector : Z;
  nextFileNum : Z;
  freeAllocBlocks : Z;
  volumeName : JSString
}.
Definition set_numFiles (x : Z) (i : t) : t :=
  mk (signature i) (creationDate i) (modificationDate i) (attributes i) x
     (dirStartBlock i) (dirLengthBlocks i) (numAllocBlocks i) (allocBlockSize i)
     (clumpSize i) (allocBlockStartSector i) (nextFileNum i) (freeAllocBlocks i)
     (volumeName i).
Definition set_modificationDate (x : option Date) (i : t) : t :=
  mk (signature i) (creationDate i) x (attributes i) (numFiles i)
     (dirStartBlock i) (dirLengthBlocks i) (numAllocBlocks i) (allocBlockSize i)
     (clumpSize i) (allocBlockStartSector i) (nextFileNum i) (freeAllocBlocks i)
     (volumeName i).
Definition set_nextFileNum (x : Z) (i : t) : t :=
  mk (signature i) (creationDate i) (modificationDate i) (attributes i) (numFiles i)
     (dirStartBlock i) (dirLengthBlocks i) (numAllocBlocks i) (allocBlockSize i)
     (clumpSize i) (allocBlockStartSector i) x (freeAllocBlocks i)
     (volumeName i).
Definition set_freeAllocBlocks (x : Z) (i : t) : t :=
  mk (signature i) (creationDate i) (modificationDate i) (attributes i) (numFiles i)
     (dirStartBlock i) (dirLengthBlocks i) (numAllocBlocks i) (allocBlockSize i)
     (clumpSize i) (allocBlockStartSector i) (nextFileNum i) x
     (volumeName i).
End VolumeInfo.

(** An element of [this.fileDirectory]. [iconPosition] is the pair [(v, h)]. *)
Module FileEntry.
Record t := mk {
  flags : Z;
  version : Z;
  type : JSString;
  creator : JSString;
  finderFlags : Z;
  iconPosition : Z * Z;
  folderNum : Z;
  fileNum : Z;
  dataForkStartBlock : Z;
  dataForkLogicalLength : Z;
  dataForkAllocLength : Z;
  resourceForkStartBlock : Z;
  resourceForkLogicalLength : Z;
  resourceForkAllocLength : Z;
  creationDate : option Date;
  modificationDate : option Date;
  filename : JSString;
  _diskOffset : Z;
  _entryLength : Z
}.
End FileEntry.

(** The [metadata] argument of [createFile] and [writeFile]; an absent
    optional property is [None]. *)
Module Metadata.
Record t := mk {
  type : JSString;
  creator : JSString;
  folderNum : option Z;
  finderFlags : option Z;
  creationDate : option Date;
  modDate : option Date
}.
End Metadata.

(** The object returned by [getFileInfo]. *)
Module FileInfo.
Record t := mk {
  filename : JSString;
  type : JSString;
  creator : JSString;
  dataForkSize : Z;
  resourceForkSize : Z;
  creationDate : option Date;
  modificationDate : option Date;
  fileNum : Z;
  folderNum : Z;
  finderFlags : Z;
  iconPosition : Z * Z;
  _diskOffset : Z;
  _entryLength : Z
}.
End FileInfo.

(** The fields of an [MFSVolume]; [abm] is the JS array [this.abm], a map
    from index to entry ([None] is [undefined]). *)
Record Volume := mkVolume {
  image : Image;
  volumeInfo : VolumeInfo.t;
  abm : gmap Z Z;
  fileDirectory : list FileEntry.t
}.

Definition set_image (img : Image) (v : Volume) : Volume :=
  mkVolume img (volumeInfo v) (abm v) (fileDirectory v).
Definition set_volumeInfo (i : VolumeInfo.t) (v : Volume) : Volume :=
  mkVolume (image v) i (abm v) (fileDirectory v).
Definition set_abm (a : gmap Z Z) (v : Volume) : Volume :=
  mkVolume (image v) (volumeInfo v) a (fileDirectory v).
Definition set_fileDirectory (d : list FileEntry.t) (v : Volume) : Volume :=
  mkVolume (image v) (volumeInfo v) (abm v) d.

Inductive ForkType := ForkData | ForkResource | ForkOther.

Module MFSVolume.
Import MFSLibUtils.

(** A call on [this.dataView]. *)
Definition dv {A} (m : M Image A) : M Volume A := zoom image set_image m.

Definition the_volumeInfo : M Volume VolumeInfo.t := fun v => Done (volumeInfo v) v.
Definition update_volumeInfo (f : VolumeInfo.t -> VolumeInfo.t) : M Volume unit :=
  fun v => Done tt (set_volumeInfo (f (volumeInfo v)) v).

(** *** _parseMDB *)

(** The loop [for (i < numAllocBlocks) this.abm[i] = ...] of [_parseMDB]. *)
Fixpoint parse_abm (count : nat) (abmDiskOffset i : Z) (abm : gmap Z Z)
  : M Image (gmap Z Z) :=
  match count with
  | O => ret abm
  | S c =>
      let tripletIndex := i / 2 in
      let byteOffsetInABMData := tripletIndex * 3 in
      b0 <~ readUint8 (abmDiskOffset + byteOffsetInABMData) ;;
      b1 <~ readUint8 (abmDiskOffset + byteOffsetInABMData + 1) ;;
      b2 <~ readUint8 (abmDiskOffset + byteOffsetInABMData + 2) ;;
      let isEvenIndexInTriplet := Z.rem i 2 =? 0 in
      parse_abm c abmDiskOffset (i + 1)
        (<[i := getABMEntryFromTriplet b0 b1 b2 isEvenIndexInTriplet]> abm)
  end.

(** [_parseMDB] reads the image only; it yields the new values of
    [this.volumeInfo] and [this.abm]. *)
Definition parseMDB : M Image (VolumeInfo.t * gmap Z Z) :=
  let mdbOffset := MDB_START_SECTOR * SECTOR_SIZE in
  signature <~ readUint16BE (mdbOffset + 0) ;;
  creationDate <~ readUint32BE (mdbOffset + 2) ;;
  modificationDate <~ readUint32BE (mdbOffset + 6) ;;
  attributes <~ readUint16BE (mdbOffset + 10) ;;
  numFiles <~ readUint16BE (mdbOffset + 12) ;;
  dirStartBlock <~ readUint16BE (mdbOffset + 14) ;;
  dirLengthBlocks <~ readUint16BE (mdbOffset + 16) ;;
  numAllocBlocks <~ readUint16BE (mdbOffset + 18) ;;
  allocBlockSize <~ readUint32BE (mdbOffset + 20) ;;
  clumpSize <~ readUint32BE (mdbOffset + 24) ;;
  allocBlockStartSector <~ readUint16BE (mdbOffset + 28) ;;
  nextFileNum <~ readUint32BE (mdbOffset + 30) ;;
  freeAllocBlocks <~ readUint16BE (mdbOffset + 34) ;;
  volumeName <~ readPascalString (mdbOffset + 36) 27 ;;
  let abmOffsetInMDB := 64 in
  let abmDiskOffset := mdbOffset + abmOffsetInMDB in
  abm <~ parse_abm (Z.to_nat numAllocBlocks) abmDiskOffset 0 ∅ ;;
  ret (VolumeInfo.mk signature (mfsTimestampToDate creationDate)
         (mfsTimestampToDate modificationDate) attributes numFiles dirStartBlock
         dirLengthBlocks numAllocBlocks allocBlockSize clumpSize
         allocBlockStartSector nextFileNum freeAllocBlocks volumeName,
       abm).

Definition _parseMDB : M Volume unit :=
  r <~ dv parseMDB ;;
  fun v => Done tt (set_abm r.2 (set_volumeInfo r.1 v)).

(** *** _writeMDB *)

(** The loop [for (i = 0; i < numAllocBlocks; i += 2)] of [_writeMDB];
    [count] is the number of passes left. *)
Fixpoint write_abm (count : nat) (numAllocBlocks abmDiskOffset i : Z)
    (tempABMForWriting : gmap Z Z) : M Image unit :=
  match count with
  | O => ret tt
  | S c =>
      let tripletIndex := i / 2 in
      let byteOffsetInABMData := tripletIndex * 3 in
      img <~ get ;;
      old <~ (if abmDiskOffset + byteOffsetInABMData + 2 <? byteLength img then
                b0 <~ readUint8 (abmDiskOffset + byteOffsetInABMData) ;;
                b1 <~ readUint8 (abmDiskOffset + byteOffsetInABMData + 1) ;;
                b2 <~ readUint8 (abmDiskOffset + byteOffsetInABMData + 2) ;;
                ret (b0, b1, b2)
              else ret (0, 0, 0)) ;;
      let val1 := default 0 (tempABMForWriting !! i) in
      packed <~ liftO (packABMEntryToTriplet val1 old.1.1 old.1.2 old.2 true) ;;
      packed <~ (if i + 1 <? numAllocBlocks then
                   let val2 := default 0 (tempABMForWriting !! (i + 1)) in
                   liftO (packABMEntryToTriplet val2 packed.1.1 packed.1.2 packed.2 false)
                 else ret packed) ;;
      writeUint8 (abmDiskOffset + byteOffsetInABMData) packed.1.1 ;;;
      writeUint8 (abmDiskOffset + byteOffsetInABMData + 1) packed.1.2 ;;;
      writeUint8 (abmDiskOffset + byteOffsetInABMData + 2) packed.2 ;;;
      write_abm c numAllocBlocks abmDiskOffset (i + 2) tempABMForWriting
  end.

(** The number of values of [i] in 0, 2, 4, ... below [n]. *)
Definition passes_by_two (n : Z) : nat := Z.to_nat ((n + 1) / 2).

Definition writeMDB_image (info : VolumeInfo.t) (abm : gmap Z Z) : M Image unit :=
  let mdbOffset := MDB_START_SECTOR * SECTOR_SIZE in
  writeUint16BE (mdbOffset + 0) (VolumeInfo.signature info) ;;;
  writeUint32BE (mdbOffset + 2) (dateToMFSTimestamp (VolumeInfo.creationDate info)) ;;;
  writeUint32BE (mdbOffset + 6) (dateToMFSTimestamp (VolumeInfo.modificationDate info)) ;;;
  writeUint16BE (mdbOffset + 10) (VolumeInfo.attributes info) ;;;
  writeUint16BE (mdbOffset + 12) (VolumeInfo.numFiles info) ;;;
  writeUint16BE (mdbOffset + 14) (VolumeInfo.dirStartBlock info) ;;;
  writeUint16BE (mdbOffset + 16) (VolumeInfo.dirLengthBlocks info) ;;;
  writeUint16BE (mdbOffset + 18) (VolumeInfo.numAllocBlocks info) ;;;
  writeUint32BE (mdbOffset + 20) (VolumeInfo.allocBlockSize info) ;;;
  writeUint32BE (mdbOffset + 24) (VolumeInfo.clumpSize info) ;;;
  writeUint16BE (mdbOffset + 28) (VolumeInfo.allocBlockStartSector info) ;;;
  writeUint32BE (mdbOffset + 30) (VolumeInfo.nextFileNum info) ;;;
  writeUint16BE (mdbOffset + 34) (VolumeInfo.freeAllocBlocks info) ;;;
  writePascalString (mdbOffset + 36) (VolumeInfo.volumeName info) 28 ;;;
  let abmOffsetInMDB := 64 in
  let abmDiskOffset := mdbOffset + abmOffsetInMDB in
  (* [this._isFormattingNewImageInProgress] is never set: the ABM written is [this.abm] *)
  let tempABMForWriting := abm in
  write_abm (passes_by_two (VolumeInfo.numAllocBlocks info))
    (VolumeInfo.numAllocBlocks info) abmDiskOffset 0 tempABMForWriting.

Definition _writeMDB : M Volume unit :=
  fun v => dv (writeMDB_image (volumeInfo v) (abm v)) v.

(** *** _initializeFileDirectoryArea *)

Fixpoint clear_directory (count : nat) (dirStartOffset offset : Z) : M Image unit :=
  match count with
  | O => ret tt
  | S c =>
      img <~ get ;;
      (if dirStartOffset + offset <? byteLength img
       then writeUint8 (dirStartOffset + offset) 0x00 else ret tt) ;;;
      clear_directory c dirStartOffset (offset + 2)
  end.

Definition _initializeFileDirectoryArea : M Volume unit :=
  info <~ the_volumeInfo ;;
  let dirStartOffset := VolumeInfo.dirStartBlock info * SECTOR_SIZE in
  let dirTotalBytes := VolumeInfo.dirLengthBlocks info * SECTOR_SIZE in
  dv (clear_directory (passes_by_two dirTotalBytes) dirStartOffset 0).

(** *** _parseFileDirectory *)

(** [x >> 16] on a number read as an unsigned 32-bit integer: JS first takes
    it as a signed 32-bit integer. *)
Definition ToInt32 (x : Z) : Z :=
  let w := x mod 4294967296 in if w <? 2147483648 then w else w - 4294967296.

(** The body of the loop of [_parseFileDirectory] for an entry in use. *)
Definition read_entry (entryStartDiskOffset flFlags : Z) : M Image FileEntry.t :=
  version <~ readUint8 (entryStartDiskOffset + 1) ;;
  (* the first, overwritten, value of [entry.type] *)
  readPascalString (entryStartDiskOffset + 2 - 1) 4 ;;;
  type <~ read_chars 4 (entryStartDiskOffset + 2) ;;
  creator <~ read_chars 4 (entryStartDiskOffset + 6) ;;
  finderFlags <~ readUint16BE (entryStartDiskOffset + 10) ;;
  flPosRaw <~ readUint32BE (entryStartDiskOffset + 12) ;;
  let iconPosition := (Z.shiftr (ToInt32 flPosRaw) 16, Z.land flPosRaw 0xFFFF) in
  folderNum <~ readUint16BE (entryStartDiskOffset + 16) ;;
  fileNum <~ readUint32BE (entryStartDiskOffset + 18) ;;
  dataForkStartBlock <~ readUint16BE (entryStartDiskOffset + 22) ;;
  dataForkLogicalLength <~ readUint32BE (entryStartDiskOffset + 24) ;;
  dataForkAllocLength <~ readUint32BE (entryStartDiskOffset + 28) ;;
  resourceForkStartBlock <~ readUint16BE (entryStartDiskOffset + 32) ;;
  resourceForkLogicalLength <~ readUint32BE (entryStartDiskOffset + 34) ;;
  resourceForkAllocLength <~ readUint32BE (entryStartDiskOffset + 38) ;;
  creationDate <~ readUint32BE (entryStartDiskOffset + 42) ;;
  modificationDate <~ readUint32BE (entryStartDiskOffset + 46) ;;
  flNamLen <~ readUint8 (entryStartDiskOffset + 50) ;;
  filename <~ read_chars (Z.to_nat flNamLen) (entryStartDiskOffset + 51) ;;
  let _entryLength := 51 + flNamLen in
  let _entryLength := if negb (Z.rem _entryLength 2 =? 0) then _entryLength + 1
                      else _entryLength in
  ret (FileEntry.mk flFlags version type creator finderFlags iconPosition folderNum
         fileNum dataForkStartBlock dataForkLogicalLength dataForkAllocLength
         resourceForkStartBlock resourceForkLogicalLength resourceForkAllocLength
         (mfsTimestampToDate creationDate) (mfsTimestampToDate modificationDate)
         filename entryStartDiskOffset _entryLength).

(** [while (currentOffsetInDir < dirTotalBytes)] of [_parseFileDirectory];
    the first unused entry ends the loop. *)
Fixpoint parse_directory (fuel : nat) (dirStartOffset dirTotalBytes currentOffsetInDir : Z)
    (fileDirectory : list FileEntry.t) : M Image (list FileEntry.t) :=
  if currentOffsetInDir <? dirTotalBytes then
    match fuel with
    | O => nofuel
    | S fuel' =>
        let entryStartDiskOffset := dirStartOffset + currentOffsetInDir in
        img <~ get ;;
        if byteLength img <=? entryStartDiskOffset then ret fileDirectory
        else
          flFlags <~ readUint8 entryStartDiskOffset ;;
          if Z.land flFlags 0x80 =? 0 then ret fileDirectory
          else
            entry <~ read_entry entryStartDiskOffset flFlags ;;
            parse_directory fuel' dirStartOffset dirTotalBytes
              (currentOffsetInDir + FileEntry._entryLength entry)
              (fileDirectory ++ [entry])
    end
  else ret fileDirectory.

(** Every entry is at least 52 bytes long, so this many passes are enough. *)
Definition directory_fuel (dirTotalBytes : Z) : nat := Z.to_nat (dirTotalBytes / 52 + 1).

Definition parseFileDirectory (info : VolumeInfo.t) : M Image (list FileEntry.t) :=
  let dirStartOffset := VolumeInfo.dirStartBlock info * SECTOR_SIZE in
  let dirTotalBytes := VolumeInfo.dirLengthBlocks info * SECTOR_SIZE in
  parse_directory (directory_fuel dirTotalBytes) dirStartOffset dirTotalBytes 0 [].

Definition _parseFileDirectory : M Volume unit :=
  info <~ the_volumeInfo ;;
  d <~ dv (parseFileDirectory info) ;;
  fun v => Done tt (set_fileDirectory d v).

(** *** The allocation block map in memory *)

Definition _getABMEntry (mfsBlockNum : Z) : M Volume (option Z) :=
  fun v =>
    if (mfsBlockNum <? 2) || (VolumeInfo.numAllocBlocks (volumeInfo v) + 2 <=? mfsBlockNum)
    then Thrown "Invalid MFS block number for ABM lookup" v
    else Done (abm v !! (mfsBlockNum - 2)) v.

Definition _setABMEntry (mfsBlockNum value : Z) : M Volume unit :=
  fun v =>
    if (mfsBlockNum <? 2) || (VolumeInfo.numAllocBlocks (volumeInfo v) + 2 <=? mfsBlockNum)
    then Thrown "Invalid MFS block number for ABM update" v
    else if 0xFFF <? value then Thrown "ABM value exceeds 12-bit range." v
    else Done tt (set_abm (<[mfsBlockNum - 2 := value]> (abm v)) v).

(** The loop [for (i = 0; i < numAllocBlocks && freeBlocks.length < count; i++)]
    of [_findFreeBlocks]; [left] is [numAllocBlocks - i]. *)
Fixpoint scan_free (left : nat) (abm : gmap Z Z) (count i : Z) (freeBlocks : list Z)
  : list Z :=
  match left with
  | O => freeBlocks
  | S left' =>
      if Z.of_nat (length freeBlocks) <? count then
        scan_free left' abm count (i + 1)
          (if bool_decide (abm !! i = Some 0x000) then freeBlocks ++ [i + 2]
           else freeBlocks)
      else freeBlocks
  end.

Definition _findFreeBlocks (count : Z) : M Volume (list Z) :=
  fun v =>
    let freeBlocks :=
      scan_free (Z.to_nat (VolumeInfo.numAllocBlocks (volumeInfo v))) (abm v) count 0 [] in
    if Z.of_nat (length freeBlocks) <? count
    then Thrown "Not enough free blocks." v
    else Done freeBlocks v.

(** The linking loop of [_allocateBlockChain]. *)
Fixpoint link_blocks (allocatedMFSBlockNumbers : list Z) : M Volume unit :=
  match allocatedMFSBlockNumbers with
  | [] => ret tt
  | currentMFSBlock :: rest =>
      match rest with
      | next :: _ => _setABMEntry currentMFSBlock next
      | [] => _setABMEntry currentMFSBlock 0x001
      end ;;;
      link_blocks rest
  end.

(** Returns [(startBlock, allocatedBlocks)]. *)
Definition _allocateBlockChain (numBlocks : Z) : M Volume (Z * list Z) :=
  if numBlocks =? 0 then ret (0, [])
  else
    info <~ the_volumeInfo ;;
    if VolumeInfo.freeAllocBlocks info <? numBlocks
    then throw "Not enough free blocks in volume."
    else
      allocatedMFSBlockNumbers <~ _findFreeBlocks numBlocks ;;
      link_blocks allocatedMFSBlockNumbers ;;;
      update_volumeInfo (fun i =>
        VolumeInfo.set_freeAllocBlocks (VolumeInfo.freeAllocBlocks i - numBlocks) i) ;;;
      ret (default 0 (head allocatedMFSBlockNumbers), allocatedMFSBlockNumbers).

(** The [while] loop of [_freeBlockChain]; returns [freedCount]. A
    [currentMFSBlock] that is [undefined] fails the test [>= 2]. *)
Fixpoint free_chain (fuel : nat) (currentMFSBlock : option Z) (freedCount : Z)
  : M Volume Z :=
  match currentMFSBlock with
  | None => ret freedCount
  | Some current =>
      if negb (current =? 0x001) && negb (current =? 0x000) && (2 <=? current) then
        match fuel with
        | O => nofuel
        | S fuel' =>
            nextMFSBlockIndicator <~ _getABMEntry current ;;
            _setABMEntry current 0x000 ;;;
            let freedCount := freedCount + 1 in
            info <~ the_volumeInfo ;;
            match nextMFSBlockIndicator with
            | Some next =>
                if next =? 0x001 then ret freedCount
                else if next =? 0x000 then ret freedCount
                else if (VolumeInfo.numAllocBlocks info + 2 <=? next) || (next <? 2)
                then ret freedCount
                else free_chain fuel' (Some next) freedCount
            | None => free_chain fuel' None freedCount
            end
        end
      else ret freedCount
  end.

Definition _freeBlockChain (startMFSBlockNum : Z) : M Volume Z :=
  if startMFSBlockNum =? 0 then ret 0
  else
    info <~ the_volumeInfo ;;
    freedCount <~ free_chain (Z.to_nat (VolumeInfo.numAllocBlocks info) + 1)
                    (Some startMFSBlockNum) 0 ;;
    update_volumeInfo (fun i =>
      VolumeInfo.set_freeAllocBlocks (VolumeInfo.freeAllocBlocks i + freedCount) i) ;;;
    ret freedCount.

(** *** The directory in memory *)

(** Returns [(entry, indexInArray)]; [diskOffset] is [entry._diskOffset]. *)
Fixpoint find_entry (fileDirectory : list FileEntry.t) (filename : JSString) (i : nat)
  : option (FileEntry.t * nat) :=
  match fileDirectory with
  | [] => None
  | e :: rest =>
      if bool_decide (FileEntry.filename e = filename) then Some (e, i)
      else find_entry rest filename (S i)
  end.

Definition _findFileEntryByName (filename : JSString) : M Volume (option (FileEntry.t * nat)) :=
  fun v => Done (find_entry (fileDirectory v) filename 0) v.

Definition last_entry_end (dirStartOffsetOnDisk : Z) (fileDirectory : list FileEntry.t) : Z :=
  foldl (fun lastEntryEndOffset entry =>
           Z.max lastEntryEndOffset
             ((FileEntry._diskOffset entry - dirStartOffsetOnDisk)
              + FileEntry._entryLength entry))
        0 fileDirectory.

Definition _findFreeDirectorySlot : M Volume Z :=
  fun v =>
    let dirStartOffsetOnDisk := VolumeInfo.dirStartBlock (volumeInfo v) * SECTOR_SIZE in
    let dirTotalBytesOnDisk := VolumeInfo.dirLengthBlocks (volumeInfo v) * SECTOR_SIZE in
    let currentOffsetInDirArea := last_entry_end dirStartOffsetOnDisk (fileDirectory v) in
    if currentOffsetInDirArea + 52 <=? dirTotalBytesOnDisk
    then Done (dirStartOffsetOnDisk + currentOffsetInDirArea) v
    else Thrown "File directory is full. Expansion not yet supported." v.

(** [str.charCodeAt(i) || 0x3F]: a missing character and the character 0
    both give ['?']. *)
Definition char_or_question (str : JSString) (i : nat) : Z :=
  match str !! i with
  | Some c => if c =? 0 then 0x3F else c
  | None => 0x3F
  end.

Definition writeFileDirectoryEntry_image (entryObject : FileEntry.t) (diskOffset : Z)
  : M Image unit :=
  writeUint8 (diskOffset + 0) (FileEntry.flags entryObject) ;;;
  writeUint8 (diskOffset + 1) (FileEntry.version entryObject) ;;;
  write_bytes (diskOffset + 2)
    ((fun i => char_or_question (FileEntry.type entryObject) i) <$> seq 0 4) ;;;
  write_bytes (diskOffset + 6)
    ((fun i => char_or_question (FileEntry.creator entryObject) i) <$> seq 0 4) ;;;
  writeUint16BE (diskOffset + 10) (FileEntry.finderFlags entryObject) ;;;
  let rawIconPos :=
    Z.lor (Z.shiftl (Z.land (FileEntry.iconPosition entryObject).1 0xFFFF) 16)
          (Z.land (FileEntry.iconPosition entryObject).2 0xFFFF) in
  writeUint32BE (diskOffset + 12) rawIconPos ;;;
  writeUint16BE (diskOffset + 16) (FileEntry.folderNum entryObject) ;;;
  writeUint32BE (diskOffset + 18) (FileEntry.fileNum entryObject) ;;;
  writeUint16BE (diskOffset + 22) (FileEntry.dataForkStartBlock entryObject) ;;;
  writeUint32BE (diskOffset + 24) (FileEntry.dataForkLogicalLength entryObject) ;;;
  writeUint32BE (diskOffset + 28) (FileEntry.dataForkAllocLength entryObject) ;;;
  writeUint16BE (diskOffset + 32) (FileEntry.resourceForkStartBlock entryObject) ;;;
  writeUint32BE (diskOffset + 34) (FileEntry.resourceForkLogicalLength entryObject) ;;;
  writeUint32BE (diskOffset + 38) (FileEntry.resourceForkAllocLength entryObject) ;;;
  writeUint32BE (diskOffset + 42) (dateToMFSTimestamp (FileEntry.creationDate entryObject)) ;;;
  writeUint32BE (diskOffset + 46)
    (dateToMFSTimestamp (FileEntry.modificationDate entryObject)) ;;;
  let nameLen := Z.min (Z.of_nat (length (FileEntry.filename entryObject))) 255 in
  writeUint8 (diskOffset + 50) nameLen ;;;
  write_bytes (diskOffset + 51) (take (Z.to_nat nameLen) (FileEntry.filename entryObject)) ;;;
  let totalLength := 51 + nameLen in
  if negb (Z.rem totalLength 2 =? 0) then writeUint8 (diskOffset + totalLength) 0
  else ret tt.

Definition _writeFileDirectoryEntry (entryObject : FileEntry.t) (diskOffset : Z)
  : M Volume unit :=
  dv (writeFileDirectoryEntry_image entryObject diskOffset).

(** *** Fork contents *)

(** The physical offset of an allocation block,
    [(allocBlockStartSector + (mfsBlockNum - 2) * (allocBlockSize / 512)) * 512].
    The division by 512 = 2^9 is exact in floating point, so the value is
    this integer whatever the block size. *)
Definition blockDiskOffset (info : VolumeInfo.t) (mfsBlockNum : Z) : Z :=
  VolumeInfo.allocBlockStartSector info * SECTOR_SIZE
  + (mfsBlockNum - 2) * VolumeInfo.allocBlockSize info.

(** The loop over [allocatedBlocks] of [_writeForkData]. *)
Fixpoint write_fork (allocatedBlocks : list Z) (info : VolumeInfo.t)
    (sourceView : list Z) (bytesWritten : Z) : M Image unit :=
  match allocatedBlocks with
  | [] => ret tt
  | mfsBlockNum :: rest =>
      let totalBytesToWrite := Z.of_nat (length sourceView) in
      let bytesRemainingInFile := totalBytesToWrite - bytesWritten in
      let bytesToWriteInThisBlock :=
        Z.min (VolumeInfo.allocBlockSize info) bytesRemainingInFile in
      write_bytes (blockDiskOffset info mfsBlockNum)
        (take (Z.to_nat bytesToWriteInThisBlock)
           (drop (Z.to_nat bytesWritten) sourceView)) ;;;
      let bytesWritten := bytesWritten + bytesToWriteInThisBlock in
      if totalBytesToWrite <=? bytesWritten then ret tt
      else write_fork rest info sourceView bytesWritten
  end.

Definition _writeForkData (contentBuffer : list Z) (allocatedBlocks : list Z)
  : M Volume unit :=
  info <~ the_volumeInfo ;;
  dv (write_fork allocatedBlocks info contentBuffer 0).

(** [Math.ceil(size / allocBlockSize)]; [None] is [Infinity] (block size 0).
    The ceiling of a quotient is minus the floor of its opposite. *)
Definition blocks_for (size allocBlockSize : Z) : option Z :=
  if 0 <? size then
    if allocBlockSize =? 0 then None
    else Some (- ((- size) / allocBlockSize))
  else Some 0.

Definition byteLength_of (content : option (list Z)) : Z :=
  match content with
  | Some b => Z.of_nat (length b)
  | None => 0
  end.

Definition file_info (entry : FileEntry.t) : FileInfo.t :=
  FileInfo.mk (FileEntry.filename entry) (FileEntry.type entry) (FileEntry.creator entry)
    (FileEntry.dataForkLogicalLength entry) (FileEntry.resourceForkLogicalLength entry)
    (FileEntry.creationDate entry) (FileEntry.modificationDate entry)
    (FileEntry.fileNum entry) (FileEntry.folderNum entry) (FileEntry.finderFlags entry)
    (FileEntry.iconPosition entry) (FileEntry._diskOffset entry)
    (FileEntry._entryLength entry).

Definition getFileInfo (filename : JSString) : M Volume (option FileInfo.t) :=
  found <~ _findFileEntryByName filename ;;
  ret ((fun f => file_info f.1) <$> found).

(** [listFiles] returns, for each entry, the tuple (filename, type, creator,
    dataForkSize, resourceForkSize, creationDate, modificationDate, fileNum,
    folderNum). *)
Definition listFiles (v : Volume)
  : list (JSString * JSString * JSString * Z * Z * option Date * option Date * Z * Z) :=
  (fun entry =>
     (FileEntry.filename entry, FileEntry.type entry, FileEntry.creator entry,
      FileEntry.dataForkLogicalLength entry, FileEntry.resourceForkLogicalLength entry,
      FileEntry.creationDate entry, FileEntry.modificationDate entry,
      FileEntry.fileNum entry, FileEntry.folderNum entry)) <$> fileDirectory v.

Definition getDiskImage (v : Volume) : Image := image v.

(** *** deleteFile *)

Definition deleteFile (filename : JSString) (now : Date) : M Volume bool :=
  fileInfo <~ _findFileEntryByName filename ;;
  match fileInfo with
  | None => throw "File not found for deletion"
  | Some (entry, indexInArray) =>
      let diskOffset := FileEntry._diskOffset entry in
      _freeBlockChain (FileEntry.dataForkStartBlock entry) ;;;
      _freeBlockChain (FileEntry.resourceForkStartBlock entry) ;;;
      currentFlags <~ dv (readUint8 diskOffset) ;;
      dv (writeUint8 diskOffset (Z.land currentFlags 0x7F)) ;;;
      update_volumeInfo (fun i => VolumeInfo.set_numFiles (VolumeInfo.numFiles i - 1) i) ;;;
      update_volumeInfo (VolumeInfo.set_modificationDate (Some now)) ;;;
      _writeMDB ;;;
      (fun v => Done tt (set_fileDirectory (delete indexInArray (fileDirectory v)) v)) ;;;
      ret true
  end.

(** *** writeFile *)

(** [x || 0] for an optional number. *)
Definition or_zero (x : option Z) : Z := default 0 x.

Definition allocate_fork (blocks : option Z) : M Volume (Z * list Z) :=
  match blocks with
  | None => throw "Not enough free blocks in volume."
  | Some n => if 0 <? n then _allocateBlockChain n else ret (0, [])
  end.

Definition writeFile (filename : JSString)
    (dataForkContent resourceForkContent : option (list Z))
    (metadata : Metadata.t) (now : Date) : M Volume (option FileInfo.t) :=
  existingFile <~ _findFileEntryByName filename ;;
  match existingFile with
  | Some _ => deleteFile filename now
  | None => ret true
  end ;;;
  info <~ the_volumeInfo ;;
  let dataSize := byteLength_of dataForkContent in
  let rsrcSize := byteLength_of resourceForkContent in
  let blocksForData := blocks_for dataSize (VolumeInfo.allocBlockSize info) in
  let blocksForRsrc := blocks_for rsrcSize (VolumeInfo.allocBlockSize info) in
  dataForkAllocInfo <~ allocate_fork blocksForData ;;
  rsrcForkAllocInfo <~ allocate_fork blocksForRsrc ;;
  newEntryDiskOffset <~ _findFreeDirectorySlot ;;
  info <~ the_volumeInfo ;;
  let fileNum := VolumeInfo.nextFileNum info in
  update_volumeInfo (VolumeInfo.set_nextFileNum (fileNum + 1)) ;;;
  let nameLenForCalc := Z.min (Z.of_nat (length filename)) 255 in
  let _entryLength := 51 + nameLenForCalc in
  let _entryLength := if negb (Z.rem _entryLength 2 =? 0) then _entryLength + 1
                      else _entryLength in
  let fileEntry :=
    FileEntry.mk 0x80 0x00 (Metadata.type metadata) (Metadata.creator metadata)
      (or_zero (Metadata.finderFlags metadata)) (0, 0)
      (or_zero (Metadata.folderNum metadata)) fileNum
      dataForkAllocInfo.1 dataSize
      (default 0 blocksForData * VolumeInfo.allocBlockSize info)
      rsrcForkAllocInfo.1 rsrcSize
      (default 0 blocksForRsrc * VolumeInfo.allocBlockSize info)
      (Some (default now (Metadata.creationDate metadata)))
      (Some (default now (Metadata.modDate metadata)))
      filename newEntryDiskOffset _entryLength in
  _writeFileDirectoryEntry fileEntry newEntryDiskOffset ;;;
  match dataForkContent with
  | Some content =>
      if 0 <? Z.of_nat (length dataForkAllocInfo.2)
      then _writeForkData content dataForkAllocInfo.2 else ret tt
  | None => ret tt
  end ;;;
  match resourceForkContent with
  | Some content =>
      if 0 <? Z.of_nat (length rsrcForkAllocInfo.2)
      then _writeForkData content rsrcForkAllocInfo.2 else ret tt
  | None => ret tt
  end ;;;
  update_volumeInfo (fun i => VolumeInfo.set_numFiles (VolumeInfo.numFiles i + 1) i) ;;;
  update_volumeInfo (VolumeInfo.set_modificationDate (Some now)) ;;;
  _writeMDB ;;;
  (fun v => Done tt (set_fileDirectory (fileDirectory v ++ [fileEntry]) v)) ;;;
  getFileInfo filename.

Definition createFile (filename : JSString) (metadata : Metadata.t) (now : Date)
  : M Volume (option FileInfo.t) :=
  if bool_decide (filename = []) || (255 <? Z.of_nat (length filename))
  then throw "Invalid filename or filename too long."
  else if bool_decide (Metadata.type metadata = [])
          || bool_decide (Metadata.creator metadata = [])
          || negb (Z.of_nat (length (Metadata.type metadata)) =? 4)
          || negb (Z.of_nat (length (Metadata.creator metadata)) =? 4)
  then throw "File type and creator (4 chars each) are required in metadata."
  else writeFile filename None None metadata now.

(** *** readFile *)

(** The inner [for] loop of [readFile]; [None] is the early
    [return forkData.buffer.slice(0, bytesRead)]. *)
Fixpoint read_block (count : nat) (blockDiskOffset bytesRead i : Z) (forkData : list Z)
  : M Image (option (list Z)) :=
  match count with
  | O => ret (Some forkData)
  | S c =>
      img <~ get ;;
      if (blockDiskOffset + i <? byteLength img)
         && (bytesRead + i <? Z.of_nat (length forkData))
      then
        b <~ readUint8 (blockDiskOffset + i) ;;
        read_block c blockDiskOffset bytesRead (i + 1)
          (<[Z.to_nat (bytesRead + i) := b]> forkData)
      else ret None
  end.

(** The [while] loop of [readFile] and the [return] after it. *)
Fixpoint read_chain (fuel : nat) (logicalLength : Z) (forkData : list Z)
    (bytesRead : Z) (currentMFSBlock : option Z) : M Volume (list Z) :=
  let finish := ret (take (Z.to_nat logicalLength) forkData) in
  match currentMFSBlock with
  | None => finish
  | Some current =>
      if negb (current =? 0x001) && negb (current =? 0x000) && (2 <=? current)
         && (bytesRead <? logicalLength)
      then
        match fuel with
        | O => nofuel
        | S fuel' =>
            info <~ the_volumeInfo ;;
            let allocBlockSizeBytes := VolumeInfo.allocBlockSize info in
            let bytesToReadInThisBlock :=
              Z.min allocBlockSizeBytes (logicalLength - bytesRead) in
            filled <~ dv (read_block (Z.to_nat bytesToReadInThisBlock)
                            (blockDiskOffset info current) bytesRead 0 forkData) ;;
            match filled with
            | None => ret (take (Z.to_nat bytesRead) forkData)
            | Some forkData =>
                let bytesRead := bytesRead + bytesToReadInThisBlock in
                nextMFSBlockIndicator <~ _getABMEntry current ;;
                match nextMFSBlockIndicator with
                | Some next =>
                    if next =? 0x001
                    then ret (take (Z.to_nat logicalLength) forkData)
                    else if (next =? 0x000) || (next <? 2)
                            || (VolumeInfo.numAllocBlocks info + 2 <=? next)
                    then throw "Corrupted file chain"
                    else read_chain fuel' logicalLength forkData bytesRead (Some next)
                | None => read_chain fuel' logicalLength forkData bytesRead None
                end
            end
        end
      else finish
  end.

Definition readFile (filename : JSString) (forkType : ForkType) : M Volume (list Z) :=
  fileInfo <~ _findFileEntryByName filename ;;
  match fileInfo with
  | None => throw "File not found for reading"
  | Some (entry, _) =>
      fork <~ match forkType with
              | ForkData =>
                  ret (FileEntry.dataForkStartBlock entry,
                       FileEntry.dataForkLogicalLength entry,
                       FileEntry.dataForkAllocLength entry)
              | ForkResource =>
                  ret (FileEntry.resourceForkStartBlock entry,
                       FileEntry.resourceForkLogicalLength entry,
                       FileEntry.resourceForkAllocLength entry)
              | ForkOther => throw "Invalid fork type. Must be 'data' or 'resource'."
              end ;;
      let startBlock := fork.1.1 in
      let logicalLength := fork.1.2 in
      let allocLength := fork.2 in
      if (startBlock =? 0) || (logicalLength =? 0) then ret []
      else
        let forkData := replicate (Z.to_nat allocLength) 0 in
        read_chain (Z.to_nat logicalLength + 1) logicalLength forkData 0 (Some startBlock)
  end.

(** *** The constructor *)

Definition run {A} (m : M Volume A) (v : Volume) : outcome Volume :=
  match m v with
  | Done _ v' => Returns v'
  | Thrown msg _ => Throws msg
  | NoFuel => OutOfFuel
  end.

Definition _formatNewImage (sizeKB : Z) (volumeName : JSString) (now : Date)
  : outcome Volume :=
  let totalSizeBytes := sizeKB * 1024 in
  if negb (Z.rem totalSizeBytes SECTOR_SIZE =? 0)
  then Throws "Image size must be a multiple of sector size."
  else
    let allocBlockSize := DEFAULT_ALLOC_BLOCK_SIZE_400K in
    if totalSizeBytes <? BOOT_BLOCK_SECTORS * SECTOR_SIZE + 1024 + allocBlockSize
    then Throws "Image size too small for basic MFS structures."
    else
      let imageBuffer := mkImage ∅ totalSizeBytes in
      let dirStartBlock := BOOT_BLOCK_SECTORS + 1024 / SECTOR_SIZE in
      let dirLengthBlocks := 12 in
      let allocBlockStartSector := dirStartBlock + dirLengthBlocks in
      let totalSectors := totalSizeBytes / SECTOR_SIZE in
      let numSectorsForAllocBlocks := totalSectors - allocBlockStartSector in
      let numAllocBlocks := numSectorsForAllocBlocks / (allocBlockSize / SECTOR_SIZE) in
      let clumpSize := Z.max (allocBlockSize * 8) allocBlockSize in
      let volumeInfo :=
        VolumeInfo.mk MFS_SIGNATURE (Some now) (Some now) 0x0000 0
          dirStartBlock dirLengthBlocks numAllocBlocks allocBlockSize clumpSize
          allocBlockStartSector 1 numAllocBlocks volumeName in
      run (_writeMDB ;;;
           _initializeFileDirectoryArea ;;;
           _parseMDB ;;;
           _parseFileDirectory)
          (mkVolume imageBuffer volumeInfo ∅ []).

Definition _loadExistingImage (arrayBuffer : Image) : outcome Volume :=
  (* [this.volumeInfo] is [null] until [_parseMDB] sets it *)
  let blank := VolumeInfo.mk 0 None None 0 0 0 0 0 0 0 0 0 0 [] in
  v <- run _parseMDB (mkVolume arrayBuffer blank ∅ []) ;;
  if negb (VolumeInfo.signature (volumeInfo v) =? MFS_SIGNATURE)
  then Throws "Invalid MFS signature."
  else run _parseFileDirectory v.

(** The argument of [new MFSVolume(...)]: a buffer, or creation options
    with [create: true] ([None] for an option that is left out). *)
Inductive Source :=
| Buffer (arrayBuffer : Image)
| Create (sizeKB : option Z) (volumeName : option JSString).

Definition new_MFSVolume (sourceOrOptions : Source) (now : Date) : outcome Volume :=
  match sourceOrOptions with
  | Buffer arrayBuffer => _loadExistingImage arrayBuffer
  | Create sizeKB volumeName =>
      let sizeKB := match sizeKB with
                    | Some k => if k =? 0 then 400 else k
                    | None => 400
                    end in
      let volumeName := match volumeName with
                        | Some [] | None => js "Untitled"
                        | Some name => name
                        end in
      _formatNewImage sizeKB volumeName now
  end.

(** *** Notions used to state the properties of the volume *)

(** The JS array holding the values [vals] at the indices 0, 1, 2, ... *)
Definition abm_of_list (vals : list Z) : gmap Z Z := map_seqZ 0 vals.

(** An all-zero buffer of [len] bytes. *)
Definition blank_image (len : Z) : Image := mkImage ∅ len.

(** The buffer holds bytes. *)
Definition is_buffer (img : Image) : Prop := forall off, 0 <= byte_at img off < 256.

(** A 12-bit value. *)
Definition is_abm_value (x : Z) : Prop := 0 <= x <= 0xFFF.

(** The ABM entry of index [k] as the bytes of the image encode it, for a
    map that starts at [abmDiskOffset]. *)
Definition entry_at (img : Image) (abmDiskOffset k : Z) : Z :=
  getABMEntryFromTriplet
    (byte_at img (abmDiskOffset + k / 2 * 3))
    (byte_at img (abmDiskOffset + k / 2 * 3 + 1))
    (byte_at img (abmDiskOffset + k / 2 * 3 + 2))
    (Z.rem k 2 =? 0).

(** A computation that only reads the image. *)
Definition reads_only {A} (m : M Image A) : Prop :=
  forall img,
    match m img with
    | Done _ img' | Thrown _ img' => img' = img
    | NoFuel => False
    end.

(** A moment to run the examples at. *)
Definition an_instant : Date := 1700000000000.

Definition PNTG_MPNT : Metadata.t :=
  Metadata.mk (js "PNTG") (js "MPNT") None None None None.


(** Calls in a row on one volume, the first failure ending the run. *)
Fixpoint calls (ms : list (M Volume unit)) : M Volume unit :=
  match ms with
  | [] => ret tt
  | m :: rest => m ;;; calls rest
  end.


(** The volume [new MFSVolume({create: true})] makes: 400 KB, "Untitled". *)
Definition fresh_volume : Volume :=
  match new_MFSVolume (Create None None) an_instant with
  | Returns v => v
  | _ => mkVolume (blank_image 0) (VolumeInfo.mk 0 None None 0 0 0 0 0 0 0 0 0 0 []) ∅ []
  end.

(** A resource fork that takes all the 392 blocks of a 400 KB volume. *)
Definition whole_volume_fork : list Z := replicate (Z.to_nat (392 * 1024)) 0.

(** *** The image of the volume *)

(** The big-endian numbers of the image. *)
Definition u16_at (img : Image) (off : Z) : Z :=
  byte_at img off * 256 + byte_at img (off + 1).
Definition u32_at (img : Image) (off : Z) : Z :=
  byte_at img off * 16777216 + byte_at img (off + 1) * 65536
  + byte_at img (off + 2) * 256 + byte_at img (off + 3).
Definition store16 (img : Image) (off value : Z) : Image :=
  let w := value mod 65536 in store (store img off (w / 256)) (off + 1) w.
Definition store32 (img : Image) (off value : Z) : Image :=
  let w := value mod 4294967296 in
  store (store (store (store img off (w / 16777216)) (off + 1) (w / 65536))
           (off + 2) (w / 256)) (off + 3) w.

(** The image after the thirteen numbers of the master directory block
    have been written. *)
Definition header_written (info : VolumeInfo.t) (img : Image) : Image :=
  store16 (store32 (store16 (store32 (store32 (store16 (store16 (store16 (store16
    (store16 (store32 (store32 (store16 img
      1024 (VolumeInfo.signature info))
      1026 (dateToMFSTimestamp (VolumeInfo.creationDate info)))
      1030 (dateToMFSTimestamp (VolumeInfo.modificationDate info)))
      1034 (VolumeInfo.attributes info))
      1036 (VolumeInfo.numFiles info))
      1038 (VolumeInfo.dirStartBlock info))
      1040 (VolumeInfo.dirLengthBlocks info))
      1042 (VolumeInfo.numAllocBlocks info))
      1044 (VolumeInfo.allocBlockSize info))
      1048 (VolumeInfo.clumpSize info))
      1052 (VolumeInfo.allocBlockStartSector info))
      1054 (VolumeInfo.nextFileNum info))
      1058 (VolumeInfo.freeAllocBlocks info).

(** *** The entries of the directory on disk *)






(** The number of allocation blocks a fork of this content takes,
    [Math.ceil(size / allocBlockSize)]. *)
Definition blocks_needed (content : option (list Z)) (v : Volume) : Z :=
  default 0 (blocks_for (byteLength_of content) (VolumeInfo.allocBlockSize (volumeInfo v))).

(** *** The state of the volume in memory *)

(** The number of entries equal to 0x000 among the [left] entries of the
    allocation block map from index [i] on. *)
Fixpoint count_free (left : nat) (abm : gmap Z Z) (i : Z) : Z :=
  match left with
  | O => 0
  | S left' =>
      (if bool_decide (abm !! i = Some 0x000) then 1 else 0) + count_free left' abm (i + 1)
  end.

(** The number of free allocation blocks according to the map. *)
Definition free_count (abm : gmap Z Z) (numAllocBlocks : Z) : Z :=
  count_free (Z.to_nat numAllocBlocks) abm 0.

(** The blocks [_findFreeBlocks(count)] collects: the first [count] free
    ones, in ascending order. *)
Definition free_blocks (abm : gmap Z Z) (numAllocBlocks count : Z) : list Z :=
  (fun j => j + 2)
    <$> take (Z.to_nat count)
          (filter (fun j => abm !! j = Some 0x000) (seqZ 0 numAllocBlocks)).

(** The map after [_allocateBlockChain] has linked the blocks [blocks]. *)
Fixpoint link (abm : gmap Z Z) (blocks : list Z) : gmap Z Z :=
  match blocks with
  | [] => abm
  | b :: rest =>
      link (<[b - 2 := match rest with next :: _ => next | [] => 0x001 end]> abm) rest
  end.

(** The map after the blocks [blocks] have been marked free. *)
Fixpoint clear (abm : gmap Z Z) (blocks : list Z) : gmap Z Z :=
  match blocks with
  | [] => abm
  | b :: rest => clear (<[b - 2 := 0x000]> abm) rest
  end.

(** [blocks] is the chain of the map [abm] that starts at block [start]:
    each block is linked to the next and the last one holds 0x001. *)
Inductive chain (abm : gmap Z Z) (n : Z) : Z -> list Z -> Prop :=
| chain_last b :
    2 <= b < n + 2 -> abm !! (b - 2) = Some 0x001 -> chain abm n b [b]
| chain_link b next rest :
    2 <= b < n + 2 -> abm !! (b - 2) = Some next -> 2 <= next < n + 2 ->
    chain abm n next rest -> chain abm n b (b :: rest).

(** The chain of a fork: empty when the start block is 0. *)
Definition fork_chain (abm : gmap Z Z) (n : Z) (start : Z) (blocks : list Z) : Prop :=
  (start = 0 /\ blocks = []) \/ (start <> 0 /\ chain abm n start blocks).

(** The start blocks of the forks of the files, in the order of the
    directory. *)
Definition forks (fileDirectory : list FileEntry.t) : list Z :=
  fileDirectory ≫= fun e =>
    [FileEntry.dataForkStartBlock e; FileEntry.resourceForkStartBlock e].

(** [owned] lists forks as pairs of a start block and its chain of blocks:
    each is a chain of the map and no block is in two chains. *)
Definition chains_ok (abm : gmap Z Z) (n : Z) (owned : list (Z * list Z)) : Prop :=
  Forall (fun sc => fork_chain abm n sc.1 sc.2) owned
  /\ NoDup (mjoin (snd <$> owned)).

(** The volume with another allocation block map and free-block counter. *)
Definition realloc (abm' : gmap Z Z) (free : Z) (v : Volume) : Volume :=
  mkVolume (image v) (VolumeInfo.set_freeAllocBlocks free (volumeInfo v)) abm'
    (fileDirectory v).

(** The in-memory state is consistent: the free-block counter counts the
    free entries of the map, and the forks of the files are chains of the
    map that share no block. *)
Record consistent (v : Volume) : Prop := {
  cons_free :
    VolumeInfo.freeAllocBlocks (volumeInfo v)
    = free_count (abm v) (VolumeInfo.numAllocBlocks (volumeInfo v));
  cons_chains :
    exists owned,
      fst <$> owned = forks (fileDirectory v)
      /\ chains_ok (abm v) (VolumeInfo.numAllocBlocks (volumeInfo v)) owned
}.

(** The calls of the public API that change a volume. *)
Inductive Call :=
| CreateFile (filename : JSString) (metadata : Metadata.t) (now : Date)
| WriteFile (filename : JSString) (dataForkContent resourceForkContent : option (list Z))
    (metadata : Metadata.t) (now : Date)
| DeleteFile (filename : JSString) (now : Date).

Definition perform (c : Call) : M Volume unit :=
  match c with
  | CreateFile filename metadata now => createFile filename metadata now ;;; ret tt
  | WriteFile filename data rsrc metadata now =>
      writeFile filename data rsrc metadata now ;;; ret tt
  | DeleteFile filename now => deleteFile filename now ;;; ret tt
  end.

(** The volumes the library can produce: a freshly formatted one, of any
    size and name, and what a successful call makes of such a volume. *)
Inductive reachable : Volume -> Prop :=
| reach_format sizeKB volumeName now v :
    new_MFSVolume (Create sizeKB volumeName) now = Returns v -> reachable v
| reach_call v c v' :
    reachable v -> perform c v = Done tt v' -> reachable v'.

(** *** Notions for writing a file and reading it back *)

(** A computation that, on a buffer that holds the bytes from [lo] to
    [hi], returns, and changes no byte outside them. *)
Definition writes_within (lo hi : Z) {A} (m : M Image A) : Prop :=
  forall img,
    is_buffer img -> 0 <= lo -> hi <= byteLength img ->
    exists a img',
      m img = Done a img'
      /\ byteLength img' = byteLength img
      /\ is_buffer img'
      /\ forall o, o < lo \/ hi <= o -> byte_at img' o = byte_at img o.

(** The bytes [data] of a fork are in the blocks [blocks] of the image:
    byte [i] is in the block number [i / allocBlockSize] of the list, at
    the offset [i mod allocBlockSize]. *)
Definition fork_stored (img : Image) (info : VolumeInfo.t) (blocks data : list Z) : Prop :=
  forall (i : nat) (d : Z),
    data !! i = Some d ->
    exists b,
      blocks !! Z.to_nat (Z.of_nat i / VolumeInfo.allocBlockSize info) = Some b
      /\ byte_at img (blockDiskOffset info b + Z.of_nat i mod VolumeInfo.allocBlockSize info)
         = d.

(** The bytes of block [b] are in the buffer. *)
Definition block_in_buffer (img : Image) (info : VolumeInfo.t) (b : Z) : Prop :=
  0 <= blockDiskOffset info b
  /\ blockDiskOffset info b + VolumeInfo.allocBlockSize info <= byteLength img.

(** The names of the files of the volume. *)
Definition filenames (v : Volume) : list JSString :=
  FileEntry.filename <$> fileDirectory v.

(** A volume in good order: its state in memory is consistent, its image
    holds bytes, the allocation blocks are not empty and their numbers fit
    12 bits, the allocation block map ends before the blocks start, the
    buffer holds the directory (and the 256 bytes after it, which an entry
    that starts in the last 52 bytes of the directory runs into) and all
    the blocks, the map holds 12-bit values, the entries of the directory
    lie in the buffer, and no two files have the same name. *)
Record well_formed (v : Volume) : Prop := {
  wf_consistent : consistent v;
  wf_buffer : is_buffer (image v);
  wf_block_size : 0 < VolumeInfo.allocBlockSize (volumeInfo v);
  wf_blocks :
    0 <= VolumeInfo.numAllocBlocks (volumeInfo v)
    /\ VolumeInfo.numAllocBlocks (volumeInfo v) + 1 <= 0xFFF;
  wf_map_room :
    1088 + (VolumeInfo.numAllocBlocks (volumeInfo v) + 1) / 2 * 3
    <= VolumeInfo.allocBlockStartSector (volumeInfo v) * SECTOR_SIZE;
  wf_directory :
    0 <= VolumeInfo.dirStartBlock (volumeInfo v)
    /\ 0 <= VolumeInfo.dirLengthBlocks (volumeInfo v)
    /\ (VolumeInfo.dirStartBlock (volumeInfo v) + VolumeInfo.dirLengthBlocks (volumeInfo v))
       * SECTOR_SIZE + 256 <= byteLength (image v);
  wf_block_room :
    VolumeInfo.allocBlockStartSector (volumeInfo v) * SECTOR_SIZE
    + VolumeInfo.numAllocBlocks (volumeInfo v) * VolumeInfo.allocBlockSize (volumeInfo v)
    <= byteLength (image v);
  wf_values :
    forall k, 0 <= k < VolumeInfo.numAllocBlocks (volumeInfo v) ->
              is_abm_value (default 0 (abm v !! k));
  wf_entries :
    forall e, e ∈ fileDirectory v -> 0 <= FileEntry._diskOffset e < byteLength (image v);
  wf_names : NoDup (filenames v)
}.

(** The calls [calls], one after the other. *)
Fixpoint perform_all (calls : list Call) : M Volume unit :=
  match calls with
  | [] => ret tt
  | c :: rest => perform c ;;; perform_all rest
  end.

(** 118 calls of [createFile], for files with the one-character names
    "!", the character after it, and so on. *)
Definition one_character_files : list Call :=
  (fun i => CreateFile [0x21 + i] PNTG_MPNT an_instant) <$> seqZ 0 118.

(** What a single-entry write must do, as a test on one 12-bit value and
    the nibble of the middle byte that the write keeps: the entry reads
    back and the kept nibble is unchanged. [l] is the low nibble, [h] the
    high nibble (as a multiple of 16). *)
Definition even_write_ok (value l : Z) : bool :=
  let e0 := Z.land (Z.shiftr value 4) 0xFF in
  let e1 := Z.lor l (Z.shiftl (Z.land value 0x0F) 4) in
  (Z.lor (Z.shiftl e0 4) (Z.shiftr e1 4) =? value)
  && (Z.land e1 0x0F =? l)
  && (0 <=? e0) && (e0 <? 256) && (0 <=? e1) && (e1 <? 256).

Definition odd_write_ok (value h : Z) : bool :=
  let o1 := Z.lor h (Z.land (Z.shiftr value 8) 0x0F) in
  let o2 := Z.land value 0xFF in
  (Z.lor (Z.shiftl (Z.land o1 0x0F) 8) o2 =? value)
  && (Z.land o1 0xF0 =? h) && (Z.shiftr o1 4 =? Z.shiftr h 4)
  && (0 <=? o1) && (o1 <? 256) && (0 <=? o2) && (o2 <? 256).

(** The two nibbles of a byte. *)
Definition nibbles_ok (b : Z) : bool :=
  (0 <=? Z.land b 0x0F) && (Z.land b 0x0F <? 16)
  && (Z.land b 0xF0 =? 16 * Z.shiftr b 4) && (0 <=? Z.shiftr b 4) && (Z.shiftr b 4 <? 16)
  && (Z.shiftr (Z.land b 0xF0) 4 =? Z.shiftr b 4).

End MFSVolume.

(** ** macpaint.js: the dithering strategies

    The strategies receive the caller's grayscale array by reference. To see
    what they do to it, arrays live in a heap and the strategies are given
    the location of [grayscaleData.data]. The arithmetic of JS numbers
    (doubles, rounded to single precision when stored in a [Float32Array])
    is an interface: the properties proved below hold for every
    implementation of it. *)

Module Dither.

Class JSNumbers (F : Type) := {
  of_Z : Z -> F;            (* an integer as a number *)
  nan : F;                  (* what [undefined] becomes in arithmetic *)
  add : F -> F -> F;
  sub : F -> F -> F;
  mul : F -> F -> F;
  div : F -> F -> F;
  ltb : F -> F -> bool;     (* [<] *)
  leb : F -> F -> bool;     (* [<=] *)
  fmax : F -> F -> F;       (* [Math.max] *)
  fmin : F -> F -> F;       (* [Math.min] *)
  fround : F -> F;          (* the value a [Float32Array] keeps *)
  to_uint8 : F -> Z         (* the value a [Uint8Array] keeps *)
}.

Inductive TypedArray (F : Type) : Type :=
| Uint8Array (elems : list Z)
| Float32Array (elems : list F).
Arguments Uint8Array {F} elems.
Arguments Float32Array {F} elems.

Section Strategies.
Context {F : Type} `{JSNumbers F}.

Abbreviation Heap := (gmap nat (TypedArray F)) (only parsing).

Definition array_length (a : TypedArray F) : Z :=
  match a with
  | Uint8Array elems => Z.of_nat (length elems)
  | Float32Array elems => Z.of_nat (length elems)
  end.

(** [new X(...)]: the array is put at a location not in use. *)
Definition alloc (h : Heap) (a : TypedArray F) : nat * Heap :=
  let l := fresh (dom h) in (l, <[l := a]> h).

(** [array[idx]] used as a number. *)
Definition read (h : Heap) (l : nat) (idx : Z) : F :=
  if idx <? 0 then nan
  else
    match h !! l with
    | Some (Uint8Array elems) => from_option of_Z nan (elems !! Z.to_nat idx)
    | Some (Float32Array elems) => default nan (elems !! Z.to_nat idx)
    | None => nan
    end.

(** [array[idx] = v] for a number [v]; ignored outside the array. *)
Definition write_num (h : Heap) (l : nat) (idx : Z) (v : F) : Heap :=
  if idx <? 0 then h
  else
    match h !! l with
    | Some (Uint8Array elems) =>
        <[l := Uint8Array (<[Z.to_nat idx := to_uint8 v]> elems)]> h
    | Some (Float32Array elems) =>
        <[l := Float32Array (<[Z.to_nat idx := fround v]> elems)]> h
    | None => h
    end.

(** [array[idx] = b] for an integer [b]. *)
Definition write_int (h : Heap) (l : nat) (idx : Z) (b : Z) : Heap :=
  if idx <? 0 then h
  else
    match h !! l with
    | Some (Uint8Array elems) =>
        <[l := Uint8Array (<[Z.to_nat idx := b mod 256]> elems)]> h
    | Some (Float32Array elems) =>
        <[l := Float32Array (<[Z.to_nat idx := fround (of_Z b)]> elems)]> h
    | None => h
    end.

(** [array[idx] += e] *)
Definition add_at (h : Heap) (l : nat) (idx : Z) (e : F) : Heap :=
  write_num h l idx (add (read h l idx) e).

(** The elements of [new Float32Array(source)] for a typed array [source]. *)
Definition as_float32 (a : TypedArray F) : list F :=
  match a with
  | Uint8Array elems => (fun b => fround (of_Z b)) <$> elems
  | Float32Array elems => fround <$> elems
  end.

(** [new Uint8Array(Math.ceil(width * height / 8))] *)
Definition new_one_bit (h : Heap) (width height : Z) : outcome (nat * Heap) :=
  let len := (width * height + 7) / 8 in
  if len <? 0 then Throws "RangeError: Invalid typed array length"
  else Returns (alloc h (Uint8Array (replicate (Z.to_nat len) 0))).

(** The variables of the pixel loops. *)
Record Loop := mkLoop {
  heap : Heap;
  oneBitDataIndex : Z;
  currentByte : Z;
  bitPosition : Z
}.

(** The part all pixel loops share: set the bit of a black pixel, and store
    the byte in [oneBitDataArray] once it has eight bits. *)
Definition put_bit (o : nat) (pntgBit : bool) (st : Loop) : Loop :=
  let currentByte :=
    if pntgBit then Z.lor (currentByte st) (Z.shiftl 1 (7 - bitPosition st))
    else currentByte st in
  let bitPosition := bitPosition st + 1 in
  if bitPosition =? 8
  then mkLoop (write_int (heap st) o (oneBitDataIndex st) currentByte)
              (oneBitDataIndex st + 1) 0 0
  else mkLoop (heap st) (oneBitDataIndex st) currentByte bitPosition.

(** The end common to the Atkinson, Floyd-Steinberg and Bayer strategies:
    the last, partial byte, then the copy into [finalOneBitData]. *)
Definition finish (o : nat) (width height : Z) (st : Loop) : outcome (nat * Heap) :=
  let st :=
    if 0 <? bitPosition st
    then mkLoop (write_int (heap st) o (oneBitDataIndex st) (currentByte st))
                (oneBitDataIndex st + 1) (currentByte st) (bitPosition st)
    else st in
  r <- new_one_bit (heap st) width height ;;
  let final := r.1 in
  let h := r.2 in
  (* finalOneBitData.set(oneBitDataArray.slice(0, finalOneBitData.length)) *)
  let copied :=
    match h !! o, h !! final with
    | Some (Uint8Array src), Some (Uint8Array dst) =>
        let part := take (length dst) src in
        <[final := Uint8Array (part ++ drop (length part) dst)]> h
    | _, _ => h
    end in
  Returns (final, copied).

(** [for (x = x0; x < width; x++) body], [count] passes. *)
Fixpoint for_x (count : nat) (body : Z -> Loop -> Loop) (x : Z) (st : Loop) : Loop :=
  match count with
  | O => st
  | S c => for_x c body (x + 1) (body x st)
  end.

(** [for (y < height) for (x < width) body] *)
Fixpoint for_y (count : nat) (width : Z) (body : Z -> Z -> Loop -> Loop) (y : Z) (st : Loop)
  : Loop :=
  match count with
  | O => st
  | S c => for_y c width body (y + 1) (for_x (Z.to_nat width) (body y) 0 st)
  end.

(** *** ThresholdStrategy *)

Definition threshold_body (gsData o : nat) (thresholdValue : F) (i : Z) (st : Loop) : Loop :=
  let isBlack := ltb (read (heap st) gsData i) thresholdValue in
  let currentByte :=
    if isBlack then Z.lor (currentByte st) (Z.shiftl 1 (7 - bitPosition st))
    else currentByte st in
  let bitPosition := bitPosition st + 1 in
  if bitPosition =? 8
  then mkLoop (write_int (heap st) o (i / 8) currentByte) (oneBitDataIndex st) 0 0
  else mkLoop (heap st) (oneBitDataIndex st) currentByte bitPosition.

Definition ThresholdStrategy_apply (thresholdValue : F) (h : Heap) (gsData : nat)
    (width height : Z) : outcome (nat * Heap) :=
  r <- new_one_bit h width height ;;
  let oneBitData := r.1 in
  let len := from_option array_length 0 (h !! gsData) in
  let st := for_x (Z.to_nat len) (threshold_body gsData oneBitData thresholdValue) 0
              (mkLoop r.2 0 0 0) in
  let h :=
    if 0 <? bitPosition st
    then write_int (heap st) oneBitData ((len - 1) / 8) (currentByte st)
    else heap st in
  Returns (oneBitData, h).

(** *** AtkinsonDitheringStrategy *)

Definition atkinson_body (gsData o : nat) (width height y x : Z) (st : Loop) : Loop :=
  let currentIndex := y * width + x in
  let oldPixel := fmax (of_Z 0) (fmin (of_Z 255) (read (heap st) gsData currentIndex)) in
  let black := ltb oldPixel (of_Z 128) in
  let newPixelValue := if black then of_Z 0 else of_Z 255 in
  let st := put_bit o black st in
  let quantError := sub oldPixel newPixelValue in
  let errorPortion := div quantError (of_Z 8) in
  let h := heap st in
  let h := if x + 1 <? width then add_at h gsData (y * width + (x + 1)) errorPortion else h in
  let h := if x + 2 <? width then add_at h gsData (y * width + (x + 2)) errorPortion else h in
  let h := if (0 <=? x - 1) && (y + 1 <? height)
           then add_at h gsData ((y + 1) * width + (x - 1)) errorPortion else h in
  let h := if y + 1 <? height then add_at h gsData ((y + 1) * width + x) errorPortion else h in
  let h := if (x + 1 <? width) && (y + 1 <? height)
           then add_at h gsData ((y + 1) * width + (x + 1)) errorPortion else h in
  let h := if y + 2 <? height then add_at h gsData ((y + 2) * width + x) errorPortion else h in
  mkLoop h (oneBitDataIndex st) (currentByte st) (bitPosition st).

(** The two error-diffusion strategies differ in the loop body only. *)
Definition diffuse (body : nat -> nat -> Z -> Z -> Z -> Z -> Loop -> Loop)
    (h : Heap) (gsDataInput : nat) (width height : Z) : outcome (nat * Heap) :=
  (* const gsData = new Float32Array(gsDataInput) *)
  let source := default (Float32Array []) (h !! gsDataInput) in
  let '(gsData, h) := alloc h (Float32Array (as_float32 source)) in
  r <- new_one_bit h width height ;;
  let oneBitDataArray := r.1 in
  let st := for_y (Z.to_nat height) width (body gsData oneBitDataArray width height) 0
              (mkLoop r.2 0 0 0) in
  finish oneBitDataArray width height st.

Definition AtkinsonDitheringStrategy_apply : Heap -> nat -> Z -> Z -> outcome (nat * Heap) :=
  diffuse atkinson_body.

(** *** FloydSteinbergDitheringStrategy *)

Definition floyd_steinberg_body (gsData o : nat) (width height y x : Z) (st : Loop) : Loop :=
  let currentIndex := y * width + x in
  let oldPixel := fmax (of_Z 0) (fmin (of_Z 255) (read (heap st) gsData currentIndex)) in
  let black := ltb oldPixel (of_Z 128) in
  let newPixelValue := if black then of_Z 0 else of_Z 255 in
  let st := put_bit o black st in
  let quantError := sub oldPixel newPixelValue in
  let part k := mul quantError (div (of_Z k) (of_Z 16)) in
  let h := heap st in
  let h := if x + 1 <? width then add_at h gsData (currentIndex + 1) (part 7) else h in
  let h := if (0 <=? x - 1) && (y + 1 <? height)
           then add_at h gsData ((y + 1) * width + (x - 1)) (part 3) else h in
  let h := if y + 1 <? height then add_at h gsData ((y + 1) * width + x) (part 5) else h in
  let h := if (x + 1 <? width) && (y + 1 <? height)
           then add_at h gsData ((y + 1) * width + (x + 1)) (part 1) else h in
  mkLoop h (oneBitDataIndex st) (currentByte st) (bitPosition st).

Definition FloydSteinbergDitheringStrategy_apply
  : Heap -> nat -> Z -> Z -> outcome (nat * Heap) :=
  diffuse floyd_steinberg_body.

(** *** BayerDitheringStrategy *)

Definition bayer2 : list (list Z) := [[0; 2]; [3; 1]].
Definition bayer4 : list (list Z) :=
  [[0; 8; 2; 10]; [12; 4; 14; 6]; [3; 11; 1; 9]; [15; 7; 13; 5]].
Definition bayer8 : list (list Z) :=
  [[0; 32; 8; 40; 2; 34; 10; 42]; [48; 16; 56; 24; 50; 18; 58; 26];
   [12; 44; 4; 36; 14; 46; 6; 38]; [60; 28; 52; 20; 62; 30; 54; 22];
   [3; 35; 11; 43; 1; 33; 9; 41]; [51; 19; 59; 27; 49; 17; 57; 25];
   [15; 47; 7; 39; 13; 45; 5; 37]; [63; 31; 55; 23; 61; 29; 53; 21]].

(** The constructor: [(matrixSize, _bayerMatrix, _normalizationFactor)];
    an unsupported size falls back to 4. *)
Definition BayerDitheringStrategy_new (matrixSize : option Z) : Z * list (list Z) * Z :=
  let matrixSize := match matrixSize with
                    | Some k => if k =? 0 then 4 else k
                    | None => 4
                    end in
  if matrixSize =? 2 then (2, bayer2, 4)
  else if matrixSize =? 4 then (4, bayer4, 16)
  else if matrixSize =? 8 then (8, bayer8, 64)
  else (4, bayer4, 16).

Definition bayer_body (this : Z * list (list Z) * Z) (gsData o : nat)
    (width height y x : Z) (st : Loop) : Loop :=
  let n := this.1.1 in
  let grayscaleValue := read (heap st) gsData (y * width + x) in
  let grayscaleNormalized := div grayscaleValue (of_Z 255) in
  let bayerMatrixValue :=
    default 0 (default [] (this.1.2 !! Z.to_nat (Z.rem y n)) !! Z.to_nat (Z.rem x n)) in
  let bayerThresholdNormalized := div (of_Z bayerMatrixValue) (of_Z this.2) in
  let pntgBit := leb grayscaleNormalized bayerThresholdNormalized in
  put_bit o pntgBit st.

Definition BayerDitheringStrategy_apply (this : Z * list (list Z) * Z)
    (h : Heap) (gsData : nat) (width height : Z) : outcome (nat * Heap) :=
  r <- new_one_bit h width height ;;
  let oneBitDataArray := r.1 in
  let st := for_y (Z.to_nat height) width (bayer_body this gsData oneBitDataArray width height)
              0 (mkLoop r.2 0 0 0) in
  finish oneBitDataArray width height st.

(** *** Notions used to state the properties of the strategies *)

(** Everything that was in the heap [h] is still there, unchanged, in [h']. *)
Definition keeps (h h' : Heap) : Prop := forall l, l ∈ dom h -> h' !! l = h !! l.

(** The kind and the length of an array. *)
Definition shape (a : option (TypedArray F)) : option (bool * nat) :=
  match a with
  | Some (Uint8Array elems) => Some (false, length elems)
  | Some (Float32Array elems) => Some (true, length elems)
  | None => None
  end.

(** [h'] has the arrays of [h], of the same kind and length, and only those
    at the locations [ls] may have other contents. *)
Definition only_changes (ls : gset nat) (h h' : Heap) : Prop :=
  (forall l, shape (h' !! l) = shape (h !! l))
  /\ (forall l, l ∉ ls -> h' !! l = h !! l).

(** The four strategies, as the caller configures them. *)
Inductive Strategy :=
| Threshold (thresholdValue : F)
| FloydSteinberg
| Atkinson
| Bayer (matrixSize : option Z).

Definition apply (s : Strategy) : Heap -> nat -> Z -> Z -> outcome (nat * Heap) :=
  match s with
  | Threshold t => ThresholdStrategy_apply t
  | FloydSteinberg => FloydSteinbergDitheringStrategy_apply
  | Atkinson => AtkinsonDitheringStrategy_apply
  | Bayer m => BayerDitheringStrategy_apply (BayerDitheringStrategy_new m)
  end.

End Strategies.

(** Exact rational arithmetic, to run the strategies on examples. It does
    no rounding, so it is not the arithmetic of JS. *)
Definition exact_numbers : JSNumbers Q := {|
  of_Z := inject_Z;
  nan := 0%Q;
  add := Qplus;
  sub := Qminus;
  mul := Qmult;
  div := Qdiv;
  ltb := fun a b => negb (Qle_bool b a);
  leb := Qle_bool;
  fmax := fun a b => if Qle_bool a b then b else a;
  fmin := fun a b => if Qle_bool a b then a else b;
  fround := Qred;
  to_uint8 := fun a => (Qnum a / Zpos (Qden a)) mod 256
|}.

(** A 16 x 1 gradient held in a [Uint8Array] at location 0. *)
Definition gradient_heap : gmap nat (TypedArray Q) :=
  {[ 0%nat := Uint8Array ((fun k => 16 * k) <$> seqZ 0 16) ]}.

End Dither.

(** * Proofs *)

Module PackBitsProofs.
Import PackBits.

(** *** The two scanning loops of the compressor *)

Section Scan.
Variable s : list Z.
Variable n : nat.


Lemma find_repeat_ok fuel i r :
    (n - (i + r) <= fuel)%nat -> (1 <= r <= 128)%nat -> (i + r <= n)%nat ->
    (forall j, (j < r)%nat -> s !! (i + j)%nat = s !! i) ->
    exists k, find_repeat fuel s n i r = Returns k
      /\ (r <= k <= 128)%nat /\ (i + k <= n)%nat
      /\ (forall j, (j < k)%nat -> s !! (i + j)%nat = s !! i)
      /\ ~ repeat_goes_on s n i k.
  Proof.
    revert r. induction fuel as [|fuel IH]; intros r Hfuel Hr Hin Hsame;
      cbn [find_repeat].
    - destruct (Nat.ltb_spec (i + r) n) as [Hlt|Hge]; [lia|]. cbn [andb].
      exists r. repeat split; try lia; auto. unfold repeat_goes_on. lia.
    - destruct (Nat.ltb_spec (i + r) n) as [Hlt|Hge]; cbn [andb].
      2:{ exists r. repeat split; try lia; auto. unfold repeat_goes_on. lia. }
      destruct (bool_decide_reflect (s !! i = s !! (i + r)%nat)) as [Heq|Hne]; cbn [andb].
      2:{ exists r. repeat split; try lia; auto. unfold repeat_goes_on. tauto. }
      destruct (Nat.ltb_spec r 128) as [Hr128|Hr128]; cbn [andb].
      2:{ exists r. repeat split; try lia; auto. unfold repeat_goes_on. lia. }
      destruct (IH (S r)) as (k & Hk & Hrange & Hkn & Hall & Hstop); try lia.
      { intros j Hj. destruct (decide (j = r)) as [->|]; [by symmetry|]. apply Hsame. lia. }
      exists k. repeat split; auto; lia.
  Qed.


Lemma find_literal_end_ok fuel literalStart i :
    (n - i <= fuel)%nat -> (literalStart < i <= n)%nat ->
    (i - literalStart <= 127)%nat ->
    exists j, find_literal_end fuel s n literalStart i = Returns j
      /\ (i <= j <= n)%nat /\ (j - literalStart <= 127)%nat
      /\ literal_stops s n literalStart j.
  Proof.
    assert (Hhere : forall i', (i' <= n)%nat -> (i' - literalStart <= 127)%nat ->
              literal_stops s n literalStart i' ->
              exists j, Returns i' = Returns j
                /\ (i' <= j <= n)%nat /\ (j - literalStart <= 127)%nat
                /\ literal_stops s n literalStart j).
    { intros i' H1 H2 H3. exists i'. split; [reflexivity|]. split; [lia|]. split; assumption. }
    revert i. induction fuel as [|fuel IH]; intros i Hfuel Hi Hlen; cbn [find_literal_end].
    - destruct (Nat.ltb_spec i n) as [Hlt|Hge]; [lia|].
      apply Hhere; [lia|lia|]. left. lia.
    - destruct (Nat.ltb_spec i n) as [Hlt|Hge].
      2:{ apply Hhere; [lia|lia|]. left. lia. }
      destruct ((i + 1 <? n)%nat && bool_decide (s !! i = s !! (i + 1)%nat)) eqn:Hrep.
      { apply Hhere; [lia|lia|]. right; left.
        apply andb_true_iff in Hrep as [H1 H2].
        apply Nat.ltb_lt in H1. apply bool_decide_eq_true in H2. auto. }
      destruct (Nat.leb_spec 127 (i - literalStart)) as [Hcap|Hcap].
      { apply Hhere; [lia|lia|]. right; right. lia. }
      destruct (IH (S i)) as (j & Hj & Hrange & Hjl & Hstop); try lia.
      exists j. split; [assumption|]. split; [lia|]. split; assumption.
  Qed.
End Scan.

(** *** One pass of the compressor's outer loop emits one packet *)

Lemma literal_bytes_length s i l : length (literal_bytes s i l) = l.
Proof. unfold literal_bytes. by rewrite length_fmap, length_seq. Qed.

Lemma literal_bytes_slice s i l :
  (i + l <= length s)%nat -> literal_bytes s i l = take l (drop i s).
Proof.
  intros Hin. apply list_eq. intros j. unfold literal_bytes.
  rewrite list_lookup_fmap.
  destruct (decide (j < l)%nat) as [Hj|Hj].
  - rewrite lookup_seq_lt by done. rewrite lookup_take_lt by done. rewrite lookup_drop. simpl.
    unfold at_. destruct (s !! (i + j)%nat) eqn:E; [done|].
    apply lookup_ge_None in E. lia.
  - rewrite lookup_seq_ge by lia. rewrite lookup_take_ge by lia. done.
Qed.


Lemma compress_iter s n i :
  (i < n)%nat ->
  exists pkt i', packet s n i i' pkt /\
    forall fuel acc,
      compress_loop (S fuel) s n i acc = compress_loop fuel s n i' (acc ++ pkt).
Proof.
  intros Hi.
  destruct (find_repeat_ok s n n i 1) as (k & Hk & Hrange & Hkn & Hall & Hstop);
    try lia.
  { intros j Hj. replace j with 0%nat by lia. by rewrite Nat.add_0_r. }
  destruct (decide (1 < k)%nat) as [Hrun|Hlit].
  - exists [- (Z.of_nat k - 1); at_ s i], (i + k)%nat. split.
    + eapply packet_repeat; eauto; lia.
    + intros fuel acc. cbn [compress_loop].
      destruct (Nat.ltb_spec i n); [|lia].
      rewrite Hk. cbn [obind].
      destruct (Nat.ltb_spec 1 k); [done|lia].
  - assert (k = 1)%nat as -> by lia.
    destruct (find_literal_end_ok s n n i (S i)) as (j & Hj & Hjr & Hjl & Hjs);
      try lia.
    exists ([Z.of_nat (j - i) - 1] ++ literal_bytes s i (j - i)), j. split.
    + eapply (packet_literal _ _ _ _ _ (j - i)); eauto; try lia.
    + intros fuel acc. cbn [compress_loop].
      destruct (Nat.ltb_spec i n); [|lia].
      rewrite Hk. cbn [obind].
      destruct (Nat.ltb_spec 1 1); [lia|].
      rewrite Hj. cbn [obind]. done.
Qed.

Lemma packet_advance s n i i' pkt : packet s n i i' pkt -> (i < i' <= n)%nat.
Proof. destruct 1; lia. Qed.

(** The loop returns, and what it returns starts with what was already there. *)
Lemma compress_loop_returns s n fuel i acc :
  (n - i <= fuel)%nat ->
  exists c, compress_loop fuel s n i [] = Returns c
    /\ compress_loop fuel s n i acc = Returns (acc ++ c).
Proof.
  revert i acc. induction fuel as [|fuel IH]; intros i acc Hfuel.
  - cbn [compress_loop]. destruct (Nat.ltb_spec i n); [lia|].
    exists []. by rewrite app_nil_r.
  - destruct (decide (i < n)%nat) as [Hi|Hi].
    + destruct (compress_iter s n i Hi) as (pkt & i' & Hpkt & Hstep).
      pose proof (packet_advance _ _ _ _ _ Hpkt).
      rewrite !Hstep. cbn [app].
      destruct (IH i' pkt ltac:(lia)) as (c & Hc & Hcp).
      destruct (IH i' (acc ++ pkt) ltac:(lia)) as (c2 & Hc2 & Hcp2).
      rewrite Hc in Hc2. injection Hc2 as <-.
      exists (pkt ++ c). rewrite Hcp, Hcp2. by rewrite (assoc_L (++)).
    + cbn [compress_loop]. destruct (Nat.ltb_spec i n); [lia|].
      exists []. by rewrite app_nil_r.
Qed.

(** *** Size of the compressed scanline *)


Lemma compress_loop_size s n fuel i :
  (n - i <= fuel)%nat -> (i <= n)%nat ->
  exists c, compress_loop fuel s n i [] = Returns c
    /\ (3 * length c <= 4 * (n - i) + 2)%nat
    /\ (i = n \/ repeat_starts s n i -> 3 * length c <= 4 * (n - i))%nat.
Proof.
  revert i. induction fuel as [|fuel IH]; intros i Hfuel Hin.
  - cbn [compress_loop]. destruct (Nat.ltb_spec i n); [lia|].
    exists []. simpl. repeat split; lia.
  - destruct (decide (i < n)%nat) as [Hi|Hi].
    2:{ cbn [compress_loop]. destruct (Nat.ltb_spec i n); [lia|].
        exists []. simpl. repeat split; lia. }
    destruct (compress_iter s n i Hi) as (pkt & i' & Hpkt & Hstep).
    pose proof (packet_advance _ _ _ _ _ Hpkt) as Hadv.
    destruct (IH i' ltac:(lia) ltac:(lia)) as (c & Hc & Hweak & Hstrong).
    destruct (compress_loop_returns s n fuel i' pkt ltac:(lia)) as (c' & Hc' & Happ).
    rewrite Hc in Hc'. injection Hc' as <-.
    exists (pkt ++ c). rewrite Hstep. cbn [app]. split; [done|].
    rewrite length_app.
    destruct Hpkt as [k -> Hk Hkn Hall ->|l -> Hl Hln Hnorep Hstop ->].
    + simpl. split; [lia|]. intros _. lia.
    + rewrite length_app, literal_bytes_length. simpl.
      assert (3 * length c <= 4 * (n - (i + l)) + (l - 1))%nat as Hc3.
      { destruct Hstop as [Hend|[Hrep|Hcap]].
        - specialize (Hstrong (or_introl Hend)). lia.
        - specialize (Hstrong (or_intror Hrep)). lia.
        - lia. }
      split; [lia|]. intros [Hend|[Hr1 Hr2]]; [lia|].
      exfalso. apply Hnorep. unfold repeat_goes_on. repeat split; [done|done|lia].
Qed.

(** *** What the decompressor does with one packet *)


Lemma splice_nil out i : splice out i [] = out.
Proof. unfold splice. simpl. rewrite Nat.add_0_r. apply take_drop. Qed.

Lemma splice_cons out i b bs :
  (i < length out)%nat ->
  splice (<[i := b]> out) (S i) bs = splice out i (b :: bs).
Proof.
  intros Hi. unfold splice.
  rewrite (take_S_r _ _ b) by (by apply list_lookup_insert_eq).
  rewrite take_insert_ge by lia.
  rewrite drop_insert_lt by lia.
  rewrite <- (assoc_L (++)). cbn [length app].
  by replace (i + S (length bs))%nat with (S i + length bs)%nat by lia.
Qed.

Lemma splice_length out i bs :
  (i + length bs <= length out)%nat -> length (splice out i bs) = length out.
Proof.
  intros H. unfold splice. rewrite !length_app, length_take, length_drop. lia.
Qed.

Lemma ToUint8_byte b : 0 <= b < 256 -> ToUint8 b = b.
Proof. intros. unfold ToUint8. by apply Z.mod_small. Qed.

Lemma getUint8_app pre x post :
  getUint8 (pre ++ x :: post) (Z.of_nat (length pre)) = Some x.
Proof.
  unfold getUint8. rewrite length_app. simpl.
  destruct (Z.leb_spec 0 (Z.of_nat (length pre))); [|lia].
  destruct (Z.ltb_spec (Z.of_nat (length pre)) (Z.of_nat (length pre + S (length post))));
    [|lia].
  simpl. rewrite Nat2Z.id. by rewrite list_lookup_middle.
Qed.

Lemma copy_literal_app bs : forall pre post out oi,
  is_bytes bs -> (oi + length bs <= length out)%nat ->
  copy_literal (length bs) (pre ++ bs ++ post)
    (mkDState out (Z.of_nat oi) (Z.of_nat (length pre)))
  = Next (mkDState (splice out oi bs) (Z.of_nat (oi + length bs))
            (Z.of_nat (length pre + length bs))).
Proof.
  induction bs as [|b bs IH]; intros pre post out oi Hbytes Hlen.
  - simpl. rewrite splice_nil, !Nat.add_0_r. done.
  - simpl in Hlen. cbn [copy_literal length currentOffset output outputIndex].
    change (pre ++ (b :: bs) ++ post) with (pre ++ b :: (bs ++ post)).
    rewrite getUint8_app.
    inversion Hbytes as [|? ? Hb Hbs]; subst.
    unfold u8set. destruct (Z.leb_spec 0 (Z.of_nat oi)); [|lia].
    rewrite Nat2Z.id, ToUint8_byte by done.
    replace (pre ++ b :: bs ++ post) with ((pre ++ [b]) ++ bs ++ post)
      by (by rewrite <- (assoc_L (++))).
    replace (Z.of_nat (length pre) + 1) with (Z.of_nat (length (pre ++ [b])))
      by (rewrite length_app; simpl; lia).
    replace (Z.of_nat oi + 1) with (Z.of_nat (S oi)) by lia.
    rewrite IH; [|done|rewrite length_insert; lia].
    rewrite splice_cons by lia. rewrite length_app. simpl.
    do 2 f_equal; f_equal; lia.
Qed.

Lemma fill_repeat_splice k : forall b out oi co,
  0 <= b < 256 -> (oi + k <= length out)%nat ->
  fill_repeat k b (mkDState out (Z.of_nat oi) co)
  = mkDState (splice out oi (replicate k b)) (Z.of_nat (oi + k)) co.
Proof.
  induction k as [|k IH]; intros b out oi co Hb Hlen.
  - simpl. rewrite splice_nil, Nat.add_0_r. done.
  - cbn [fill_repeat currentOffset output outputIndex].
    unfold u8set. destruct (Z.leb_spec 0 (Z.of_nat oi)); [|lia].
    rewrite Nat2Z.id, ToUint8_byte by done.
    replace (Z.of_nat oi + 1) with (Z.of_nat (S oi)) by lia.
    rewrite IH; [|done|rewrite length_insert; lia].
    rewrite splice_cons by lia. simpl. do 2 f_equal. lia.
Qed.

Lemma getInt8_app pre x post :
  getInt8 (pre ++ x :: post) (Z.of_nat (length pre))
  = Some (if x <? 128 then x else x - 256).
Proof. unfold getInt8. by rewrite getUint8_app. Qed.

Lemma is_bytes_slice s i l : is_bytes s -> is_bytes (take l (drop i s)).
Proof. intros H. by apply Forall_take, Forall_drop. Qed.

Lemma fmap_ToUint8_bytes bs : is_bytes bs -> ToUint8 <$> bs = bs.
Proof.
  induction 1 as [|b bs Hb _ IH]; [done|].
  by rewrite fmap_cons, ToUint8_byte, IH.
Qed.

Lemma at_byte s i : is_bytes s -> 0 <= at_ s i < 256.
Proof.
  intros H. unfold at_. destruct (s !! i) as [b|] eqn:E; simpl; [|lia].
  eapply Forall_lookup_1 in H; eauto.
Qed.

Lemma run_slice s i k :
  (i + k <= length s)%nat ->
  (forall j, (j < k)%nat -> s !! (i + j)%nat = s !! i) ->
  replicate k (at_ s i) = take k (drop i s).
Proof.
  intros Hin Hall. apply list_eq. intros j.
  destruct (decide (j < k)%nat) as [Hj|Hj].
  - rewrite lookup_replicate_2 by done. rewrite lookup_take_lt by done.
    rewrite lookup_drop, Hall by done. unfold at_.
    destruct (s !! i) eqn:E; [done|]. apply lookup_ge_None in E. lia.
  - rewrite lookup_take_ge by lia. apply lookup_replicate_None. lia.
Qed.

Lemma byteLength_app pre mid post :
  byteLength (pre ++ mid ++ post)
  = Z.of_nat (length pre) + Z.of_nat (length mid) + Z.of_nat (length post).
Proof. unfold byteLength. rewrite !length_app. lia. Qed.

(** The decompressor's loop body, run on the packet the compressor wrote for
    the input positions [i .. i'), stores exactly these input bytes. *)
Lemma decompress_packet s i i' pkt pre post out :
  length s = 72%nat -> is_bytes s -> length out = 72%nat ->
  packet s 72 i i' pkt ->
  decompress_step (pre ++ (ToUint8 <$> pkt) ++ post)
    (mkDState out (Z.of_nat i) (Z.of_nat (length pre)))
  = Next (mkDState (splice out i (take (i' - i) (drop i s))) (Z.of_nat i')
            (Z.of_nat (length pre + length pkt))).
Proof.
  intros Hs Hbytes Hout Hpkt. unfold decompress_step.
  cbn [currentOffset output outputIndex].
  rewrite byteLength_app.
  destruct Hpkt as [k -> Hk Hkn Hall ->|l -> Hl Hln Hnorep Hstop ->].
  - (* repeat packet *)
    cbn [fmap list_fmap length app].
    destruct (Z.leb_spec (Z.of_nat (length pre) + Z.of_nat 2 + Z.of_nat (length post))
                (Z.of_nat (length pre))); [lia|].
    rewrite getInt8_app.
    assert (ToUint8 (- (Z.of_nat k - 1)) = 257 - Z.of_nat k) as ->.
    { unfold ToUint8. symmetry. apply (Z.mod_unique _ _ (-1)); lia. }
    destruct (Z.ltb_spec (257 - Z.of_nat k) 128); [lia|].
    replace (257 - Z.of_nat k - 256) with (1 - Z.of_nat k) by lia.
    destruct (Z.leb_spec 0 (1 - Z.of_nat k)); [lia|].
    destruct (Z.leb_spec (-127) (1 - Z.of_nat k)); [|lia].
    destruct (Z.leb_spec (1 - Z.of_nat k) (-1)); [|lia]. cbn [andb].
    replace (1 - (1 - Z.of_nat k)) with (Z.of_nat k) by lia.
    destruct (Z.ltb_spec 72 (Z.of_nat i + Z.of_nat k)); [lia|].
    destruct (Z.leb_spec (Z.of_nat (length pre) + Z.of_nat 2 + Z.of_nat (length post))
                (Z.of_nat (length pre) + 1)); [lia|].
    pose proof (at_byte s i Hbytes) as Hat.
    rewrite (ToUint8_byte (at_ s i)) by done.
    replace (pre ++ (257 - Z.of_nat k) :: at_ s i :: post)
      with ((pre ++ [257 - Z.of_nat k]) ++ at_ s i :: post)
      by (by rewrite <- (assoc_L (++))).
    replace (Z.of_nat (length pre) + 1)
      with (Z.of_nat (length (pre ++ [257 - Z.of_nat k])))
      by (rewrite length_app; simpl; lia).
    rewrite getUint8_app. rewrite Nat2Z.id.
    rewrite fill_repeat_splice by (done || lia).
    rewrite run_slice by (done || lia).
    rewrite length_app. simpl.
    do 2 f_equal; [do 2 f_equal; lia|lia].
  - (* literal packet *)
    pose proof (literal_bytes_length s i l) as Hll.
    rewrite literal_bytes_slice in * by lia.
    rewrite fmap_app. cbn [fmap list_fmap].
    rewrite (fmap_ToUint8_bytes (take l (drop i s))) by (by apply is_bytes_slice).
    rewrite ToUint8_byte by lia.
    rewrite !length_app. cbn [length]. rewrite Hll.
    destruct (Z.leb_spec (Z.of_nat (length pre) + Z.of_nat (1 + l) + Z.of_nat (length post))
                (Z.of_nat (length pre))); [lia|].
    cbn [app]. rewrite getInt8_app.
    destruct (Z.ltb_spec (Z.of_nat l - 1) 128); [|lia].
    destruct (Z.leb_spec 0 (Z.of_nat l - 1)); [|lia].
    replace (Z.of_nat l - 1 + 1) with (Z.of_nat l) by lia.
    destruct (Z.ltb_spec 72 (Z.of_nat i + Z.of_nat l)); [lia|].
    destruct (Z.ltb_spec (Z.of_nat (length pre) + Z.of_nat (1 + l) + Z.of_nat (length post))
                (Z.of_nat (length pre) + 1 + Z.of_nat l)); [lia|].
    rewrite Nat2Z.id.
    replace (pre ++ (Z.of_nat l - 1) :: take l (drop i s) ++ post)
      with ((pre ++ [Z.of_nat l - 1]) ++ take l (drop i s) ++ post)
      by (by rewrite <- (assoc_L (++))).
    replace (Z.of_nat (length pre) + 1)
      with (Z.of_nat (length (pre ++ [Z.of_nat l - 1])))
      by (rewrite length_app; simpl; lia).
    rewrite <- Hll at 1.
    rewrite copy_literal_app; [|by apply is_bytes_slice|lia].
    rewrite Hll, length_app. simpl.
    do 2 f_equal; [do 2 f_equal; lia|lia].
Qed.

(** Decompressing what the compressor wrote from position [i] on fills the
    rest of the scanline. *)
Lemma decompress_compressed s :
  length s = 72%nat -> is_bytes s ->
  forall fuel i c pre out fuelD,
    compress_loop fuel s 72 i [] = Returns c ->
    (72 - i <= fuel)%nat -> (i <= 72)%nat ->
    length out = 72%nat -> take i out = take i s ->
    (length c <= fuelD)%nat ->
    decompress_loop fuelD (pre ++ (ToUint8 <$> c))
      (mkDState out (Z.of_nat i) (Z.of_nat (length pre)))
    = Returns (mkDState s 72 (Z.of_nat (length pre + length c)), None).
Proof.
  intros Hs Hbytes.
  induction fuel as [|fuel IH]; intros i c pre out fuelD Hc Hfuel Hi Hout Htake HfD.
  - assert (i = 72)%nat as -> by lia.
    cbn [compress_loop] in Hc. destruct (Nat.ltb_spec 72 72); [lia|].
    injection Hc as <-.
    rewrite !take_ge in Htake by lia. subst out.
    destruct fuelD; simpl; by rewrite Nat.add_0_r.
  - destruct (decide (i < 72)%nat) as [Hlt|Hge].
    2:{ assert (i = 72)%nat as -> by lia.
        cbn [compress_loop] in Hc. destruct (Nat.ltb_spec 72 72); [lia|].
        injection Hc as <-.
        rewrite !take_ge in Htake by lia. subst out.
        destruct fuelD; simpl; by rewrite Nat.add_0_r. }
    destruct (compress_iter s 72 i Hlt) as (pkt & i' & Hpkt & Hstep).
    pose proof (packet_advance _ _ _ _ _ Hpkt) as Hadv.
    rewrite Hstep in Hc. cbn [app] in Hc.
    destruct (compress_loop_returns s 72 fuel i' pkt ltac:(lia)) as (c' & Hc' & Happ).
    rewrite Happ in Hc. injection Hc as <-.
    assert (1 <= length pkt)%nat as Hpl.
    { destruct Hpkt; subst pkt; simpl; lia. }
    rewrite length_app in HfD.
    destruct fuelD as [|fuelD]; [lia|].
    cbn [decompress_loop outputIndex].
    destruct (Z.ltb_spec (Z.of_nat i) 72); [|lia].
    rewrite fmap_app.
    rewrite (decompress_packet s i i' pkt pre (ToUint8 <$> c') out Hs Hbytes Hout Hpkt).
    rewrite (assoc_L (++)).
    replace (length pre + length pkt)%nat with (length (pre ++ (ToUint8 <$> pkt)))
      by (by rewrite length_app, length_fmap).
    rewrite (IH i' c'); try done; try lia.
    + rewrite !length_app, length_fmap. do 3 f_equal. lia.
    + rewrite splice_length; [done|]. rewrite length_take, length_drop. lia.
    + unfold splice. rewrite take_app_ge by (rewrite length_take; lia).
      rewrite length_take, Hout. replace (i' - i `min` 72)%nat with (i' - i)%nat by lia.
      rewrite take_app_le by (rewrite length_take, length_drop; lia).
      rewrite take_take, Nat.min_id.
      rewrite Htake. rewrite take_take_drop. f_equal. lia.
Qed.

(** *** Termination of the decompressor *)

Lemma u8set_length out i v : length (u8set out i v) = length out.
Proof. unfold u8set. destruct (0 <=? i); [apply length_insert|done]. Qed.

Lemma copy_literal_next count : forall view st st',
  copy_literal count view st = Next st' ->
  currentOffset st' = currentOffset st + Z.of_nat count
  /\ length (output st') = length (output st).
Proof.
  induction count as [|count IH]; intros view st st' H.
  - simpl in H. injection H as <-. split; [lia|done].
  - cbn [copy_literal] in H.
    destruct (getUint8 view (currentOffset st)); [|discriminate].
    apply IH in H as [H1 H2]. cbn [currentOffset output] in *.
    rewrite u8set_length in H2. split; [lia|done].
Qed.

Lemma copy_literal_stop count : forall view st st' e,
  copy_literal count view st = Stop st' e ->
  e = Exception /\ length (output st') = length (output st).
Proof.
  induction count as [|count IH]; intros view st st' e H.
  - discriminate.
  - cbn [copy_literal] in H.
    destruct (getUint8 view (currentOffset st)).
    + apply IH in H as [H1 H2]. cbn [output] in H2.
      by rewrite u8set_length in H2.
    + by injection H as <- <-.
Qed.

Lemma fill_repeat_frame count : forall b st,
  currentOffset (fill_repeat count b st) = currentOffset st
  /\ length (output (fill_repeat count b st)) = length (output st).
Proof.
  induction count as [|count IH]; intros b st; [done|].
  cbn [fill_repeat]. destruct (IH b (mkDState (u8set (output st) (outputIndex st) b)
                                      (outputIndex st + 1) (currentOffset st))) as [H1 H2].
  cbn [currentOffset output] in *. by rewrite u8set_length in H2.
Qed.

(** Every pass through the loop body that goes round again has read at
    least one byte of the input, and has not read past its end. *)
Lemma decompress_step_next view st st' :
  decompress_step view st = Next st' ->
  0 <= currentOffset st < currentOffset st' /\ currentOffset st' <= byteLength view
  /\ length (output st') = length (output st).
Proof.
  unfold decompress_step, getInt8, getUint8, byteLength.
  destruct (Z.leb_spec (Z.of_nat (length view)) (currentOffset st)); [discriminate|].
  destruct (Z.leb_spec 0 (currentOffset st)); cbn [andb]; [|discriminate].
  destruct (Z.ltb_spec (currentOffset st) (Z.of_nat (length view))); [|lia].
  destruct (view !! Z.to_nat (currentOffset st)) as [b|]; [|discriminate].
  cbn [fmap option_fmap option_map currentOffset outputIndex output].
  set (headerByte := if b <? 128 then b else b - 256).
  destruct (Z.leb_spec 0 headerByte).
  - destruct (72 <? outputIndex st + (headerByte + 1)); [discriminate|].
    destruct (Z.ltb_spec (Z.of_nat (length view)) (currentOffset st + 1 + (headerByte + 1)));
      [discriminate|].
    intros Hc. apply copy_literal_next in Hc as [Hc1 Hc2].
    cbn [currentOffset output] in *. lia.
  - destruct ((-127 <=? headerByte) && (headerByte <=? -1)).
    + destruct (72 <? outputIndex st + (1 - headerByte)); [discriminate|].
      destruct (Z.leb_spec (Z.of_nat (length view)) (currentOffset st + 1)); [discriminate|].
      destruct (_ && _); [|discriminate].
      destruct (view !! _); [|discriminate].
      intros [= <-].
      match goal with |- context [fill_repeat ?c ?b ?s] =>
        destruct (fill_repeat_frame c b s) as [Hf1 Hf2] end.
      rewrite Hf1, Hf2. cbn [currentOffset output]. lia.
    + intros [= <-]. cbn [currentOffset output]. lia.
Qed.

Lemma decompress_step_stop view st st' e :
  decompress_step view st = Stop st' e -> length (output st') = length (output st).
Proof.
  unfold decompress_step.
  repeat (match goal with
          | |- context [if ?c then _ else _] => destruct c
          | |- context [match ?o with Some _ => _ | None => _ end] => destruct o
          end; cbn [currentOffset output outputIndex]);
    try (intros [= <- <-]; done); try discriminate.
  all: intros H; by apply copy_literal_stop in H as [_ H].
Qed.

(** With the input offset inside the buffer, the loop ends before the fuel does. *)
Lemma decompress_loop_total view : forall fuel st,
  0 <= currentOffset st <= byteLength view ->
  byteLength view - currentOffset st < Z.of_nat fuel ->
  exists st' e, decompress_loop fuel view st = Returns (st', e)
    /\ length (output st') = length (output st)
    /\ (e = None -> outputIndex st' = 72
          /\ currentOffset st <= currentOffset st' <= byteLength view).
Proof.
  induction fuel as [|fuel IH]; intros st Hco Hfuel; [lia|].
  cbn [decompress_loop].
  destruct (Z.ltb_spec (outputIndex st) 72).
  - destruct (decompress_step view st) as [st1|st1 e1] eqn:Hstep.
    + apply decompress_step_next in Hstep as (H1 & H2 & H3).
      destruct (IH st1 ltac:(lia) ltac:(lia)) as (st' & e & Hl & Hlen & Hok).
      exists st', e. split; [done|]. split; [congruence|].
      intros He. specialize (Hok He). lia.
    + exists st1, (Some e1). split; [done|]. split; [|done].
      by apply decompress_step_stop in Hstep.
  - destruct (Z.eqb_spec (outputIndex st) 72); cbn [negb].
    + exists st, None. split; [done|]. split; [done|]. intros _. lia.
    + exists st, (Some (NotSeventyTwo (outputIndex st))). done.
Qed.


(** *** The properties of the specification *)

(** C5, as the specification states it, fails: the scanline
    [1 2 2 1 2 2 ...] (72 bytes) is compressed to 96 bytes, more than 73. *)
Lemma compressScanline_exceeds_73 :
  length abb_scanline = 72%nat /\ is_bytes abb_scanline /\
  exists c, compressScanline abb_scanline = Returns c
    /\ length c = 96%nat /\ ~ (length c <= 73)%nat.
Proof.
  split; [reflexivity|]. split.
  { apply Forall_forall. intros b Hb.
    assert (b = 1 \/ b = 2) as [->| ->]; [|lia|lia].
    unfold abb_scanline in Hb. apply list_elem_of_In in Hb. simpl in Hb.
    repeat (destruct Hb as [<-|Hb]; [auto|]). destruct Hb. }
  eexists. split; [vm_compute; reflexivity|]. split; [reflexivity|].
  vm_compute. lia.
Qed.

(** C5, amended: for every 72-byte scanline the compressor returns, and its
    output is at most 96 bytes long. *)
Theorem compressScanline_size (s : list Z) :
  length s = 72%nat ->
  exists c, compressScanline s = Returns c /\ (length c <= 96)%nat.
Proof.
  intros Hs. unfold compressScanline. rewrite Hs. cbn [Nat.eqb negb].
  change (72 =? 72)%nat with true. cbn [negb].
  destruct (compress_loop_size s 72 72 0 ltac:(lia) ltac:(lia)) as (c & Hc & Hsize & _).
  rewrite Hc. cbn [obind]. eexists. split; [reflexivity|].
  rewrite length_fmap. lia.
Qed.

Lemma compressScanline_size_witness :
  length abb_scanline = 72%nat /\
  exists c, compressScanline abb_scanline = Returns c /\ (length c <= 96)%nat.
Proof.
  split; [reflexivity|]. apply (compressScanline_size abb_scanline). reflexivity.
Defined.

(** C6: for every 72-byte scanline [s], the compressor returns some bytes
    [c], and the decompressor run on [c] from offset 0 returns [s] itself,
    having read all of [c], with no error. *)
Theorem packbits_roundtrip (s : list Z) :
  length s = 72%nat -> is_bytes s ->
  exists c, compressScanline s = Returns c
    /\ decompressScanline c 0
       = Returns (mkResult s (Z.of_nat (length c)) None).
Proof.
  intros Hs Hbytes. unfold compressScanline. rewrite Hs.
  change (72 =? 72)%nat with true. cbn [negb].
  destruct (compress_loop_returns s 72 72 0 [] ltac:(lia)) as (c & Hc & _).
  rewrite Hc. cbn [obind]. eexists. split; [reflexivity|].
  unfold decompressScanline.
  pose proof (decompress_compressed s Hs Hbytes 72 0 c [] (replicate 72 0)
                (S (length (ToUint8 <$> c))) Hc) as Hd.
  cbn [app length] in Hd. change (Z.of_nat 0) with 0 in Hd.
  rewrite Hd; try lia.
  - cbn [obind fst snd output currentOffset]. rewrite length_fmap.
    do 2 f_equal. lia.
  - by rewrite length_replicate.
  - done.
  - rewrite length_fmap. lia.
Qed.

Lemma packbits_roundtrip_witness :
  length ramp_scanline = 72%nat /\ is_bytes ramp_scanline /\
  exists c, compressScanline ramp_scanline = Returns c
    /\ decompressScanline c 0
       = Returns (mkResult ramp_scanline (Z.of_nat (length c)) None).
Proof.
  assert (Hb : is_bytes ramp_scanline).
  { apply Forall_forall. intros b Hb. unfold ramp_scanline in Hb.
    apply list_elem_of_fmap in Hb as (k & -> & Hk).
    apply elem_of_seq in Hk. lia. }
  split; [reflexivity|]. split; [exact Hb|].
  apply (packbits_roundtrip ramp_scanline); [reflexivity|exact Hb].
Defined.

(** C10: whatever the input bytes and the starting offset, (1) a pass through
    the loop body that goes round again has moved the input offset forward
    by at least one byte and not past the end of the input; (2) the call
    returns an object (it neither runs forever nor throws), whose [data] is
    a 72-byte array; and (3) when that object carries no error, exactly 72
    output bytes were stored and [bytesRead] is between 0 and the number of
    input bytes that follow the starting offset. *)
Theorem decompressScanline_terminates (view : list Z) (initialOffset : Z) :
  (forall st st', decompress_step view st = Next st' ->
     currentOffset st + 1 <= currentOffset st' <= byteLength view)
  /\ exists st e,
       decompress_loop (S (length view)) view (mkDState (replicate 72 0) 0 initialOffset)
         = Returns (st, e)
       /\ decompressScanline view initialOffset
          = Returns (mkResult (output st) (currentOffset st - initialOffset) e)
       /\ length (output st) = 72%nat
       /\ (e = None ->
            outputIndex st = 72
            /\ 0 <= currentOffset st - initialOffset <= byteLength view - initialOffset).
Proof.
  split.
  { intros st st' H. apply decompress_step_next in H. lia. }
  unfold decompressScanline.
  set (st0 := mkDState (replicate 72 0) 0 initialOffset).
  assert (exists st e,
             decompress_loop (S (length view)) view st0 = Returns (st, e)
             /\ length (output st) = 72%nat
             /\ (e = None -> outputIndex st = 72
                  /\ 0 <= currentOffset st - initialOffset <= byteLength view - initialOffset))
    as (st & e & Hl & Hlen & Hok).
  { cbn [decompress_loop]. change (outputIndex st0 <? 72) with true. cbv iota.
    destruct (decompress_step view st0) as [st1|st1 e1] eqn:Hstep.
    - apply decompress_step_next in Hstep as (H1 & H2 & H3).
      cbn [currentOffset output st0] in H1, H3.
      destruct (decompress_loop_total view (length view) st1) as (st & e & Hl & Hlen & Hok).
      { lia. } { unfold byteLength in *. lia. }
      exists st, e. split; [done|]. split.
      { rewrite Hlen, H3. apply length_replicate. }
      intros He. specialize (Hok He). lia.
    - exists st1, (Some e1). split; [done|]. split; [|done].
      apply decompress_step_stop in Hstep. rewrite Hstep. apply length_replicate. }
  exists st, e. rewrite Hl. cbn [obind fst snd]. done.
Qed.

End PackBitsProofs.

Module MFSProofs.
Import MFSLibUtils MFSVolume.

(** *** Running monadic code *)

Lemma bind_done {S A B} (m : M S A) (k : A -> M S B) s a s' :
  m s = Done a s' -> bind m k s = k a s'.
Proof. intros H. unfold bind. by rewrite H. Qed.

Lemma bind_inv {S A B} (m : M S A) (k : A -> M S B) s b s'' :
  bind m k s = Done b s'' ->
  exists a s', m s = Done a s' /\ k a s' = Done b s''.
Proof. unfold bind. destruct (m s) as [a s'| |]; [eauto|discriminate..]. Qed.

Lemma bind_assoc {S A B C} (m : M S A) (f : A -> M S B) (g : B -> M S C) s :
  bind (bind m f) g s = bind m (fun x => bind (f x) g) s.
Proof. unfold bind. by destruct (m s). Qed.

Lemma bind_ret {S A B} (a : A) (k : A -> M S B) s : bind (ret a) k s = k a s.
Proof. done. Qed.

Lemma bind_get {S B} (k : S -> M S B) s : bind get k s = k s s.
Proof. done. Qed.

Lemma bind_liftO {S A B} (a : A) (k : A -> M S B) s : bind (liftO (Returns a)) k s = k a s.
Proof. done. Qed.

(** *** Bytes of the image *)

Lemma byte_at_store img off v off' :
  byte_at (store img off v) off' = if decide (off = off') then v mod 256 else byte_at img off'.
Proof.
  unfold byte_at, store. simpl. destruct (decide (off = off')) as [->|Hne].
  - by rewrite lookup_insert_eq.
  - by rewrite lookup_insert_ne.
Qed.

Lemma byte_at_store_eq img off v : byte_at (store img off v) off = v mod 256.
Proof. rewrite byte_at_store. by destruct (decide (off = off)). Qed.

Lemma byte_at_store_ne img off v off' :
  off <> off' -> byte_at (store img off v) off' = byte_at img off'.
Proof. intros. rewrite byte_at_store. by destruct (decide (off = off')). Qed.

Lemma byteLength_store img off v : byteLength (store img off v) = byteLength img.
Proof. done. Qed.

Lemma in_buffer_true img off len :
  0 <= off -> off + len <= byteLength img -> in_buffer img off len = true.
Proof. intros. unfold in_buffer. apply andb_true_iff. split; lia. Qed.

Lemma readUint8_ok img off :
  0 <= off < byteLength img -> readUint8 off img = Done (byte_at img off) img.
Proof. intros. unfold readUint8. by rewrite in_buffer_true by lia. Qed.

Lemma writeUint8_ok img off v :
  0 <= off < byteLength img -> writeUint8 off v img = Done tt (store img off v).
Proof. intros. unfold writeUint8. by rewrite in_buffer_true by lia. Qed.

Lemma store_is_buffer img off v : is_buffer img -> is_buffer (store img off v).
Proof.
  intros H off'. rewrite byte_at_store. destruct (decide (off = off')); [|apply H].
  apply Z.mod_pos_bound. lia.
Qed.

(** *** The 12-bit codec, one entry *)

Lemma forallb_seqZ (f : Z -> bool) (n x : Z) :
  forallb f (seqZ 0 n) = true -> 0 <= x < n -> f x = true.
Proof.
  intros Hall Hx. rewrite forallb_forall in Hall. apply Hall.
  apply list_elem_of_In, elem_of_seqZ. lia.
Qed.

Lemma even_write_all :
  forallb (fun value => forallb (even_write_ok value) (seqZ 0 16)) (seqZ 0 4096) = true.
Proof. vm_compute. reflexivity. Qed.

Lemma odd_write_all :
  forallb (fun value => forallb (fun h' => odd_write_ok value (16 * h')) (seqZ 0 16))
    (seqZ 0 4096) = true.
Proof. vm_compute. reflexivity. Qed.

Lemma nibbles_all : forallb nibbles_ok (seqZ 0 256) = true.
Proof. vm_compute. reflexivity. Qed.

(** Turn the conjuncts of a boolean test into hypotheses. *)
Ltac unpack_test H :=
  repeat (apply andb_true_iff in H as [H ?]);
  repeat match goal with
         | H' : (_ =? _) = true |- _ => apply Z.eqb_eq in H'
         | H' : (_ <=? _) = true |- _ => apply Z.leb_le in H'
         | H' : (_ <? _) = true |- _ => apply Z.ltb_lt in H'
         end.

Lemma pack_even value b0 b1 b2 :
  is_abm_value value -> 0 <= b1 < 256 ->
  exists e0 e1,
    packABMEntryToTriplet value b0 b1 b2 true = Returns (e0, e1, b2)
    /\ getABMEntryFromTriplet e0 e1 b2 true = value
    /\ getABMEntryFromTriplet e0 e1 b2 false = getABMEntryFromTriplet b0 b1 b2 false
    /\ Z.land e1 0x0F = Z.land b1 0x0F
    /\ 0 <= e0 < 256 /\ 0 <= e1 < 256.
Proof.
  intros Hv Hb. unfold is_abm_value in Hv.
  pose proof (forallb_seqZ _ _ b1 nibbles_all Hb) as Hn. unpack_test Hn.
  pose proof (forallb_seqZ _ _ value even_write_all ltac:(lia)) as Hok.
  apply (forallb_seqZ _ _ (Z.land b1 0x0F)) in Hok; [|lia]. unpack_test Hok.
  unfold packABMEntryToTriplet.
  destruct (Z.ltb_spec 0xFFF value); [lia|].
  do 2 eexists. split; [reflexivity|].
  cbn [getABMEntryFromTriplet].
  repeat split; try lia; try done. congruence.
Qed.

Lemma pack_odd value b0 b1 b2 :
  is_abm_value value -> 0 <= b1 < 256 ->
  exists o1 o2,
    packABMEntryToTriplet value b0 b1 b2 false = Returns (b0, o1, o2)
    /\ getABMEntryFromTriplet b0 o1 o2 false = value
    /\ getABMEntryFromTriplet b0 o1 o2 true = getABMEntryFromTriplet b0 b1 b2 true
    /\ Z.land o1 0xF0 = Z.land b1 0xF0
    /\ 0 <= o1 < 256 /\ 0 <= o2 < 256.
Proof.
  intros Hv Hb. unfold is_abm_value in Hv.
  assert (Z.land b1 0xF0 = 16 * Z.shiftr b1 4 /\ 0 <= Z.shiftr b1 4 < 16
          /\ Z.shiftr (Z.land b1 0xF0) 4 = Z.shiftr b1 4) as (Hhi & Hh & Hsh).
  { pose proof (forallb_seqZ _ _ b1 nibbles_all Hb) as Hn. unpack_test Hn. lia. }
  pose proof (forallb_seqZ _ _ value odd_write_all ltac:(lia)) as Hok.
  apply (forallb_seqZ _ _ (Z.shiftr b1 4)) in Hok; [|lia].
  cbv beta in Hok. rewrite <- Hhi in Hok.
  unpack_test Hok.
  unfold packABMEntryToTriplet.
  destruct (Z.ltb_spec 0xFFF value); [lia|].
  do 2 eexists. split; [reflexivity|].
  cbn [getABMEntryFromTriplet].
  repeat split; try lia; try done. congruence.
Qed.

Lemma pack_too_large value b0 b1 b2 isEvenIndex :
  0xFFF < value ->
  packABMEntryToTriplet value b0 b1 b2 isEvenIndex
  = Throws "ABM value exceeds 12-bit range".
Proof.
  intros H. unfold packABMEntryToTriplet.
  destruct (Z.ltb_spec 0xFFF value); [done|lia].
Qed.

(** Linear arithmetic with division and remainder by constants. *)
Ltac zlia := Z.to_euclidean_division_equations; lia.

(** Run the [readUint8] or [writeUint8] at the head of the goal, when its
    offset is inside the buffer. *)
Ltac step_read :=
  rewrite ?bind_assoc;
  match goal with
  | |- context [bind (readUint8 ?o) ?k ?s] =>
      rewrite (bind_done (readUint8 o) k s _ _ (readUint8_ok s o ltac:(simpl; lia)))
  end.
Ltac step_write :=
  rewrite ?bind_assoc;
  match goal with
  | |- context [bind (writeUint8 ?o ?v) ?k ?s] =>
      rewrite (bind_done (writeUint8 o v) k s _ _ (writeUint8_ok s o v ltac:(simpl; lia)))
  end.

(** *** The 12-bit codec, the whole map *)

Lemma parse_abm_lookup off img : forall count i abm,
  0 <= off -> 0 <= i ->
  (0 < Z.of_nat count -> off + (i + Z.of_nat count - 1) / 2 * 3 + 3 <= byteLength img) ->
  exists abm', parse_abm count off i abm img = Done abm' img
    /\ forall k, abm' !! k
         = if bool_decide (i <= k < i + Z.of_nat count)
           then Some (entry_at img off k) else abm !! k.
Proof.
  induction count as [|count IH]; intros i abm Hoff Hi Hlen.
  - exists abm. split; [done|]. intros k.
    rewrite bool_decide_eq_false_2 by lia. done.
  - cbn [parse_abm].
    assert (0 <= i / 2 <= (i + Z.of_nat (S count) - 1) / 2) as Hdiv.
    { split; [apply Z.div_pos; lia|apply Z.div_le_mono; lia]. }
    specialize (Hlen ltac:(lia)).
    do 3 step_read.
    destruct (IH (i + 1)
                (<[i := getABMEntryFromTriplet (byte_at img (off + i / 2 * 3))
                          (byte_at img (off + i / 2 * 3 + 1))
                          (byte_at img (off + i / 2 * 3 + 2)) (Z.rem i 2 =? 0)]> abm)
                Hoff ltac:(lia)) as (abm' & Heq & Hlook).
    { intros _. replace (i + 1 + Z.of_nat count - 1) with (i + Z.of_nat (S count) - 1) by lia.
      done. }
    exists abm'. split; [done|]. intros k. rewrite Hlook.
    destruct (decide (k = i)) as [->|Hne].
    + rewrite bool_decide_eq_false_2 by lia.
      rewrite bool_decide_eq_true_2 by lia.
      by rewrite lookup_insert_eq.
    + rewrite lookup_insert_ne by done.
      destruct (decide (i + 1 <= k < i + 1 + Z.of_nat count)).
      * rewrite !bool_decide_eq_true_2 by lia. done.
      * rewrite !bool_decide_eq_false_2 by lia. done.
Qed.

Lemma entry_at_frame img img' off k :
  (forall o, off + k / 2 * 3 <= o < off + k / 2 * 3 + 3 -> byte_at img' o = byte_at img o) ->
  entry_at img' off k = entry_at img off k.
Proof. intros H. unfold entry_at. rewrite !H by lia. done. Qed.

Lemma write_abm_spec off n abm :
  (forall k, 0 <= k < n -> is_abm_value (default 0 (abm !! k))) -> 0 <= off ->
  forall count i img,
    is_buffer img -> 0 <= i -> Z.rem i 2 = 0 -> i <= n + 1 ->
    Z.of_nat count = (n - i + 1) / 2 ->
    off + (n + 1) / 2 * 3 <= byteLength img ->
    exists img', write_abm count n off i abm img = Done tt img'
      /\ byteLength img' = byteLength img /\ is_buffer img'
      /\ (forall o, o < off + i / 2 * 3 \/ off + (n + 1) / 2 * 3 <= o ->
            byte_at img' o = byte_at img o)
      /\ (forall k, i <= k < n -> entry_at img' off k = default 0 (abm !! k)).
Proof.
  intros Hvals Hoff.
  induction count as [|count IH]; intros i img Hbuf Hi Heven Hin Hcount Hroom.
  - exists img. split; [done|]. split; [done|]. split; [done|]. split; [done|].
    intros k Hk. zlia.
  - cbn [write_abm].
    assert (i + 1 <= n) as Hi1 by zlia.
    assert (0 <= i / 2 /\ i / 2 + 1 <= (n + 1) / 2) as Hdiv by zlia.
    set (base := off + i / 2 * 3) in *.
    rewrite bind_get.
    destruct (Z.ltb_spec (base + 2) (byteLength img)) as [Hlt|Hge]; [|lia].
    do 3 step_read. rewrite bind_ret. cbn [fst snd].
    destruct (pack_even (default 0 (abm !! i)) (byte_at img base) (byte_at img (base + 1))
                (byte_at img (base + 2)))
      as (e0 & e1 & Hpe & Hge1 & Hge2 & Hnib & He0 & He1);
      [apply Hvals; lia|apply Hbuf|].
    rewrite Hpe, bind_liftO. cbn [fst snd].
    assert (exists p1 p2,
               (if i + 1 <? n
                then liftO (packABMEntryToTriplet (default 0 (abm !! (i + 1))) e0 e1
                              (byte_at img (base + 2)) false)
                else ret (e0, e1, byte_at img (base + 2))) img
               = Done (e0, p1, p2) img
               /\ getABMEntryFromTriplet e0 p1 p2 true = default 0 (abm !! i)
               /\ (i + 1 < n ->
                    getABMEntryFromTriplet e0 p1 p2 false = default 0 (abm !! (i + 1)))
               /\ 0 <= p1 < 256 /\ 0 <= p2 < 256) as (p1 & p2 & Hp & Hq1 & Hq2 & Hp1 & Hp2).
    { destruct (Z.ltb_spec (i + 1) n) as [Hodd|Hlast].
      - destruct (pack_odd (default 0 (abm !! (i + 1))) e0 e1 (byte_at img (base + 2)))
          as (o1 & o2 & Hpo & Hgo1 & Hgo2 & _ & Ho1 & Ho2); [apply Hvals; lia|done|].
        exists o1, o2. rewrite Hpo. split; [done|]. split; [congruence|].
        split; [done|]. done.
      - exists e1, (byte_at img (base + 2)). split; [done|]. split; [done|].
        split; [lia|]. split; [done|apply Hbuf]. }
    rewrite (bind_done _ _ _ _ _ Hp). cbn [fst snd].
    do 3 step_write.
    set (img1 := store (store (store img base e0) (base + 1) p1) (base + 2) p2).
    destruct (IH (i + 2) img1) as (img' & Hw & Hlen & Hbuf' & Hframe & Hentries);
      [by do 3 apply store_is_buffer|zlia|zlia|zlia|zlia|exact Hroom|].
    exists img'. split; [done|]. split; [by rewrite Hlen|]. split; [done|]. split.
    + intros o Ho. rewrite Hframe by zlia. unfold img1.
      rewrite !byte_at_store_ne by (unfold base; lia). done.
    + intros k Hk.
      assert (entry_at img1 off i = default 0 (abm !! i)
              /\ (i + 1 < n -> entry_at img1 off (i + 1) = default 0 (abm !! (i + 1))))
        as [Hat0 Hat1].
      { unfold entry_at.
        replace ((i + 1) / 2) with (i / 2) by zlia.
        replace (Z.rem i 2 =? 0) with true by (symmetry; apply Z.eqb_eq; zlia).
        replace (Z.rem (i + 1) 2 =? 0) with false by (symmetry; apply Z.eqb_neq; zlia).
        fold base. unfold img1.
        rewrite (byte_at_store_ne _ _ _ base) by lia.
        rewrite (byte_at_store_ne _ _ _ base) by lia.
        rewrite (byte_at_store_eq _ base).
        rewrite (byte_at_store_ne _ _ _ (base + 1)) by lia.
        rewrite (byte_at_store_eq _ (base + 1)).
        rewrite (byte_at_store_eq _ (base + 2)).
        rewrite !Z.mod_small by lia. done. }
      destruct (decide (k = i)) as [->|];
        [|destruct (decide (k = i + 1)) as [->|]].
      * rewrite <- Hat0. apply entry_at_frame. intros o Ho. apply Hframe. zlia.
      * rewrite <- Hat1 by lia. apply entry_at_frame. intros o Ho. apply Hframe. zlia.
      * apply Hentries. lia.
Qed.

Lemma blank_is_buffer len : is_buffer (blank_image len).
Proof. intros off. unfold byte_at, blank_image. simpl. rewrite lookup_empty. simpl. lia. Qed.

(** C7: (1) a sequence of 12-bit values, written two per 3-byte triplet by
    the loop of [_writeMDB] and read by the loop of [_parseMDB], comes back
    unchanged; (2) a single-entry write returns a triplet from which the
    entry reads back, keeps the other nibble of the shared byte [b1] and so
    the other entry of the triplet; (3) a value above 0xFFF makes the write
    throw. *)
Theorem twelve_bit_codec (vals : list Z) (img : Image) (abmDiskOffset : Z) :
  let n := Z.of_nat (length vals) in
  Forall is_abm_value vals -> is_buffer img -> 0 <= abmDiskOffset ->
  abmDiskOffset + (n + 1) / 2 * 3 <= byteLength img ->
  (exists img',
      write_abm (passes_by_two n) n abmDiskOffset 0 (abm_of_list vals) img = Done tt img'
      /\ parse_abm (Z.to_nat n) abmDiskOffset 0 ∅ img' = Done (abm_of_list vals) img')
  /\ (forall value b0 b1 b2, is_abm_value value -> 0 <= b1 < 256 ->
        (exists e0 e1,
            packABMEntryToTriplet value b0 b1 b2 true = Returns (e0, e1, b2)
            /\ getABMEntryFromTriplet e0 e1 b2 true = value
            /\ Z.land e1 0x0F = Z.land b1 0x0F
            /\ getABMEntryFromTriplet e0 e1 b2 false = getABMEntryFromTriplet b0 b1 b2 false)
        /\ (exists o1 o2,
            packABMEntryToTriplet value b0 b1 b2 false = Returns (b0, o1, o2)
            /\ getABMEntryFromTriplet b0 o1 o2 false = value
            /\ Z.land o1 0xF0 = Z.land b1 0xF0
            /\ getABMEntryFromTriplet b0 o1 o2 true = getABMEntryFromTriplet b0 b1 b2 true))
  /\ (forall value b0 b1 b2 isEvenIndex, 0xFFF < value ->
        packABMEntryToTriplet value b0 b1 b2 isEvenIndex
        = Throws "ABM value exceeds 12-bit range").
Proof.
  intros n Hvals Hbuf Hoff Hroom. split; [|split].
  - assert (Hlook : forall k, 0 <= k < n ->
               exists x, abm_of_list vals !! k = Some x /\ is_abm_value x).
    { intros k Hk. unfold abm_of_list. rewrite lookup_map_seqZ_0 by lia.
      destruct (vals !! Z.to_nat k) as [x|] eqn:E.
      - exists x. split; [done|]. eapply Forall_lookup_1; eauto.
      - apply lookup_ge_None in E. lia. }
    destruct (write_abm_spec abmDiskOffset n (abm_of_list vals)) with
      (count := passes_by_two n) (i := 0) (img := img)
      as (img' & Hw & Hlen & Hbuf' & _ & Hentries); try done; try lia.
    { intros k Hk. destruct (Hlook k Hk) as (x & -> & Hx). done. }
    { unfold passes_by_two. zlia. }
    exists img'. split; [done|].
    destruct (parse_abm_lookup abmDiskOffset img' (Z.to_nat n) 0 ∅) as (abm' & Hp & Hl);
      try done.
    { intros _. zlia. }
    rewrite Hp. f_equal. apply map_eq. intros k. rewrite Hl.
    destruct (decide (0 <= k < n)) as [Hk|Hk].
    + rewrite bool_decide_eq_true_2 by lia. rewrite Hentries by lia.
      destruct (Hlook k Hk) as (x & -> & _). done.
    + rewrite bool_decide_eq_false_2 by lia. rewrite lookup_empty. symmetry.
      unfold abm_of_list. apply lookup_map_seqZ_None. lia.
  - intros value b0 b1 b2 Hv Hb. split.
    + destruct (pack_even value b0 b1 b2 Hv Hb) as (e0 & e1 & H1 & H2 & H3 & H4 & _).
      exists e0, e1. done.
    + destruct (pack_odd value b0 b1 b2 Hv Hb) as (o1 & o2 & H1 & H2 & H3 & H4 & _).
      exists o1, o2. done.
  - intros. by apply pack_too_large.
Qed.

Lemma twelve_bit_codec_witness :
  exists img',
    write_abm (passes_by_two 3) 3 64 0 (abm_of_list [0x123; 0xFFF; 0x001]) (blank_image 1024)
      = Done tt img'
    /\ parse_abm 3 64 0 ∅ img' = Done (abm_of_list [0x123; 0xFFF; 0x001]) img'.
Proof.
  apply (twelve_bit_codec [0x123; 0xFFF; 0x001] (blank_image 1024) 64).
  - repeat constructor; unfold is_abm_value; lia.
  - apply blank_is_buffer.
  - lia.
  - vm_compute. discriminate.
Defined.

(** *** Computations that only read the image *)

Lemma reads_only_ret {A} (a : A) : reads_only (ret a).
Proof. intros img. done. Qed.

Lemma reads_only_bind {A B} (m : M Image A) (k : A -> M Image B) :
  reads_only m -> (forall a, reads_only (k a)) -> reads_only (bind m k).
Proof.
  intros Hm Hk img. unfold bind. specialize (Hm img).
  destruct (m img) as [a img'| |]; subst; [apply Hk|done..].
Qed.

Lemma reads_only_readUint8 off : reads_only (readUint8 off).
Proof. intros img. unfold readUint8. by destruct (in_buffer img off 1). Qed.



Lemma reads_only_read_chars count : forall from, reads_only (read_chars count from).
Proof.
  induction count as [|count IH]; intros from; cbn [read_chars].
  - apply reads_only_ret.
  - apply reads_only_bind; [apply reads_only_readUint8|intros ch].
    apply reads_only_bind; [apply IH|intros rest]. apply reads_only_ret.
Qed.

Lemma reads_only_readPascalString off maxLength : reads_only (readPascalString off maxLength).
Proof.
  unfold readPascalString.
  apply reads_only_bind; [apply reads_only_readUint8|intros len].
  apply reads_only_read_chars.
Qed.



Lemma reads_only_Done {A} (m : M Image A) img a img' :
  reads_only m -> m img = Done a img' -> img' = img.
Proof. intros H E. specialize (H img). by rewrite E in H. Qed.

Lemma readUint8_inv off img b img' :
  readUint8 off img = Done b img' ->
  img' = img /\ b = byte_at img off /\ 0 <= off < byteLength img.
Proof.
  unfold readUint8, in_buffer. destruct (Z.leb_spec 0 off); [|done].
  destruct (Z.leb_spec (off + 1) (byteLength img)); [|done].
  intros [= <- <-]. repeat split; lia.
Qed.

Lemma writeUint8_inv off v img r img' :
  writeUint8 off v img = Done r img' ->
  img' = store img off v /\ 0 <= off < byteLength img.
Proof.
  unfold writeUint8, in_buffer. destruct (Z.leb_spec 0 off); [|done].
  destruct (Z.leb_spec (off + 1) (byteLength img)); [|done].
  intros [= <-]. split; [done|lia].
Qed.

Lemma readUint16BE_inv off img x img' :
  readUint16BE off img = Done x img' -> img' = img /\ x = u16_at img off.
Proof. unfold readUint16BE. destruct (in_buffer img off 2); [|done]. by intros [= <- <-]. Qed.

Lemma readUint32BE_inv off img x img' :
  readUint32BE off img = Done x img' -> img' = img /\ x = u32_at img off.
Proof. unfold readUint32BE. destruct (in_buffer img off 4); [|done]. by intros [= <- <-]. Qed.






(** *** The directory scan *)







(** *** Formatting *)

(** C8: [new MFSVolume({create: true, sizeKB: 400, volumeName: "MyDisk"})],
    at whatever time it is called, returns a volume on which [listFiles()]
    is empty, the signature is 0xD2D7, there are 392 allocation blocks, all
    free, the directory starts at sector 4 and is 12 sectors long, the
    allocation blocks start at sector 16 and are 1024 bytes each, and the
    volume name is "MyDisk". *)
Theorem format_400K_MyDisk (now : Date) :
  exists v,
    new_MFSVolume (Create (Some 400) (Some (js "MyDisk"))) now = Returns v
    /\ listFiles v = []
    /\ VolumeInfo.signature (volumeInfo v) = 0xD2D7
    /\ VolumeInfo.numAllocBlocks (volumeInfo v) = 392
    /\ VolumeInfo.freeAllocBlocks (volumeInfo v) = 392
    /\ VolumeInfo.dirStartBlock (volumeInfo v) = 4
    /\ VolumeInfo.dirLengthBlocks (volumeInfo v) = 12
    /\ VolumeInfo.allocBlockStartSector (volumeInfo v) = 16
    /\ VolumeInfo.allocBlockSize (volumeInfo v) = 1024
    /\ VolumeInfo.volumeName (volumeInfo v) = js "MyDisk"
    /\ byteLength (getDiskImage v) = 400 * 1024.
Proof.
  assert (match new_MFSVolume (Create (Some 400) (Some (js "MyDisk"))) now with
          | Returns v =>
              listFiles v = []
              /\ VolumeInfo.signature (volumeInfo v) = 0xD2D7
              /\ VolumeInfo.numAllocBlocks (volumeInfo v) = 392
              /\ VolumeInfo.freeAllocBlocks (volumeInfo v) = 392
              /\ VolumeInfo.dirStartBlock (volumeInfo v) = 4
              /\ VolumeInfo.dirLengthBlocks (volumeInfo v) = 12
              /\ VolumeInfo.allocBlockStartSector (volumeInfo v) = 16
              /\ VolumeInfo.allocBlockSize (volumeInfo v) = 1024
              /\ VolumeInfo.volumeName (volumeInfo v) = js "MyDisk"
              /\ byteLength (getDiskImage v) = 400 * 1024
          | _ => False
          end) as H.
  { vm_compute. repeat split. }
  destruct (new_MFSVolume _ now) as [v| |]; [|done..].
  exists v. split; [reflexivity|exact H].
Qed.

(** ** The volume in memory and on disk *)

(** *** The allocation block map in memory *)

Lemma seqZ_succ (i : Z) (left : nat) :
  seqZ i (Z.of_nat (S left)) = i :: seqZ (i + 1) (Z.of_nat left).
Proof.
  rewrite seqZ_cons by lia. f_equal. f_equal; lia.
Qed.

Lemma scan_free_spec left abm count i acc :
  scan_free left abm count i acc
  = acc ++ ((fun j => j + 2)
              <$> take (Z.to_nat (count - Z.of_nat (length acc)))
                    (filter (fun j => abm !! j = Some 0) (seqZ i (Z.of_nat left)))).
Proof.
  revert i acc. induction left as [|left IH]; intros i acc.
  - cbn [scan_free]. change (seqZ i (Z.of_nat 0)) with (@nil Z). rewrite filter_nil, take_nil. cbn. by rewrite app_nil_r.
  - rewrite seqZ_succ. cbn [scan_free].
    destruct (Z.ltb_spec (Z.of_nat (length acc)) count) as [Hlt|Hge].
    + rewrite IH. rewrite filter_cons.
      destruct (decide (abm !! i = Some 0)) as [Hi|Hi].
      * rewrite bool_decide_eq_true_2 by done.
        rewrite length_app. cbn [length].
        replace (Z.to_nat (count - Z.of_nat (length acc)))
          with (S (Z.to_nat (count - Z.of_nat (length acc + 1)%nat))) by lia.
        cbn [take fmap list_fmap]. by rewrite <- app_assoc.
      * rewrite bool_decide_eq_false_2 by done. done.
    + replace (Z.to_nat (count - Z.of_nat (length acc))) with O by lia.
      cbn. by rewrite app_nil_r.
Qed.

Lemma count_free_filter left abm i :
  Z.of_nat (length (filter (fun j => abm !! j = Some 0) (seqZ i (Z.of_nat left))))
  = count_free left abm i.
Proof.
  revert i. induction left as [|left IH]; intros i; [done|].
  rewrite seqZ_succ, filter_cons. cbn [count_free]. rewrite <- IH.
  destruct (decide (abm !! i = Some 0)).
  - rewrite bool_decide_eq_true_2 by done. cbn [length]. lia.
  - rewrite bool_decide_eq_false_2 by done. lia.
Qed.

Lemma seqZ_to_nat (n : Z) : seqZ 0 (Z.of_nat (Z.to_nat n)) = seqZ 0 n.
Proof. unfold seqZ. by rewrite Nat2Z.id. Qed.

Lemma count_free_nonneg left abm i : 0 <= count_free left abm i.
Proof.
  revert i. induction left as [|left IH]; intros i; cbn [count_free]; [lia|].
  specialize (IH (i + 1)). case_bool_decide; lia.
Qed.

Lemma free_blocks_length abm n count :
  0 <= count ->
  Z.of_nat (length (free_blocks abm n count)) = Z.min count (free_count abm n).
Proof.
  intros Hc. unfold free_blocks, free_count.
  rewrite length_fmap, length_take, <- count_free_filter, seqZ_to_nat. lia.
Qed.

Lemma free_blocks_spec abm n count b :
  b ∈ free_blocks abm n count -> 2 <= b < n + 2 /\ abm !! (b - 2) = Some 0.
Proof.
  unfold free_blocks. intros (j & -> & Hj)%list_elem_of_fmap.
  apply elem_of_take in Hj as (k & Hj & _).
  apply list_elem_of_lookup_2 in Hj.
  apply list_elem_of_filter in Hj as [Hfree Hj].
  apply elem_of_seqZ in Hj. replace (j + 2 - 2) with j by lia. split; [lia|done].
Qed.

Lemma free_blocks_NoDup abm n count : NoDup (free_blocks abm n count).
Proof.
  unfold free_blocks. apply NoDup_fmap_2; [intros x y; lia|].
  eapply sublist_NoDup; [|apply sublist_take].
  apply NoDup_filter, NoDup_seqZ.
Qed.

Lemma findFreeBlocks_spec count v :
  0 <= count ->
  _findFreeBlocks count v
  = if free_count (abm v) (VolumeInfo.numAllocBlocks (volumeInfo v)) <? count
    then Thrown "Not enough free blocks." v
    else Done (free_blocks (abm v) (VolumeInfo.numAllocBlocks (volumeInfo v)) count) v.
Proof.
  intros Hc. unfold _findFreeBlocks. rewrite scan_free_spec. cbn [app length].
  rewrite seqZ_to_nat, Z.sub_0_r. fold (free_blocks (abm v) (VolumeInfo.numAllocBlocks (volumeInfo v)) count).
  pose proof (free_blocks_length (abm v) (VolumeInfo.numAllocBlocks (volumeInfo v)) count Hc).
  destruct (Z.ltb_spec (free_count (abm v) (VolumeInfo.numAllocBlocks (volumeInfo v))) count);
    destruct (Z.ltb_spec (Z.of_nat (length (free_blocks (abm v) (VolumeInfo.numAllocBlocks (volumeInfo v)) count))) count);
    try done; lia.
Qed.

(** Changing one entry of the map changes the count of free blocks by one,
    or not at all. *)
Lemma count_free_insert left abm i k x :
  count_free left (<[k := x]> abm) i
  = count_free left abm i
    + (if bool_decide (i <= k < i + Z.of_nat left)
       then (if bool_decide (x = 0) then 1 else 0)
            - (if bool_decide (abm !! k = Some 0) then 1 else 0)
       else 0).
Proof.
  revert i. induction left as [|left IH]; intros i.
  - cbn [count_free]. rewrite bool_decide_eq_false_2 by lia. lia.
  - cbn [count_free]. rewrite IH. destruct (decide (i = k)) as [->|Hne].
    + rewrite lookup_insert_eq. rewrite (bool_decide_eq_false_2 (k + 1 <= k < _)) by lia.
      rewrite (bool_decide_eq_true_2 (k <= k < _)) by lia.
      repeat case_bool_decide; try lia; congruence.
    + rewrite lookup_insert_ne by done.
      destruct (decide (i <= k < i + Z.of_nat (S left))).
      * rewrite !(bool_decide_eq_true_2 (_ <= k < _)) by lia. lia.
      * rewrite !(bool_decide_eq_false_2 (_ <= k < _)) by lia. lia.
Qed.

Lemma free_count_insert abm n k x :
  0 <= k < n ->
  free_count (<[k := x]> abm) n
  = free_count abm n + (if bool_decide (x = 0) then 1 else 0)
    - (if bool_decide (abm !! k = Some 0) then 1 else 0).
Proof.
  intros Hk. unfold free_count. rewrite count_free_insert.
  rewrite bool_decide_eq_true_2 by lia. lia.
Qed.

Lemma link_lookup_other abm blocks k :
  k + 2 ∉ blocks -> link abm blocks !! k = abm !! k.
Proof.
  revert abm. induction blocks as [|b rest IH]; intros abm Hk; [done|].
  apply not_elem_of_cons in Hk as [Hb Hrest]. cbn [link].
  rewrite IH by done. apply lookup_insert_ne. lia.
Qed.

Lemma clear_lookup_other abm blocks k :
  k + 2 ∉ blocks -> clear abm blocks !! k = abm !! k.
Proof.
  revert abm. induction blocks as [|b rest IH]; intros abm Hk; [done|].
  apply not_elem_of_cons in Hk as [Hb Hrest]. cbn [clear].
  rewrite IH by done. apply lookup_insert_ne. lia.
Qed.

Lemma clear_lookup_in abm blocks b :
  b ∈ blocks -> clear abm blocks !! (b - 2) = Some 0.
Proof.
  revert abm. induction blocks as [|b' rest IH]; intros abm Hb; [by apply elem_of_nil in Hb|].
  cbn [clear]. destruct (decide (b ∈ rest)) as [Hin|Hout]; [by apply IH|].
  apply elem_of_cons in Hb as [->|]; [|done].
  rewrite clear_lookup_other by (by replace (b' - 2 + 2) with b' by lia).
  apply lookup_insert_eq.
Qed.

Lemma link_values abm blocks k x :
  (forall y, abm !! k = Some y -> is_abm_value y) ->
  (forall b, b ∈ blocks -> is_abm_value b) ->
  link abm blocks !! k = Some x -> is_abm_value x.
Proof.
  revert abm. induction blocks as [|b rest IH]; intros abm Habm Hbs; [apply Habm|].
  cbn [link]. apply IH.
  - intros y. destruct (decide (b - 2 = k)) as [<-|Hne].
    + rewrite lookup_insert_eq. intros [= <-]. destruct rest as [|next ?].
      * unfold is_abm_value. lia.
      * apply Hbs. set_solver.
    + rewrite lookup_insert_ne by done. apply Habm.
  - intros b' Hb'. apply Hbs. set_solver.
Qed.

Lemma clear_values abm blocks k x :
  (forall y, abm !! k = Some y -> is_abm_value y) ->
  clear abm blocks !! k = Some x -> is_abm_value x.
Proof.
  revert abm. induction blocks as [|b rest IH]; intros abm Habm; [apply Habm|].
  cbn [clear]. apply IH. intros y. destruct (decide (b - 2 = k)) as [<-|Hne].
  - rewrite lookup_insert_eq. intros [= <-]. unfold is_abm_value. lia.
  - rewrite lookup_insert_ne by done. apply Habm.
Qed.

(** *** Chains *)

Lemma chain_ext abm abm' n start blocks :
  chain abm n start blocks ->
  (forall b, b ∈ blocks -> abm' !! (b - 2) = abm !! (b - 2)) ->
  chain abm' n start blocks.
Proof.
  induction 1 as [b Hb Hlast|b next rest Hb Hnext Hn Hrest IH]; intros Hsame.
  - apply chain_last; [done|]. rewrite Hsame; [done|set_solver].
  - apply chain_link with next; [done| |done|].
    + rewrite Hsame; [done|set_solver].
    + apply IH. intros b' Hb'. apply Hsame. set_solver.
Qed.

Lemma chain_head abm n start blocks :
  chain abm n start blocks -> exists rest, blocks = start :: rest.
Proof. destruct 1; eauto. Qed.

Lemma chain_elem abm n start blocks b :
  chain abm n start blocks -> b ∈ blocks ->
  2 <= b < n + 2 /\ exists x, abm !! (b - 2) = Some x /\ x <> 0.
Proof.
  induction 1 as [b0 Hb Hlast|b0 next rest Hb Hnext Hn Hrest IH]; intros Hin.
  - apply list_elem_of_singleton in Hin as ->. split; [done|]. exists 1. by split.
  - apply elem_of_cons in Hin as [->|Hin]; [|by apply IH].
    split; [done|]. exists next. split; [done|lia].
Qed.

Lemma link_chain abm n b rest :
  NoDup (b :: rest) -> (forall x, x ∈ b :: rest -> 2 <= x < n + 2) ->
  chain (link abm (b :: rest)) n b (b :: rest).
Proof.
  revert abm b. induction rest as [|next rest IH]; intros abm b Hnd Hrange.
  - cbn [link]. apply chain_last; [apply Hrange; set_solver|]. apply lookup_insert_eq.
  - apply NoDup_cons in Hnd as [Hb Hnd]. cbn [link]. apply chain_link with next.
    + apply Hrange. set_solver.
    + change (link (<[b - 2 := next]> abm) (next :: rest) !! (b - 2) = Some next).
      rewrite link_lookup_other by (by replace (b - 2 + 2) with b by lia).
      apply lookup_insert_eq.
    + apply Hrange. set_solver.
    + apply (IH (<[b - 2 := next]> abm) next); [done|].
      intros x Hx. apply Hrange. set_solver.
Qed.

Lemma free_count_link abm n blocks :
  NoDup blocks ->
  (forall b, b ∈ blocks -> 2 <= b < n + 2 /\ abm !! (b - 2) = Some 0) ->
  free_count (link abm blocks) n = free_count abm n - Z.of_nat (length blocks).
Proof.
  revert abm. induction blocks as [|b rest IH]; intros abm Hnd Hfree.
  - cbn. lia.
  - apply NoDup_cons in Hnd as [Hb Hnd]. cbn [link length].
    destruct (Hfree b) as [Hrange Hzero]; [set_solver|].
    rewrite IH; [|done|].
    + rewrite free_count_insert by lia. rewrite (bool_decide_eq_true_2 _ Hzero).
      rewrite bool_decide_eq_false_2; [lia|].
      destruct rest as [|next ?]; [done|].
      destruct (Hfree next); [set_solver|lia].
    + intros b' Hb'. destruct (Hfree b') as [? ?]; [set_solver|]. split; [done|].
      rewrite lookup_insert_ne; [done|]. intros Heq.
      assert (b' = b) as -> by lia. done.
Qed.

Lemma free_count_clear abm n blocks :
  NoDup blocks ->
  (forall b, b ∈ blocks -> 2 <= b < n + 2 /\ abm !! (b - 2) <> Some 0) ->
  free_count (clear abm blocks) n = free_count abm n + Z.of_nat (length blocks).
Proof.
  revert abm. induction blocks as [|b rest IH]; intros abm Hnd Hused.
  - cbn. lia.
  - apply NoDup_cons in Hnd as [Hb Hnd]. cbn [clear length].
    destruct (Hused b) as [Hrange Hnz]; [set_solver|].
    rewrite IH; [|done|].
    + rewrite free_count_insert by lia. rewrite (bool_decide_eq_false_2 _ Hnz).
      rewrite bool_decide_eq_true_2 by done. lia.
    + intros b' Hb'. destruct (Hused b') as [? ?]; [set_solver|]. split; [done|].
      rewrite lookup_insert_ne; [done|]. intros Heq.
      assert (b' = b) as -> by lia. done.
Qed.

Lemma realloc_id v : realloc (abm v) (VolumeInfo.freeAllocBlocks (volumeInfo v)) v = v.
Proof. by destruct v as [? [] ? ?]. Qed.

Lemma realloc_realloc a1 f1 a2 f2 v : realloc a2 f2 (realloc a1 f1 v) = realloc a2 f2 v.
Proof. done. Qed.

Lemma link_blocks_inv blocks v r v' :
  link_blocks blocks v = Done r v' -> v' = set_abm (link (abm v) blocks) v.
Proof.
  revert v. induction blocks as [|b rest IH]; intros v H.
  - injection H as _ <-. by destruct v.
  - cbn [link_blocks] in H. apply bind_inv in H as (? & v1 & H1 & H2).
    apply IH in H2 as ->. cbn [link].
    assert (v1 = set_abm (<[b - 2 := match rest with next :: _ => next | [] => 1 end]> (abm v)) v)
      as ->; [|done].
    unfold _setABMEntry in H1. destruct rest; repeat case_match; congruence.
Qed.

Lemma link_blocks_ok blocks v :
  (forall b, b ∈ blocks ->
     2 <= b < VolumeInfo.numAllocBlocks (volumeInfo v) + 2 /\ b <= 0xFFF) ->
  link_blocks blocks v = Done tt (set_abm (link (abm v) blocks) v).
Proof.
  revert v. induction blocks as [|b rest IH]; intros v Hb.
  - by destruct v.
  - cbn [link_blocks link].
    assert (forall x, x <= 0xFFF ->
              _setABMEntry b x v = Done tt (set_abm (<[b - 2 := x]> (abm v)) v)) as Hset.
    { intros x Hx. unfold _setABMEntry. destruct (Hb b) as [? ?]; [set_solver|].
      rewrite orb_false_intro by lia. by destruct (Z.ltb_spec 0xFFF x); [lia|]. }
    assert (match rest with next :: _ => next | [] => 1 end <= 0xFFF) as Hx.
    { destruct rest as [|next ?]; [lia|]. destruct (Hb next); [set_solver|lia]. }
    apply Hset in Hx.
    transitivity (link_blocks rest
      (set_abm (<[b - 2 := match rest with next :: _ => next | [] => 1 end]> (abm v)) v)).
    { destruct rest; by rewrite (bind_done _ _ _ _ _ Hx). }
    rewrite IH; [done|]. intros b' Hb'. apply Hb. set_solver.
Qed.

(** *** _allocateBlockChain *)

Lemma allocateBlockChain_inv numBlocks v r v' :
  0 < numBlocks ->
  _allocateBlockChain numBlocks v = Done r v' ->
  let blocks := free_blocks (abm v) (VolumeInfo.numAllocBlocks (volumeInfo v)) numBlocks in
  numBlocks <= VolumeInfo.freeAllocBlocks (volumeInfo v)
  /\ Z.of_nat (length blocks) = numBlocks
  /\ r = (default 0 (head blocks), blocks)
  /\ v' = realloc (link (abm v) blocks)
            (VolumeInfo.freeAllocBlocks (volumeInfo v) - numBlocks) v.
Proof.
  intros Hpos H blocks. unfold _allocateBlockChain in H.
  destruct (Z.eqb_spec numBlocks 0); [lia|].
  cbv beta iota delta [bind the_volumeInfo] in H.
  destruct (Z.ltb_spec (VolumeInfo.freeAllocBlocks (volumeInfo v)) numBlocks); [done|].
  rewrite findFreeBlocks_spec in H by lia. fold blocks in H.
  pose proof (free_blocks_length (abm v) (VolumeInfo.numAllocBlocks (volumeInfo v))
                numBlocks ltac:(lia)) as Hlen. fold blocks in Hlen.
  destruct (Z.ltb_spec (free_count (abm v) (VolumeInfo.numAllocBlocks (volumeInfo v)))
              numBlocks); [done|].
  destruct (link_blocks blocks v) as [[] v1| |] eqn:Hlink; [|done..].
  apply link_blocks_inv in Hlink as ->.
  unfold update_volumeInfo, ret in H. injection H as <- <-.
  repeat split; [done|lia].
Qed.

Lemma allocateBlockChain_ok numBlocks v :
  0 < numBlocks <= VolumeInfo.freeAllocBlocks (volumeInfo v) ->
  VolumeInfo.freeAllocBlocks (volumeInfo v)
  = free_count (abm v) (VolumeInfo.numAllocBlocks (volumeInfo v)) ->
  VolumeInfo.numAllocBlocks (volumeInfo v) + 1 <= 0xFFF ->
  let blocks := free_blocks (abm v) (VolumeInfo.numAllocBlocks (volumeInfo v)) numBlocks in
  _allocateBlockChain numBlocks v
  = Done (default 0 (head blocks), blocks)
      (realloc (link (abm v) blocks)
         (VolumeInfo.freeAllocBlocks (volumeInfo v) - numBlocks) v).
Proof.
  intros Hk Hfree Hn blocks. unfold _allocateBlockChain.
  destruct (Z.eqb_spec numBlocks 0); [lia|].
  cbv beta iota delta [bind the_volumeInfo].
  destruct (Z.ltb_spec (VolumeInfo.freeAllocBlocks (volumeInfo v)) numBlocks); [lia|].
  rewrite findFreeBlocks_spec by lia. fold blocks.
  destruct (Z.ltb_spec (free_count (abm v) (VolumeInfo.numAllocBlocks (volumeInfo v)))
              numBlocks); [lia|].
  rewrite link_blocks_ok; [done|].
  intros b Hb. apply free_blocks_spec in Hb as [? _]. lia.
Qed.

Lemma allocateBlockChain_full numBlocks v :
  VolumeInfo.freeAllocBlocks (volumeInfo v) < numBlocks -> 0 < numBlocks ->
  _allocateBlockChain numBlocks v = Thrown "Not enough free blocks in volume." v.
Proof.
  intros Hk Hpos. unfold _allocateBlockChain.
  destruct (Z.eqb_spec numBlocks 0); [lia|].
  cbv beta iota delta [bind the_volumeInfo].
  by destruct (Z.ltb_spec (VolumeInfo.freeAllocBlocks (volumeInfo v)) numBlocks); [|lia].
Qed.

(** *** _freeBlockChain *)

Lemma free_chain_step fuel b freedCount v x :
  2 <= b < VolumeInfo.numAllocBlocks (volumeInfo v) + 2 ->
  abm v !! (b - 2) = Some x ->
  free_chain (S fuel) (Some b) freedCount v
  = let v1 := set_abm (<[b - 2 := 0]> (abm v)) v in
    if (x =? 1) || (x =? 0) || (VolumeInfo.numAllocBlocks (volumeInfo v) + 2 <=? x)
       || (x <? 2)
    then Done (freedCount + 1) v1
    else free_chain fuel (Some x) (freedCount + 1) v1.
Proof.
  intros Hb Hx. cbn [free_chain].
  destruct (Z.eqb_spec b 1); [lia|]. destruct (Z.eqb_spec b 0); [lia|].
  destruct (Z.leb_spec 2 b); [|lia]. cbn [negb andb].
  cbv beta iota delta [bind the_volumeInfo _getABMEntry _setABMEntry].
  assert ((b <? 2) || (VolumeInfo.numAllocBlocks (volumeInfo v) + 2 <=? b) = false) as Hr
    by (apply orb_false_intro; lia).
  rewrite Hr, Hx. change (4095 <? 0) with false. cbv iota. rewrite Hr.
  cbn [set_abm volumeInfo].
  destruct (Z.eqb_spec x 1); [done|]. destruct (Z.eqb_spec x 0); [done|].
  cbn [orb].
  by destruct ((VolumeInfo.numAllocBlocks (volumeInfo v) + 2 <=? x) || (x <? 2)).
Qed.

Lemma free_chain_spec blocks start fuel v freedCount :
  chain (abm v) (VolumeInfo.numAllocBlocks (volumeInfo v)) start blocks ->
  NoDup blocks -> (length blocks <= fuel)%nat ->
  free_chain fuel (Some start) freedCount v
  = Done (freedCount + Z.of_nat (length blocks)) (set_abm (clear (abm v) blocks) v).
Proof.
  revert start fuel v freedCount.
  induction blocks as [|b0 rest IH]; intros start fuel v freedCount Hchain Hnd Hfuel;
    inversion Hchain as [b Hb Hlast|b next rest' Hb Hnext Hn Hrest]; subst.
  - destruct fuel as [|fuel]; [cbn in Hfuel; lia|].
    by rewrite (free_chain_step _ _ _ _ 1).
  - destruct fuel as [|fuel]; [cbn in Hfuel; lia|].
    apply NoDup_cons in Hnd as [Hbrest Hnd].
    rewrite (free_chain_step _ _ _ _ next) by done. cbv zeta.
    destruct (Z.eqb_spec next 1); [lia|]. destruct (Z.eqb_spec next 0); [lia|].
    rewrite !orb_false_intro by lia.
    rewrite IH; cbn [abm volumeInfo length set_abm]; try done.
    + f_equal. lia.
    + eapply chain_ext; [done|]. intros b' Hb'. apply lookup_insert_ne.
      intros Heq. assert (b' = b0) as -> by lia. done.
    + cbn [length] in Hfuel. lia.
Qed.

Lemma chain_length abm n start blocks :
  chain abm n start blocks -> NoDup blocks -> (length blocks <= Z.to_nat n)%nat.
Proof.
  intros Hc Hnd. rewrite <- (length_seqZ 2 n). apply submseteq_length.
  apply NoDup_submseteq; [done|]. intros b Hb.
  apply (chain_elem _ _ _ _ _ Hc) in Hb as [Hb _]. apply elem_of_seqZ. lia.
Qed.

Lemma freeBlockChain_spec v start blocks :
  fork_chain (abm v) (VolumeInfo.numAllocBlocks (volumeInfo v)) start blocks ->
  NoDup blocks ->
  _freeBlockChain start v
  = Done (Z.of_nat (length blocks))
      (realloc (clear (abm v) blocks)
         (VolumeInfo.freeAllocBlocks (volumeInfo v) + Z.of_nat (length blocks)) v).
Proof.
  intros [[-> ->]|[Hstart Hchain]] Hnd.
  - cbn. rewrite Z.add_0_r. by rewrite realloc_id.
  - unfold _freeBlockChain. destruct (Z.eqb_spec start 0); [done|].
    cbv beta iota delta [bind the_volumeInfo].
    erewrite free_chain_spec; [done|done|done|].
    apply chain_length in Hchain; [lia|done].
Qed.

(** *** The chains of the files *)

Lemma fork_chain_ext abm abm' n start blocks :
  fork_chain abm n start blocks ->
  (forall b, b ∈ blocks -> abm' !! (b - 2) = abm !! (b - 2)) ->
  fork_chain abm' n start blocks.
Proof.
  intros [H|[Hs Hc]] Hsame; [by left|]. right. split; [done|]. by eapply chain_ext.
Qed.

Lemma fork_chain_elem abm n start blocks b :
  fork_chain abm n start blocks -> b ∈ blocks ->
  2 <= b < n + 2 /\ abm !! (b - 2) <> Some 0.
Proof.
  intros [[_ ->]|[_ Hc]] Hb; [by apply elem_of_nil in Hb|].
  destruct (chain_elem _ _ _ _ _ Hc Hb) as (? & x & -> & ?). split; [done|congruence].
Qed.

Lemma chains_ok_elem abm n owned b :
  chains_ok abm n owned -> b ∈ mjoin (snd <$> owned) ->
  2 <= b < n + 2 /\ abm !! (b - 2) <> Some 0.
Proof.
  intros [Hall _] (c & Hb & Hc)%list_elem_of_join.
  apply list_elem_of_fmap in Hc as (sc & -> & Hsc).
  rewrite Forall_forall in Hall. eapply fork_chain_elem; [by apply Hall|done].
Qed.

Lemma chains_ok_ext abm abm' n owned :
  chains_ok abm n owned ->
  (forall b, b ∈ mjoin (snd <$> owned) -> abm' !! (b - 2) = abm !! (b - 2)) ->
  chains_ok abm' n owned.
Proof.
  intros [Hall Hnd] Hsame. split; [|done].
  rewrite Forall_forall in Hall |- *. intros sc Hsc.
  eapply fork_chain_ext; [by apply Hall|]. intros b Hb. apply Hsame.
  apply list_elem_of_join. exists sc.2. split; [done|].
  apply list_elem_of_fmap. by exists sc.
Qed.

(** Linking free blocks leaves the chains of the files as they are. *)
Lemma chains_ok_link abm n owned blocks :
  chains_ok abm n owned ->
  (forall b, b ∈ blocks -> abm !! (b - 2) = Some 0) ->
  chains_ok (link abm blocks) n owned.
Proof.
  intros Hok Hfree. eapply chains_ok_ext; [done|]. intros b Hb.
  apply link_lookup_other. replace (b - 2 + 2) with b by lia. intros Hin.
  by destruct (chains_ok_elem _ _ _ _ Hok Hb) as [_ []]; apply Hfree.
Qed.

(** The linked blocks are one more chain. *)
Lemma chains_ok_alloc abm n owned blocks :
  chains_ok abm n owned -> NoDup blocks ->
  (forall b, b ∈ blocks -> 2 <= b < n + 2 /\ abm !! (b - 2) = Some 0) ->
  chains_ok (link abm blocks) n (owned ++ [(default 0 (head blocks), blocks)]).
Proof.
  intros Hok Hnd Hfree.
  destruct (chains_ok_link abm n owned blocks Hok) as [Hall Hnd']; [by intros; apply Hfree|].
  split.
  - apply Forall_app. split; [done|]. apply Forall_singleton. cbn [fst snd].
    destruct blocks as [|b rest]; [by left|]. right.
    destruct (Hfree b); [set_solver|]. split; [cbn; lia|].
    apply link_chain; [done|]. intros x Hx. by apply Hfree.
  - rewrite fmap_app, join_app. cbn. rewrite app_nil_r. apply NoDup_app.
    split; [done|]. split; [|done]. intros b Hb Hin.
    destruct (chains_ok_elem _ _ _ _ Hok Hb) as [_ []]. by apply Hfree.
Qed.

(** Freeing the chain of a fork leaves the other chains as they are. *)
Lemma chains_ok_free abm n o1 s c o2 :
  chains_ok abm n (o1 ++ (s, c) :: o2) ->
  chains_ok (clear abm c) n (o1 ++ o2)
  /\ fork_chain abm n s c /\ NoDup c
  /\ (forall b, b ∈ c -> 2 <= b < n + 2 /\ abm !! (b - 2) <> Some 0).
Proof.
  intros Hok. pose proof Hok as [Hall Hnd].
  apply Forall_app in Hall as [Hall1 Hall2]. apply Forall_cons in Hall2 as [Hsc Hall2].
  rewrite fmap_app, fmap_cons, join_app in Hnd. cbn in Hnd.
  apply NoDup_app in Hnd as (Hnd1 & Hdis1 & Hnd).
  apply NoDup_app in Hnd as (Hndc & Hdis2 & Hnd2).
  assert (chains_ok abm n (o1 ++ o2)) as Hrest.
  { split; [by apply Forall_app|]. rewrite fmap_app, join_app. apply NoDup_app.
    split; [done|]. split; [|done]. intros b Hb Hin. apply (Hdis1 b Hb). set_solver. }
  split; [|split; [done|split; [done|]]].
  - eapply chains_ok_ext; [done|]. intros b Hb. apply clear_lookup_other.
    replace (b - 2 + 2) with b by lia. intros Hin.
    rewrite fmap_app, join_app in Hb. apply elem_of_app in Hb as [Hb|Hb].
    + apply (Hdis1 b Hb). set_solver.
    + by apply (Hdis2 b Hin).
  - intros b Hb. by eapply fork_chain_elem.
Qed.

Lemma chains_ok_nil abm n : chains_ok abm n [].
Proof. split; [constructor|]. cbn. constructor. Qed.

(** *** Allocation keeps the state consistent *)

Lemma consistent_alloc v k :
  consistent v ->
  let blocks := free_blocks (abm v) (VolumeInfo.numAllocBlocks (volumeInfo v)) k in
  Z.of_nat (length blocks) = k ->
  consistent (realloc (link (abm v) blocks)
                (VolumeInfo.freeAllocBlocks (volumeInfo v) - k) v).
Proof.
  intros [Hfree (owned & Hforks & Hok)] blocks Hlen. split.
  - cbn. rewrite Hfree, <- Hlen. symmetry. apply free_count_link.
    + apply free_blocks_NoDup.
    + apply free_blocks_spec.
  - exists owned. split; [done|]. cbn. apply chains_ok_link; [done|].
    intros b Hb. by apply free_blocks_spec in Hb as [_ ?].
Qed.

Lemma blocks_for_spec size bs :
  0 < bs ->
  exists k, blocks_for size bs = Some k
    /\ (size <= 0 -> k = 0)
    /\ (0 < size -> 0 < k /\ (k - 1) * bs < size <= k * bs).
Proof.
  intros Hbs. unfold blocks_for. destruct (Z.ltb_spec 0 size) as [Hs|Hs].
  - destruct (Z.eqb_spec bs 0); [lia|]. eexists. split; [done|]. split; [lia|]. intros _.
    pose proof (Z.div_mod (- size) bs ltac:(lia)).
    pose proof (Z.mod_pos_bound (- size) bs ltac:(lia)). nia.
  - exists 0. split; [done|]. split; [done|lia].
Qed.

Lemma consistent_free_nonneg v :
  consistent v -> 0 <= VolumeInfo.freeAllocBlocks (volumeInfo v).
Proof. intros [-> _]. apply count_free_nonneg. Qed.

Lemma allocate_fork_full k v :
  VolumeInfo.freeAllocBlocks (volumeInfo v) < k ->
  0 <= VolumeInfo.freeAllocBlocks (volumeInfo v) ->
  allocate_fork (Some k) v = Thrown "Not enough free blocks in volume." v.
Proof.
  intros Hk Hfree. unfold allocate_fork. destruct (Z.ltb_spec 0 k); [|lia].
  apply allocateBlockChain_full; lia.
Qed.

(** C3, amended: on a volume whose state in memory is consistent, with
    blocks that are not empty and block numbers that fit 12 bits, a call of
    [writeFile] for a name that is not on the volume and forks that need
    more blocks than are free throws "Not enough free blocks in volume.".
    The image (the master directory block, the map and the directory on
    disk) and the directory in memory are unchanged, and so are the fields
    of [volumeInfo] other than the counter of free blocks. The map and the
    counter in memory are unchanged when the data fork needs no block or
    more blocks than are free; otherwise the blocks of the data fork have
    been linked and taken off the counter, and stay so. The counter still
    counts the free entries of the map. *)
Theorem writeFile_disk_full v filename data rsrc metadata now :
  consistent v ->
  0 < VolumeInfo.allocBlockSize (volumeInfo v) ->
  VolumeInfo.numAllocBlocks (volumeInfo v) + 1 <= 0xFFF ->
  find_entry (fileDirectory v) filename 0 = None ->
  VolumeInfo.freeAllocBlocks (volumeInfo v) < blocks_needed data v + blocks_needed rsrc v ->
  exists v',
    writeFile filename data rsrc metadata now v
    = Thrown "Not enough free blocks in volume." v'
    /\ image v' = image v
    /\ fileDirectory v' = fileDirectory v
    /\ VolumeInfo.set_freeAllocBlocks (VolumeInfo.freeAllocBlocks (volumeInfo v)) (volumeInfo v')
       = volumeInfo v
    /\ consistent v'
    /\ (blocks_needed data v = 0
        \/ VolumeInfo.freeAllocBlocks (volumeInfo v) < blocks_needed data v -> v' = v)
    /\ (0 < blocks_needed data v <= VolumeInfo.freeAllocBlocks (volumeInfo v) ->
        v' = realloc
               (link (abm v)
                  (free_blocks (abm v) (VolumeInfo.numAllocBlocks (volumeInfo v))
                     (blocks_needed data v)))
               (VolumeInfo.freeAllocBlocks (volumeInfo v) - blocks_needed data v) v).
Proof.
  intros Hcons Hbs Hn Hnew Hfull. unfold blocks_needed in *.
  destruct (blocks_for_spec (byteLength_of data) _ Hbs) as (nd & Hd & Hd0 & Hd1).
  destruct (blocks_for_spec (byteLength_of rsrc) _ Hbs) as (nr & Hr & Hr0 & Hr1).
  rewrite Hd, Hr in *. cbn [default from_option] in *. unfold id in *.
  pose proof (consistent_free_nonneg v Hcons) as Hfree.
  assert (0 <= nd) as Hnd by (destruct (Z.ltb_spec 0 (byteLength_of data)); lia).
  unfold writeFile.
  cbv beta iota delta [bind _findFileEntryByName the_volumeInfo]. rewrite Hnew.
  cbv beta iota delta [ret]. rewrite Hd, Hr.
  destruct (decide (nd = 0)) as [->|Hnz].
  { unfold allocate_fork at 1. change (0 <? 0) with false. cbv beta iota delta [ret].
    rewrite allocate_fork_full by lia.
    exists v. do 3 (split; [done|]). split; [by destruct v as [? [] ? ?]|].
    split; [done|]. split; [done|lia]. }
  destruct (Z.ltb_spec (VolumeInfo.freeAllocBlocks (volumeInfo v)) nd) as [Hlt|Hge].
  { rewrite allocate_fork_full by lia.
    exists v. do 3 (split; [done|]). split; [by destruct v as [? [] ? ?]|].
    split; [done|]. split; [done|lia]. }
  unfold allocate_fork at 1. destruct (Z.ltb_spec 0 nd); [|lia].
  rewrite allocateBlockChain_ok; [|lia|apply Hcons|done].
  rewrite allocate_fork_full; cbn [realloc volumeInfo VolumeInfo.freeAllocBlocks
    VolumeInfo.set_freeAllocBlocks]; [|lia..].
  eexists. do 3 (split; [done|]). split; [by destruct v as [? [] ? ?]|].
  split; [|split; [lia|done]].
  apply consistent_alloc; [done|]. rewrite free_blocks_length by lia.
  destruct Hcons as [<- _]. lia.
Qed.

(** *** The calls keep the state consistent *)

Lemma dv_inv {A} (m : M Image A) v a v' :
  dv m v = Done a v' -> exists img', m (image v) = Done a img' /\ v' = set_image img' v.
Proof.
  unfold dv, zoom. destruct (m (image v)) as [a' img'| |]; [|done..].
  intros [= <- <-]. by exists img'.
Qed.

Lemma find_entry_lookup dir filename i e j :
  find_entry dir filename i = Some (e, j) ->
  (i <= j)%nat /\ dir !! (j - i)%nat = Some e /\ FileEntry.filename e = filename.
Proof.
  revert i. induction dir as [|e' dir IH]; intros i H; [done|].
  cbn [find_entry] in H. case_bool_decide as Hname.
  - injection H as -> ->. by rewrite Nat.sub_diag.
  - apply IH in H as (Hle & Hlook & Hn). split; [lia|]. split; [|done].
    replace (j - i)%nat with (S (j - S i)) by lia. done.
Qed.

Lemma forks_app d1 d2 : forks (d1 ++ d2) = forks d1 ++ forks d2.
Proof. unfold forks. apply bind_app. Qed.

(** The chains of the file at index [i] among the chains of the files. *)
Lemma owned_split dir i e (owned : list (Z * list Z)) :
  dir !! i = Some e -> fst <$> owned = forks dir ->
  exists o1 cd cr o2,
    owned = o1 ++ (FileEntry.dataForkStartBlock e, cd)
                  :: (FileEntry.resourceForkStartBlock e, cr) :: o2
    /\ fst <$> (o1 ++ o2) = forks (delete i dir).
Proof.
  intros Hi Hforks.
  rewrite <- (take_drop_middle dir i e Hi), forks_app in Hforks.
  apply fmap_app_inv in Hforks as (o1 & o' & H1 & H2 & ->).
  change (forks (e :: drop (S i) dir))
    with (FileEntry.dataForkStartBlock e :: FileEntry.resourceForkStartBlock e
          :: forks (drop (S i) dir)) in H2.
  destruct o' as [|[sd cd] [|[sr cr] o2]]; try done.
  injection H2 as -> -> H2.
  exists o1, cd, cr, o2. split; [done|].
  rewrite delete_take_drop, forks_app, fmap_app. by rewrite H1, H2.
Qed.

Lemma deleteFile_consistent filename now v r v' :
  consistent v -> deleteFile filename now v = Done r v' -> consistent v'.
Proof.
  intros [Hfree (owned & Hforks & Hok)] H. unfold deleteFile in H.
  cbv beta iota delta [bind _findFileEntryByName] in H.
  destruct (find_entry (fileDirectory v) filename 0) as [[e idx]|] eqn:Hfind; [|done].
  apply find_entry_lookup in Hfind as (_ & Hlook & _). rewrite Nat.sub_0_r in Hlook.
  destruct (owned_split _ _ _ _ Hlook Hforks) as (o1 & cd & cr & o2 & -> & Hforks').
  destruct (chains_ok_free _ _ _ _ _ _ Hok) as (Hok1 & Hcd & Hndd & Hused_d).
  rewrite (freeBlockChain_spec v _ cd Hcd Hndd) in H.
  destruct (chains_ok_free _ _ _ _ _ _ Hok1) as (Hok2 & Hcr & Hndr & Hused_r).
  erewrite (freeBlockChain_spec _ _ cr) in H; [|exact Hcr|exact Hndr].
  cbn [realloc abm volumeInfo VolumeInfo.freeAllocBlocks VolumeInfo.set_freeAllocBlocks
         image fileDirectory] in H.
  match type of H with
  | match dv ?m ?s with _ => _ end = _ => destruct (dv m s) as [b v3| |] eqn:H3; [|done..]
  end.
  apply dv_inv in H3 as (img3 & _ & ->).
  match type of H with
  | match dv ?m ?s with _ => _ end = _ => destruct (dv m s) as [? v4| |] eqn:H4; [|done..]
  end.
  apply dv_inv in H4 as (img4 & _ & ->).
  cbv beta iota delta [update_volumeInfo _writeMDB] in H.
  match type of H with
  | match dv ?m ?s with _ => _ end = _ => destruct (dv m s) as [? v5| |] eqn:H5; [|done..]
  end.
  apply dv_inv in H5 as (img5 & _ & ->).
  injection H as _ <-. split.
  - cbn. rewrite Hfree.
    rewrite (free_count_clear _ _ cr), (free_count_clear _ _ cd); [lia|done..].
  - exists (o1 ++ o2). split; [done|]. exact Hok2.
Qed.

Lemma allocate_fork_inv blocks v r v' :
  allocate_fork blocks v = Done r v' ->
  exists allocated,
    r = (default 0 (head allocated), allocated)
    /\ v' = realloc (link (abm v) allocated)
              (VolumeInfo.freeAllocBlocks (volumeInfo v) - Z.of_nat (length allocated)) v
    /\ NoDup allocated
    /\ (forall b, b ∈ allocated ->
          2 <= b < VolumeInfo.numAllocBlocks (volumeInfo v) + 2
          /\ abm v !! (b - 2) = Some 0).
Proof.
  destruct blocks as [k|]; [|done]. unfold allocate_fork.
  destruct (Z.ltb_spec 0 k) as [Hk|Hk]; intros H.
  - apply allocateBlockChain_inv in H as (_ & Hlen & -> & ->); [|done].
    eexists. split; [done|]. rewrite Hlen. split; [done|].
    split; [apply free_blocks_NoDup|apply free_blocks_spec].
  - injection H as <- <-. exists []. split; [done|]. cbn [link length].
    rewrite Z.sub_0_r, realloc_id. split; [done|]. split; [constructor|].
    intros b Hb. by apply elem_of_nil in Hb.
Qed.

Lemma fork_written_inv (content : option (list Z)) (allocated : list Z) v r v' :
  match content with
  | Some content =>
      if 0 <? Z.of_nat (length allocated) then _writeForkData content allocated else ret tt
  | None => ret tt
  end v = Done r v' ->
  exists img', v' = set_image img' v.
Proof.
  assert (v = set_image (image v) v) as Hsame by (by destruct v).
  destruct content as [content|]; [|intros [= _ <-]; by eexists].
  destruct (0 <? _); [|intros [= _ <-]; by eexists].
  unfold _writeForkData. cbv beta iota delta [bind the_volumeInfo].
  intros (img' & _ & ->)%dv_inv. by eexists.
Qed.

Lemma writeFile_consistent filename data rsrc metadata now v r v' :
  consistent v -> writeFile filename data rsrc metadata now v = Done r v' ->
  consistent v'.
Proof.
  intros Hcons H. unfold writeFile in H.
  apply bind_inv in H as (existing & v0 & Hfind & H). injection Hfind as <- <-.
  apply bind_inv in H as (? & v0 & Hdel & H).
  assert (consistent v0) as [Hfree (owned & Hforks & Hok)].
  { destruct (find_entry (fileDirectory v) filename 0).
    - by eapply deleteFile_consistent.
    - by injection Hdel as _ <-. }
  clear Hcons Hdel v.
  apply bind_inv in H as (info & ? & [= <- <-] & H).
  apply bind_inv in H as (rd & v1 & Hd & H).
  apply allocate_fork_inv in Hd as (bd & -> & -> & Hndd & Hfree_d).
  apply bind_inv in H as (rr & v2 & Hr & H).
  apply allocate_fork_inv in Hr as (br & -> & -> & Hndr & Hfree_r).
  apply bind_inv in H as (slot & ? & Hslot & H).
  assert (forall s off s', _findFreeDirectorySlot s = Done off s' -> s' = s) as Hslot_inv.
  { intros s off s'. unfold _findFreeDirectorySlot.
    destruct (_ <=? _); [by intros [= _ <-]|done]. }
  apply Hslot_inv in Hslot as ->.
  apply bind_inv in H as (info2 & ? & [= <- <-] & H).
  apply bind_inv in H as (? & ? & [= <- <-] & H).
  apply bind_inv in H as (? & v3 & (img3 & _ & ->)%dv_inv & H).
  apply bind_inv in H as (? & v4 & Hwd & H).
  apply fork_written_inv in Hwd as (img4 & ->).
  apply bind_inv in H as (? & v5 & Hwr & H).
  apply fork_written_inv in Hwr as (img5 & ->).
  apply bind_inv in H as (? & ? & [= <- <-] & H).
  apply bind_inv in H as (? & ? & [= <- <-] & H).
  apply bind_inv in H as (? & v6 & (img6 & _ & ->)%dv_inv & H).
  apply bind_inv in H as (? & ? & [= <- <-] & H).
  injection H as _ <-.
  pose proof (chains_ok_alloc _ _ _ bd Hok Hndd Hfree_d) as Hok1.
  pose proof (chains_ok_alloc _ _ _ br Hok1 Hndr Hfree_r) as Hok2.
  split.
  - cbn. rewrite Hfree. rewrite (free_count_link _ _ br), (free_count_link _ _ bd);
      [lia|done..].
  - eexists. split; [|exact Hok2]. cbn [fileDirectory set_fileDirectory set_image
      set_volumeInfo realloc]. rewrite forks_app, !fmap_app, Hforks, <- app_assoc. done.
Qed.

(** *** Reading back what was written *)

Lemma writeUint16BE_inv off v img r img' :
  writeUint16BE off v img = Done r img' -> img' = store16 img off v.
Proof. unfold writeUint16BE. destruct (in_buffer img off 2); [|done]. by intros [= <-]. Qed.

Lemma writeUint32BE_inv off v img r img' :
  writeUint32BE off v img = Done r img' -> img' = store32 img off v.
Proof. unfold writeUint32BE. destruct (in_buffer img off 4); [|done]. by intros [= <-]. Qed.

Lemma byte_at_store16_ne img off v o :
  o < off \/ off + 2 <= o -> byte_at (store16 img off v) o = byte_at img o.
Proof. intros. unfold store16. cbv zeta. rewrite !byte_at_store_ne by lia. done. Qed.

Lemma byte_at_store32_ne img off v o :
  o < off \/ off + 4 <= o -> byte_at (store32 img off v) o = byte_at img o.
Proof. intros. unfold store32. cbv zeta. rewrite !byte_at_store_ne by lia. done. Qed.

Lemma u16_at_store16_eq img off v : u16_at (store16 img off v) off = v mod 65536.
Proof.
  unfold u16_at, store16. cbv zeta.
  rewrite byte_at_store_ne, !byte_at_store_eq by lia. zlia.
Qed.

Lemma u32_at_store32_eq img off v : u32_at (store32 img off v) off = v mod 4294967296.
Proof.
  unfold u32_at, store32. cbv zeta.
  rewrite (byte_at_store_ne _ _ _ off), (byte_at_store_ne _ _ _ off),
    (byte_at_store_ne _ _ _ off), byte_at_store_eq by lia.
  rewrite (byte_at_store_ne _ _ _ (off + 1)), (byte_at_store_ne _ _ _ (off + 1)),
    byte_at_store_eq by lia.
  rewrite (byte_at_store_ne _ _ _ (off + 2)), !byte_at_store_eq by lia. zlia.
Qed.

Lemma u16_at_ext img img' off :
  (forall o, off <= o < off + 2 -> byte_at img' o = byte_at img o) ->
  u16_at img' off = u16_at img off.
Proof. intros H. unfold u16_at. rewrite !H by lia. done. Qed.

Lemma u32_at_ext img img' off :
  (forall o, off <= o < off + 4 -> byte_at img' o = byte_at img o) ->
  u32_at img' off = u32_at img off.
Proof. intros H. unfold u32_at. rewrite !H by lia. done. Qed.

Lemma u16_at_store16_ne img off v o :
  o + 2 <= off \/ off + 2 <= o -> u16_at (store16 img off v) o = u16_at img o.
Proof. intros. apply u16_at_ext. intros. apply byte_at_store16_ne. lia. Qed.

Lemma u16_at_store32_ne img off v o :
  o + 2 <= off \/ off + 4 <= o -> u16_at (store32 img off v) o = u16_at img o.
Proof. intros. apply u16_at_ext. intros. apply byte_at_store32_ne. lia. Qed.

Lemma u32_at_store16_ne img off v o :
  o + 4 <= off \/ off + 2 <= o -> u32_at (store16 img off v) o = u32_at img o.
Proof. intros. apply u32_at_ext. intros. apply byte_at_store16_ne. lia. Qed.

Lemma u32_at_store32_ne img off v o :
  o + 4 <= off \/ off + 4 <= o -> u32_at (store32 img off v) o = u32_at img o.
Proof. intros. apply u32_at_ext. intros. apply byte_at_store32_ne. lia. Qed.

(** *** What the writers leave alone *)

Lemma write_bytes_frame values : forall from img r img',
  write_bytes from values img = Done r img' ->
  byteLength img' = byteLength img
  /\ (is_buffer img -> is_buffer img')
  /\ forall o, o < from \/ from + Z.of_nat (length values) <= o ->
       byte_at img' o = byte_at img o.
Proof.
  induction values as [|b rest IH]; intros from img r img' H.
  - by injection H as _ <-.
  - cbn [write_bytes] in H. apply bind_inv in H as (? & img1 & Hw & H).
    apply writeUint8_inv in Hw as [-> _]. apply IH in H as (Hlen & Hbuf & Hframe).
    split; [done|]. split; [by intros; apply Hbuf, store_is_buffer|].
    intros o Ho. cbn [length] in Ho. rewrite Hframe by lia. apply byte_at_store_ne. lia.
Qed.

Lemma writePascalString_frame off str fixedLength img r img' :
  writePascalString off str fixedLength img = Done r img' ->
  1 <= fixedLength ->
  byteLength img' = byteLength img
  /\ (is_buffer img -> is_buffer img')
  /\ forall o, o < off \/ off + fixedLength <= o -> byte_at img' o = byte_at img o.
Proof.
  intros H Hfixed. unfold writePascalString in H.
  apply bind_inv in H as (? & img1 & Hw & H). apply writeUint8_inv in Hw as [-> _].
  apply bind_inv in H as (? & img2 & H2 & H3).
  apply write_bytes_frame in H2 as (Hlen2 & Hbuf2 & Hframe2).
  apply write_bytes_frame in H3 as (Hlen3 & Hbuf3 & Hframe3).
  split; [by rewrite Hlen3, Hlen2|].
  split; [by intros; apply Hbuf3, Hbuf2, store_is_buffer|].
  intros o Ho. rewrite length_take, length_replicate in *.
  rewrite Hframe3, Hframe2 by lia. apply byte_at_store_ne. lia.
Qed.

(** *** Formatting *)

(** Writing an empty map over zero bytes leaves zero bytes. *)
Lemma write_abm_empty n off : forall count i img r img',
  write_abm count n off i ∅ img = Done r img' ->
  0 <= off -> 0 <= i ->
  (forall o, off <= o -> byte_at img o = 0) ->
  byteLength img' = byteLength img
  /\ (forall o, off <= o -> byte_at img' o = 0)
  /\ (forall o, o < off -> byte_at img' o = byte_at img o).
Proof.
  induction count as [|count IH]; intros i img r img' H Hoff Hi Hzero.
  - by injection H as _ <-.
  - cbn [write_abm] in H. rewrite bind_get in H.
    assert (0 <= i / 2) as Hdiv by (apply Z.div_pos; lia).
    apply bind_inv in H as ([[b0 b1] b2] & img0 & Hold & H).
    assert (img0 = img /\ b0 = 0 /\ b1 = 0 /\ b2 = 0) as (-> & -> & -> & ->).
    { destruct (_ <? _).
      - apply bind_inv in Hold as (? & ? & (-> & -> & _)%readUint8_inv & Hold).
        apply bind_inv in Hold as (? & ? & (-> & -> & _)%readUint8_inv & Hold).
        apply bind_inv in Hold as (? & ? & (-> & -> & _)%readUint8_inv & Hold).
        injection Hold as <- <- <- <-. rewrite !Hzero by lia. done.
      - by injection Hold as <- <- <- <-. }
    rewrite !lookup_empty in H. cbn [default fst snd] in H.
    change (packABMEntryToTriplet 0 0 0 0 true) with (Returns (0, 0, 0)) in H.
    rewrite bind_liftO in H. cbn [fst snd] in H.
    apply bind_inv in H as ([[c0 c1] c2] & img1 & Hpack & H).
    assert (img1 = img /\ c0 = 0 /\ c1 = 0 /\ c2 = 0) as (-> & -> & -> & ->).
    { change (packABMEntryToTriplet 0 0 0 0 false) with (Returns (0, 0, 0)) in Hpack.
      destruct (i + 1 <? n); unfold liftO, ret in Hpack; by injection Hpack as <- <- <- <-. }
    cbn [fst snd] in H.
    apply bind_inv in H as (? & ? & [-> _]%writeUint8_inv & H).
    apply bind_inv in H as (? & ? & [-> _]%writeUint8_inv & H).
    apply bind_inv in H as (? & ? & [-> _]%writeUint8_inv & H).
    apply IH in H as (Hlen & Hz & Hframe); [|lia|lia|].
    + split; [done|]. split; [done|]. intros o Ho. rewrite Hframe by done.
      rewrite !byte_at_store_ne by lia. done.
    + intros o Ho. rewrite !byte_at_store.
      repeat case_decide; try done. by apply Hzero.
Qed.

(** Clearing the directory writes zero bytes only. *)
Lemma clear_directory_zero dirStartOffset : forall count offset img r img',
  clear_directory count dirStartOffset offset img = Done r img' ->
  byteLength img' = byteLength img
  /\ forall o, byte_at img' o = byte_at img o
               \/ (dirStartOffset + offset <= o /\ byte_at img' o = 0).
Proof.
  induction count as [|count IH]; intros offset img r img' H.
  - injection H as _ <-. split; [done|]. by left.
  - cbn [clear_directory] in H. rewrite bind_get in H.
    apply bind_inv in H as (? & img1 & Hw & H).
    apply IH in H as (Hlen & Hbytes).
    destruct (_ <? _).
    + apply writeUint8_inv in Hw as [-> _]. split; [done|]. intros o.
      destruct (Hbytes o) as [->|[? ?]]; [|right; split; [lia|done]].
      rewrite byte_at_store. case_decide; [|by left]. right. split; [lia|done].
    + injection Hw as _ <-. split; [done|]. intros o.
      destruct (Hbytes o) as [->|[? ?]]; [by left|right; split; [lia|done]].
Qed.

Lemma parse_abm_inv off img : forall count i abm abm' img',
  parse_abm count off i abm img = Done abm' img' ->
  img' = img
  /\ forall k, abm' !! k
       = if bool_decide (i <= k < i + Z.of_nat count)
         then Some (entry_at img off k) else abm !! k.
Proof.
  induction count as [|count IH]; intros i abm abm' img' H.
  - injection H as <- <-. split; [done|]. intros k.
    by rewrite bool_decide_eq_false_2 by lia.
  - cbn [parse_abm] in H.
    apply bind_inv in H as (? & ? & (-> & -> & _)%readUint8_inv & H).
    apply bind_inv in H as (? & ? & (-> & -> & _)%readUint8_inv & H).
    apply bind_inv in H as (? & ? & (-> & -> & _)%readUint8_inv & H).
    apply IH in H as (-> & Hlook). split; [done|]. intros k. rewrite Hlook.
    destruct (decide (k = i)) as [->|Hne].
    + rewrite bool_decide_eq_false_2 by lia.
      rewrite bool_decide_eq_true_2 by lia.
      by rewrite lookup_insert_eq.
    + rewrite lookup_insert_ne by done.
      destruct (decide (i + 1 <= k < i + 1 + Z.of_nat count)).
      * rewrite !bool_decide_eq_true_2 by lia. done.
      * rewrite !bool_decide_eq_false_2 by lia. done.
Qed.

Lemma parseFileDirectory_empty info img d img' :
  parseFileDirectory info img = Done d img' ->
  byte_at img (VolumeInfo.dirStartBlock info * SECTOR_SIZE) = 0 ->
  d = [] /\ img' = img.
Proof.
  unfold parseFileDirectory. intros H Hzero.
  destruct (directory_fuel _) as [|fuel]; cbn [parse_directory] in H.
  - destruct (0 <? _); [done|]. by injection H as <- <-.
  - destruct (0 <? _); [|by injection H as <- <-]. rewrite bind_get in H.
    destruct (_ <=? _); [by injection H as <- <-|].
    apply bind_inv in H as (? & ? & (-> & -> & _)%readUint8_inv & H).
    rewrite Z.add_0_r, Hzero in H. by injection H as <- <-.
Qed.

Lemma count_free_zeros abm : forall left i,
  (forall k, i <= k < i + Z.of_nat left -> abm !! k = Some 0) ->
  count_free left abm i = Z.of_nat left.
Proof.
  induction left as [|left IH]; intros i Hz; [done|]. cbn [count_free].
  rewrite bool_decide_eq_true_2 by (apply Hz; lia). rewrite IH; [lia|].
  intros k Hk. apply Hz. lia.
Qed.

Ltac inv_write16 H :=
  let Hw := fresh "Hw" in
  apply bind_inv in H as (? & ? & Hw & H); apply writeUint16BE_inv in Hw as ->.
Ltac inv_write32 H :=
  let Hw := fresh "Hw" in
  apply bind_inv in H as (? & ? & Hw & H); apply writeUint32BE_inv in Hw as ->.

Lemma writeMDB_image_inv info abm img r img' :
  writeMDB_image info abm img = Done r img' ->
  exists img14,
    writePascalString 1060 (VolumeInfo.volumeName info) 28 (header_written info img)
    = Done tt img14
    /\ write_abm (passes_by_two (VolumeInfo.numAllocBlocks info))
         (VolumeInfo.numAllocBlocks info) 1088 0 abm img14 = Done r img'.
Proof.
  intros H. unfold writeMDB_image in H. cbv zeta in H.
  inv_write16 H. inv_write32 H. inv_write32 H. inv_write16 H. inv_write16 H.
  inv_write16 H. inv_write16 H. inv_write16 H. inv_write32 H. inv_write32 H.
  inv_write16 H. inv_write32 H. inv_write16 H.
  apply bind_inv in H as ([] & img14 & Hname & H). exists img14. split; [exact Hname|exact H].
Qed.

Lemma header_written_frame info img o :
  o < 1024 \/ 1060 <= o -> byte_at (header_written info img) o = byte_at img o.
Proof.
  intros Ho. unfold header_written.
  repeat first [rewrite byte_at_store16_ne by lia | rewrite byte_at_store32_ne by lia].
  done.
Qed.

Lemma header_written_length info img :
  byteLength (header_written info img) = byteLength img.
Proof. done. Qed.

Lemma store16_is_buffer img off v : is_buffer img -> is_buffer (store16 img off v).
Proof. intros. unfold store16. by do 2 apply store_is_buffer. Qed.

Lemma store32_is_buffer img off v : is_buffer img -> is_buffer (store32 img off v).
Proof. intros. unfold store32. by do 4 apply store_is_buffer. Qed.

Lemma header_written_is_buffer info img :
  is_buffer img -> is_buffer (header_written info img).
Proof.
  intros. unfold header_written.
  repeat match goal with
         | |- is_buffer (store16 _ _ _) => apply store16_is_buffer
         | |- is_buffer (store32 _ _ _) => apply store32_is_buffer
         end.
  done.
Qed.

Ltac header_field :=
  unfold header_written;
  repeat first [ rewrite u16_at_store16_ne by lia | rewrite u16_at_store32_ne by lia
               | rewrite u32_at_store16_ne by lia | rewrite u32_at_store32_ne by lia ];
  match goal with
  | |- u16_at _ _ = _ => apply u16_at_store16_eq
  | |- u32_at _ _ = _ => apply u32_at_store32_eq
  end.

Lemma header_written_fields info img :
  let h := header_written info img in
  u16_at h 1036 = VolumeInfo.numFiles info mod 65536
  /\ u16_at h 1038 = VolumeInfo.dirStartBlock info mod 65536
  /\ u16_at h 1040 = VolumeInfo.dirLengthBlocks info mod 65536
  /\ u16_at h 1042 = VolumeInfo.numAllocBlocks info mod 65536
  /\ u32_at h 1044 = VolumeInfo.allocBlockSize info mod 4294967296
  /\ u16_at h 1052 = VolumeInfo.allocBlockStartSector info mod 65536
  /\ u32_at h 1054 = VolumeInfo.nextFileNum info mod 4294967296
  /\ u16_at h 1058 = VolumeInfo.freeAllocBlocks info mod 65536.
Proof. cbv zeta. repeat split; header_field. Qed.

Ltac inv_read16 H :=
  let Hr := fresh "Hr" in
  apply bind_inv in H as (? & ? & Hr & H); apply readUint16BE_inv in Hr as [-> ->].
Ltac inv_read32 H :=
  let Hr := fresh "Hr" in
  apply bind_inv in H as (? & ? & Hr & H); apply readUint32BE_inv in Hr as [-> ->].

Lemma parseMDB_inv img info abm img' :
  parseMDB img = Done (info, abm) img' ->
  img' = img
  /\ VolumeInfo.numFiles info = u16_at img 1036
  /\ VolumeInfo.dirStartBlock info = u16_at img 1038
  /\ VolumeInfo.dirLengthBlocks info = u16_at img 1040
  /\ VolumeInfo.numAllocBlocks info = u16_at img 1042
  /\ VolumeInfo.allocBlockSize info = u32_at img 1044
  /\ VolumeInfo.allocBlockStartSector info = u16_at img 1052
  /\ VolumeInfo.nextFileNum info = u32_at img 1054
  /\ VolumeInfo.freeAllocBlocks info = u16_at img 1058
  /\ forall k, abm !! k
       = if bool_decide (0 <= k < VolumeInfo.numAllocBlocks info)
         then Some (entry_at img 1088 k) else None.
Proof.
  intros H. unfold parseMDB in H. cbv zeta in H.
  inv_read16 H. inv_read32 H. inv_read32 H. inv_read16 H. inv_read16 H.
  inv_read16 H. inv_read16 H. inv_read16 H. inv_read32 H. inv_read32 H.
  inv_read16 H. inv_read32 H. inv_read16 H.
  apply bind_inv in H as (name & img1 & Hname & H).
  apply reads_only_Done in Hname as ->; [|apply reads_only_readPascalString].
  apply bind_inv in H as (abm' & img2 & Habm & H).
  apply parse_abm_inv in Habm as [-> Hlook]. injection H as <- <- <-.
  cbn [VolumeInfo.numFiles VolumeInfo.dirStartBlock VolumeInfo.dirLengthBlocks
       VolumeInfo.numAllocBlocks VolumeInfo.allocBlockSize
       VolumeInfo.allocBlockStartSector VolumeInfo.nextFileNum VolumeInfo.freeAllocBlocks].
  repeat (split; [done|]). intros k. rewrite Hlook, lookup_empty.
  change (MDB_START_SECTOR * SECTOR_SIZE + 18) with 1042.
  change (MDB_START_SECTOR * SECTOR_SIZE + 64) with 1088.
  destruct (decide (0 <= k < u16_at img 1042)).
  - rewrite !bool_decide_eq_true_2; [done|done|lia].
  - rewrite !bool_decide_eq_false_2; [done|done|lia].
Qed.

Lemma run_inv {A} (m : M Volume A) v v' :
  run m v = Returns v' -> exists a, m v = Done a v'.
Proof. unfold run. destruct (m v) as [a ?| |]; [|done..]. intros [= <-]. by exists a. Qed.

Lemma entry_at_zero img off k :
  (forall o, off <= o -> byte_at img o = 0) -> 0 <= k -> entry_at img off k = 0.
Proof.
  intros Hz Hk. unfold entry_at.
  assert (0 <= k / 2) by (apply Z.div_pos; lia).
  rewrite !Hz by lia. by destruct (_ =? _).
Qed.

(** What the constructor makes of its options when it succeeds. *)
Lemma formatNewImage_result sizeKB volumeName now v :
  _formatNewImage sizeKB volumeName now = Returns v ->
  let n := ((sizeKB * 1024 / 512 - 16) / 2) mod 65536 in
  byteLength (image v) = sizeKB * 1024
  /\ is_buffer (image v)
  /\ fileDirectory v = []
  /\ VolumeInfo.numFiles (volumeInfo v) = 0
  /\ VolumeInfo.dirStartBlock (volumeInfo v) = 4
  /\ VolumeInfo.dirLengthBlocks (volumeInfo v) = 12
  /\ VolumeInfo.numAllocBlocks (volumeInfo v) = n
  /\ VolumeInfo.allocBlockSize (volumeInfo v) = 1024
  /\ VolumeInfo.allocBlockStartSector (volumeInfo v) = 16
  /\ VolumeInfo.nextFileNum (volumeInfo v) = 1
  /\ VolumeInfo.freeAllocBlocks (volumeInfo v) = n
  /\ forall k, abm v !! k = if bool_decide (0 <= k < n) then Some 0 else None.
Proof.
  intros H n. unfold _formatNewImage in H. cbv zeta in H.
  destruct (negb _); [done|]. destruct (_ <? _); [done|].
  apply run_inv in H as [r H].
  apply bind_inv in H as (? & v1 & H1 & H).
  apply bind_inv in H as (? & v2 & H2 & H).
  apply bind_inv in H as (? & v3 & H3 & H).
  unfold _writeMDB in H1. apply dv_inv in H1 as (img1 & H1 & ->).
  cbn [volumeInfo abm image] in H1.
  apply writeMDB_image_inv in H1 as (img14 & Hname & Habm).
  apply writePascalString_frame in Hname as (Hlen14 & Hbuf14 & Hframe14); [|lia].
  set (info0 := VolumeInfo.mk _ _ _ _ _ _ _ _ _ _ _ _ _ _) in *.
  set (img0 := mkImage ∅ (sizeKB * 1024)) in *.
  assert (forall o, byte_at img0 o = 0) as Hblank by done.
  apply write_abm_empty in Habm as (Hlen1 & Hz1 & Hframe1); [|lia|lia|].
  2:{ intros o Ho. rewrite Hframe14, header_written_frame by lia. apply Hblank. }
  unfold _initializeFileDirectoryArea in H2.
  cbv beta iota delta [bind the_volumeInfo] in H2.
  apply dv_inv in H2 as (img2 & H2 & ->).
  apply clear_directory_zero in H2 as (Hlen2 & Hbytes2).
  cbn [volumeInfo set_image image] in Hbytes2, Hlen2.
  assert (forall o, 1088 <= o -> byte_at img2 o = 0) as Hz2.
  { intros o Ho. destruct (Hbytes2 o) as [->|[_ ->]]; [by apply Hz1|done]. }
  assert (forall o, o < 1088 -> byte_at img2 o = byte_at (header_written info0 img0) o
                                \/ 1060 <= o) as Hhead.
  { intros o Ho. destruct (decide (1060 <= o)); [by right|left].
    destruct (Hbytes2 o) as [->|[Hge _]].
    - rewrite Hframe1, Hframe14 by lia. done.
    - change (VolumeInfo.dirStartBlock info0 * SECTOR_SIZE) with 2048 in Hge. lia. }
  unfold _parseMDB in H3. apply bind_inv in H3 as ([info abm'] & v2' & Hp & H3).
  apply dv_inv in Hp as (img2' & Hp & ->).
  cbn [set_image image] in Hp. injection H3 as _ <-.
  apply parseMDB_inv in Hp
    as (-> & Hnf & Hds & Hdl & Hn & Hbs & Has & Hnext & Hfree & Hlook).
  pose proof (header_written_fields info0 img0) as Hfields. cbv zeta in Hfields.
  destruct Hfields as (Fnf & Fds & Fdl & Fn & Fbs & Fas & Fnext & Ffree).
  assert (forall o, 1024 <= o -> o + 2 <= 1060 ->
            u16_at img2 o = u16_at (header_written info0 img0) o) as H16.
  { intros o ? ?. apply u16_at_ext. intros o' ?. destruct (Hhead o'); lia. }
  assert (forall o, 1024 <= o -> o + 4 <= 1060 ->
            u32_at img2 o = u32_at (header_written info0 img0) o) as H32.
  { intros o ? ?. apply u32_at_ext. intros o' ?. destruct (Hhead o'); lia. }
  rewrite H16 in Hnf, Hds, Hdl, Hn, Has, Hfree by lia.
  rewrite H32 in Hbs, Hnext by lia.
  rewrite Fnf in Hnf. rewrite Fds in Hds. rewrite Fdl in Hdl. rewrite Fn in Hn.
  rewrite Fbs in Hbs. rewrite Fas in Has. rewrite Fnext in Hnext. rewrite Ffree in Hfree.
  assert (VolumeInfo.numAllocBlocks info0 mod 65536 = n) as Hn0 by reflexivity.
  assert (VolumeInfo.freeAllocBlocks info0 mod 65536 = n) as Hfree0 by reflexivity.
  rewrite Hn0 in Hn. rewrite Hfree0 in Hfree.
  unfold _parseFileDirectory in H.
  cbv beta iota delta [bind the_volumeInfo] in H.
  cbn [volumeInfo set_abm set_volumeInfo set_image] in H.
  destruct (dv _ _) as [d v4| |] eqn:Hd; [|done..]. injection H as _ <-.
  apply dv_inv in Hd as (img4 & Hd & ->).
  cbn [image set_abm set_volumeInfo set_image] in Hd.
  apply parseFileDirectory_empty in Hd as [-> ->].
  2:{ rewrite Hds. apply Hz2. done. }
  cbn [image volumeInfo abm fileDirectory set_fileDirectory set_image set_abm
       set_volumeInfo].
  split; [by rewrite Hlen2, Hlen1, Hlen14|].
  split.
  { intros o. destruct (decide (1088 <= o)); [rewrite Hz2 by done; lia|].
    destruct (Hbytes2 o) as [->|[_ ->]]; [|lia].
    rewrite Hframe1 by lia. apply Hbuf14, header_written_is_buffer. intros o'.
    rewrite Hblank. lia. }
  split; [done|]. split; [exact Hnf|]. split; [exact Hds|]. split; [exact Hdl|].
  split; [exact Hn|]. split; [exact Hbs|]. split; [exact Has|]. split; [exact Hnext|].
  split; [exact Hfree|].
  intros k. rewrite Hlook, Hn. case_bool_decide; [|done].
  rewrite entry_at_zero; [done|exact Hz2|lia].
Qed.

(** *** The volumes the library makes *)

Lemma fresh_volume_eq : new_MFSVolume (Create None None) an_instant = Returns fresh_volume.
Proof.
  assert (match new_MFSVolume (Create None None) an_instant with
          | Returns _ => True
          | _ => False
          end) as H by (vm_compute; exact I).
  unfold fresh_volume.
  destruct (new_MFSVolume (Create None None) an_instant); [reflexivity|destruct H..].
Qed.

Lemma fresh_volume_reachable : reachable fresh_volume.
Proof. eapply reach_format, fresh_volume_eq. Qed.

Lemma formatNewImage_consistent sizeKB volumeName now v :
  _formatNewImage sizeKB volumeName now = Returns v -> consistent v.
Proof.
  intros H. apply formatNewImage_result in H.
  destruct H as (_ & _ & Hdir & _ & _ & _ & Hn & _ & _ & _ & Hfree & Habm).
  cbv zeta in *. split.
  - rewrite Hfree, Hn. unfold free_count. rewrite count_free_zeros.
    + rewrite Z2Nat.id; [done|]. apply Z.mod_pos_bound. lia.
    + intros k Hk. rewrite Habm, bool_decide_eq_true_2; [done|].
      rewrite Z2Nat.id in Hk; [lia|]. apply Z.mod_pos_bound. lia.
  - exists []. rewrite Hdir. split; [done|apply chains_ok_nil].
Qed.

Lemma createFile_consistent filename metadata now v r v' :
  consistent v -> createFile filename metadata now v = Done r v' -> consistent v'.
Proof.
  intros Hcons. unfold createFile. destruct (_ || _); [done|].
  destruct (_ || _ || _ || _); [done|]. by apply writeFile_consistent.
Qed.

Lemma perform_consistent c v v' :
  consistent v -> perform c v = Done tt v' -> consistent v'.
Proof.
  intros Hcons H. destruct c; cbn [perform] in H;
    apply bind_inv in H as (r & v1 & H & [= <-]).
  - by eapply createFile_consistent.
  - by eapply writeFile_consistent.
  - by eapply deleteFile_consistent.
Qed.

Lemma reachable_consistent v : reachable v -> consistent v.
Proof.
  induction 1 as [sizeKB volumeName now v Hnew|v c v' _ IH Hcall].
  - unfold new_MFSVolume in Hnew. by eapply formatNewImage_consistent.
  - by eapply perform_consistent.
Qed.

(** C3, as the specification states it, fails. On a fresh 400 KB volume
    (392 free blocks) a file "A" that is not on the volume is written with
    a data fork of one byte (one block) and a resource fork of 392 blocks:
    393 blocks are asked for. The call throws, but block 2 has been linked
    for the data fork and the counter of free blocks is 391: the allocation
    block map and the counter in memory are not those of before the call. *)
Lemma writeFile_disk_full_changes_memory :
  new_MFSVolume (Create None None) an_instant = Returns fresh_volume
  /\ match writeFile (js "A") (Some [1]) (Some whole_volume_fork) PNTG_MPNT an_instant
             fresh_volume with
     | Thrown msg v' =>
         msg = "Not enough free blocks in volume."
         /\ find_entry (fileDirectory fresh_volume) (js "A") 0 = None
         /\ blocks_needed (Some [1]) fresh_volume = 1
         /\ blocks_needed (Some whole_volume_fork) fresh_volume = 392
         /\ VolumeInfo.freeAllocBlocks (volumeInfo fresh_volume) = 392
         /\ abm fresh_volume !! 0 = Some 0
         /\ abm v' !! 0 = Some 1
         /\ VolumeInfo.freeAllocBlocks (volumeInfo v') = 391
     | _ => False
     end.
Proof. split; [apply fresh_volume_eq|]. vm_compute. repeat split. Qed.

Lemma writeFile_disk_full_witness :
  exists v',
    writeFile (js "A") (Some [1]) (Some whole_volume_fork) PNTG_MPNT an_instant fresh_volume
    = Thrown "Not enough free blocks in volume." v'
    /\ image v' = image fresh_volume
    /\ fileDirectory v' = fileDirectory fresh_volume
    /\ consistent v'.
Proof.
  destruct (writeFile_disk_full fresh_volume (js "A") (Some [1]) (Some whole_volume_fork)
              PNTG_MPNT an_instant) as (v' & Hthrown & Himage & Hdir & _ & Hcons & _).
  - apply reachable_consistent, fresh_volume_reachable.
  - by vm_compute.
  - by vm_compute.
  - by vm_compute.
  - by vm_compute.
  - exists v'. exact (conj Hthrown (conj Himage (conj Hdir Hcons))).
Defined.

(** C2: on every volume the library has formatted, whatever its size and
    name, and after any calls of [createFile], [writeFile] and [deleteFile]
    that returned, the counter of free blocks [freeAllocBlocks] (drFreeBks)
    is the number of entries of the allocation block map that are 0x000;
    moreover the forks of the files are chains of the map that share no
    block. *)
Theorem free_blocks_are_counted (v : Volume) :
  reachable v ->
  VolumeInfo.freeAllocBlocks (volumeInfo v)
  = free_count (abm v) (VolumeInfo.numAllocBlocks (volumeInfo v))
  /\ exists owned,
       fst <$> owned = forks (fileDirectory v)
       /\ chains_ok (abm v) (VolumeInfo.numAllocBlocks (volumeInfo v)) owned.
Proof. intros [Hfree Hchains]%reachable_consistent. by split. Qed.

Lemma free_blocks_are_counted_witness :
  exists v,
    (perform (WriteFile (js "A") (Some [1; 2; 3]) None PNTG_MPNT an_instant) ;;;
     perform (DeleteFile (js "A") an_instant) ;;;
     perform (WriteFile (js "B") None (Some (replicate 2000 7)) PNTG_MPNT an_instant))
      fresh_volume = Done tt v
    /\ VolumeInfo.numFiles (volumeInfo v) = 1
    /\ VolumeInfo.freeAllocBlocks (volumeInfo v) = 390
    /\ VolumeInfo.freeAllocBlocks (volumeInfo v)
       = free_count (abm v) (VolumeInfo.numAllocBlocks (volumeInfo v)).
Proof.
  assert (match (perform (WriteFile (js "A") (Some [1; 2; 3]) None PNTG_MPNT an_instant) ;;;
                 perform (DeleteFile (js "A") an_instant) ;;;
                 perform (WriteFile (js "B") None (Some (replicate 2000 7)) PNTG_MPNT
                            an_instant)) fresh_volume with
          | Done _ v =>
              VolumeInfo.numFiles (volumeInfo v) = 1
              /\ VolumeInfo.freeAllocBlocks (volumeInfo v) = 390
          | _ => False
          end) as Hrun by (vm_compute; split; reflexivity).
  destruct ((perform (WriteFile (js "A") (Some [1; 2; 3]) None PNTG_MPNT an_instant) ;;;
             perform (DeleteFile (js "A") an_instant) ;;;
             perform (WriteFile (js "B") None (Some (replicate 2000 7)) PNTG_MPNT
                        an_instant)) fresh_volume) as [[] v| |] eqn:E; [|destruct Hrun..].
  destruct Hrun as [Hfiles Hfree].
  exists v. split; [reflexivity|]. split; [exact Hfiles|]. split; [exact Hfree|].
  apply bind_inv in E as ([] & v1 & E1 & E).
  apply bind_inv in E as ([] & v2 & E2 & E3).
  apply (free_blocks_are_counted v).
  eapply reach_call; [|exact E3]. eapply reach_call; [|exact E2].
  eapply reach_call; [|exact E1]. apply fresh_volume_reachable.
Defined.

(** ** Writing a file and reading it back *)

(** ** Writing a file and reading it back *)

(** *** Writes that stay in their part of the image *)

Lemma writes_within_mono lo hi lo' hi' {A} (m : M Image A) :
  lo' <= lo -> hi <= hi' -> writes_within lo hi m -> writes_within lo' hi' m.
Proof.
  unfold writes_within. intros Hlo Hhi Hm img Hbuf H0 Hlen.
  destruct (Hm img Hbuf) as (a & img' & Heq & Hl & Hb & Hframe); [lia..|].
  exists a, img'. do 3 (split; [done|]). intros o Ho. apply Hframe. lia.
Qed.

Lemma writes_within_ret lo hi {A} (a : A) : writes_within lo hi (ret a).
Proof. unfold writes_within. intros img Hbuf _ _. by exists a, img. Qed.

Lemma writes_within_bind lo hi {A B} (m : M Image A) (k : A -> M Image B) :
  writes_within lo hi m -> (forall a, writes_within lo hi (k a)) ->
  writes_within lo hi (bind m k).
Proof.
  unfold writes_within. intros Hm Hk img Hbuf H0 Hlen.
  destruct (Hm img Hbuf H0 Hlen) as (a & img1 & Heq1 & Hl1 & Hb1 & Hframe1).
  destruct (Hk a img1 Hb1 H0) as (b & img2 & Heq2 & Hl2 & Hb2 & Hframe2); [lia|].
  exists b, img2. rewrite (bind_done _ _ _ _ _ Heq1). split; [done|].
  split; [lia|]. split; [done|]. intros o Ho. by rewrite Hframe2, Hframe1.
Qed.

Lemma writes_within_writeUint8 lo hi off v :
  lo <= off < hi -> writes_within lo hi (writeUint8 off v).
Proof.
  unfold writes_within. intros Hoff img Hbuf H0 Hlen. exists tt, (store img off v).
  rewrite writeUint8_ok by lia. split; [done|]. split; [done|].
  split; [by apply store_is_buffer|]. intros o Ho. apply byte_at_store_ne. lia.
Qed.

Lemma writes_within_writeUint16BE lo hi off v :
  lo <= off -> off + 2 <= hi -> writes_within lo hi (writeUint16BE off v).
Proof.
  unfold writes_within. intros Hlo Hhi img Hbuf H0 Hlen. exists tt, (store16 img off v).
  unfold writeUint16BE. rewrite in_buffer_true by lia. split; [done|]. split; [done|].
  split; [by apply store16_is_buffer|]. intros o Ho. apply byte_at_store16_ne. lia.
Qed.

Lemma writes_within_writeUint32BE lo hi off v :
  lo <= off -> off + 4 <= hi -> writes_within lo hi (writeUint32BE off v).
Proof.
  unfold writes_within. intros Hlo Hhi img Hbuf H0 Hlen. exists tt, (store32 img off v).
  unfold writeUint32BE. rewrite in_buffer_true by lia. split; [done|]. split; [done|].
  split; [by apply store32_is_buffer|]. intros o Ho. apply byte_at_store32_ne. lia.
Qed.

Lemma writes_within_write_bytes lo hi values : forall from,
  lo <= from -> from + Z.of_nat (length values) <= hi ->
  writes_within lo hi (write_bytes from values).
Proof.
  induction values as [|b rest IH]; intros from Hlo Hhi; cbn [write_bytes].
  - apply writes_within_ret.
  - cbn [length] in Hhi. apply writes_within_bind.
    + apply writes_within_writeUint8. lia.
    + intros _. apply IH; lia.
Qed.

Lemma writes_within_writePascalString off str fixedLength :
  1 <= fixedLength ->
  writes_within off (off + fixedLength) (writePascalString off str fixedLength).
Proof.
  intros Hfixed. unfold writePascalString.
  apply writes_within_bind; [apply writes_within_writeUint8; lia|intros _].
  apply writes_within_bind; [|intros _].
  - apply writes_within_write_bytes; [lia|]. rewrite length_take. lia.
  - apply writes_within_write_bytes; [lia|]. rewrite length_replicate. lia.
Qed.

Ltac writes_within_tac :=
  repeat first
    [ apply writes_within_ret
    | apply writes_within_writeUint8; lia
    | apply writes_within_writeUint16BE; lia
    | apply writes_within_writeUint32BE; lia
    | apply writes_within_bind; [|intros _] ].

Lemma writes_within_writeFileDirectoryEntry entryObject diskOffset :
  writes_within diskOffset (diskOffset + 308)
    (writeFileDirectoryEntry_image entryObject diskOffset).
Proof.
  unfold writeFileDirectoryEntry_image. cbv zeta.
  assert (0 <= Z.min (Z.of_nat (length (FileEntry.filename entryObject))) 255 <= 255)
    as Hlen by lia.
  do 2 (apply writes_within_bind; [apply writes_within_writeUint8; lia|intros _]).
  do 2 (apply writes_within_bind;
        [apply writes_within_write_bytes; [lia|rewrite length_fmap, length_seq; lia]
        |intros _]).
  do 12 (apply writes_within_bind;
         [first [apply writes_within_writeUint16BE; lia
                |apply writes_within_writeUint32BE; lia]|intros _]).
  apply writes_within_bind; [apply writes_within_writeUint8; lia|intros _].
  apply writes_within_bind;
    [apply writes_within_write_bytes; [lia|rewrite length_take; lia]|intros _].
  destruct (negb _); [apply writes_within_writeUint8; lia|apply writes_within_ret].
Qed.

Lemma writes_within_write_abm n abm :
  (forall k, 0 <= k < n -> is_abm_value (default 0 (abm !! k))) -> 0 <= n ->
  writes_within 1088 (1088 + (n + 1) / 2 * 3) (write_abm (passes_by_two n) n 1088 0 abm).
Proof.
  unfold writes_within. intros Hvals Hn img Hbuf _ Hlen.
  destruct (write_abm_spec 1088 n abm Hvals ltac:(lia) (passes_by_two n) 0 img Hbuf)
    as (img' & Heq & Hl & Hb & Hframe & _); try done; try lia.
  - unfold passes_by_two. rewrite Z2Nat.id by zlia. f_equal. lia.
  - exists tt, img'. do 3 (split; [done|]). intros o Ho. apply Hframe.
    change (0 / 2 * 3) with 0. lia.
Qed.

Lemma writes_within_writeMDB info abm :
  (forall k, 0 <= k < VolumeInfo.numAllocBlocks info -> is_abm_value (default 0 (abm !! k))) ->
  0 <= VolumeInfo.numAllocBlocks info ->
  writes_within 1024 (1088 + (VolumeInfo.numAllocBlocks info + 1) / 2 * 3)
    (writeMDB_image info abm).
Proof.
  intros Hvals Hn. unfold writeMDB_image. cbv zeta.
  assert (0 <= (VolumeInfo.numAllocBlocks info + 1) / 2 * 3) by zlia.
  do 13 (apply writes_within_bind;
         [first [apply writes_within_writeUint16BE; unfold MDB_START_SECTOR, SECTOR_SIZE; lia
                |apply writes_within_writeUint32BE; unfold MDB_START_SECTOR, SECTOR_SIZE; lia]
         |intros _]).
  apply writes_within_bind; [|intros _].
  - eapply writes_within_mono; [| |apply writes_within_writePascalString; lia].
    + by cbv.
    + change (MDB_START_SECTOR * SECTOR_SIZE + 36 + 28) with 1088. lia.
  - eapply writes_within_mono; [| |by apply writes_within_write_abm]; lia.
Qed.

(** *** The bytes of a fork *)

Lemma write_bytes_content values : forall from img r img',
  write_bytes from values img = Done r img' ->
  forall (i : nat) d, values !! i = Some d -> byte_at img' (from + Z.of_nat i) = d mod 256.
Proof.
  induction values as [|b rest IH]; intros from img r img' H i d Hi; [done|].
  cbn [write_bytes] in H. apply bind_inv in H as (? & img1 & Hw & H).
  apply writeUint8_inv in Hw as [-> _]. destruct i as [|i].
  - injection Hi as ->. apply write_bytes_frame in H as (_ & _ & Hframe).
    rewrite Z.add_0_r, Hframe by lia. apply byte_at_store_eq.
  - replace (from + Z.of_nat (S i)) with (from + 1 + Z.of_nat i) by lia.
    by eapply IH.
Qed.

Lemma is_bytes_lookup (data : list Z) (i : nat) d :
  PackBits.is_bytes data -> data !! i = Some d -> 0 <= d < 256.
Proof. intros Hb Hi. unfold PackBits.is_bytes in Hb. rewrite Forall_lookup in Hb. eauto. Qed.

Lemma block_ranges_disjoint info b b' o :
  0 < VolumeInfo.allocBlockSize info -> b <> b' ->
  blockDiskOffset info b <= o < blockDiskOffset info b + VolumeInfo.allocBlockSize info ->
  ~ (blockDiskOffset info b' <= o
     < blockDiskOffset info b' + VolumeInfo.allocBlockSize info).
Proof. unfold blockDiskOffset. intros Hbs Hne Ho Ho'. nia. Qed.

Lemma write_fork_ok info data :
  0 < VolumeInfo.allocBlockSize info -> PackBits.is_bytes data ->
  forall blocks written img,
    is_buffer img -> NoDup blocks ->
    (forall b, b ∈ blocks -> block_in_buffer img info b) ->
    0 <= written <= Z.of_nat (length data) ->
    Z.of_nat (length data)
    <= written + Z.of_nat (length blocks) * VolumeInfo.allocBlockSize info ->
    exists img',
      write_fork blocks info data written img = Done tt img'
      /\ byteLength img' = byteLength img
      /\ is_buffer img'
      /\ (forall o,
            (forall b, b ∈ blocks ->
               ~ (blockDiskOffset info b <= o
                  < blockDiskOffset info b + VolumeInfo.allocBlockSize info)) ->
            byte_at img' o = byte_at img o)
      /\ (forall (i : nat) d,
            written <= Z.of_nat i -> data !! i = Some d ->
            exists b,
              blocks !! Z.to_nat ((Z.of_nat i - written) / VolumeInfo.allocBlockSize info)
              = Some b
              /\ byte_at img'
                   (blockDiskOffset info b
                    + (Z.of_nat i - written) mod VolumeInfo.allocBlockSize info) = d).
Proof.
  intros Hbs Hbytes. set (bs := VolumeInfo.allocBlockSize info) in *.
  induction blocks as [|b rest IH]; intros written img Hbuf Hnd Hin Hw Hlen.
  - exists img. split; [done|]. split; [done|]. split; [done|]. split; [done|].
    intros i d Hi Hd. apply lookup_lt_Some in Hd. cbn [length] in Hlen. lia.
  - cbn [write_fork]. fold bs.
    apply NoDup_cons in Hnd as [Hb Hnd].
    destruct (Hin b) as [Hoff0 Hoff1]; [set_solver|]. fold bs in Hoff1.
    set (k := Z.min bs (Z.of_nat (length data) - written)).
    set (part := take (Z.to_nat k) (drop (Z.to_nat written) data)).
    assert (Z.of_nat (length part) = k) as Hpart.
    { unfold part. rewrite length_take, length_drop. lia. }
    destruct (writes_within_write_bytes (blockDiskOffset info b)
                (blockDiskOffset info b + k) part (blockDiskOffset info b)
                ltac:(lia) ltac:(lia) img Hbuf ltac:(lia) ltac:(lia))
      as ([] & img1 & Hw1 & Hlen1 & Hbuf1 & Hframe1).
    rewrite (bind_done _ _ _ _ _ Hw1).
    assert (forall (i : nat) d,
              written <= Z.of_nat i < written + k -> data !! i = Some d ->
              byte_at img1 (blockDiskOffset info b + (Z.of_nat i - written)) = d)
      as Hcontent1.
    { intros i d Hi Hd.
      replace (Z.of_nat i - written) with (Z.of_nat (i - Z.to_nat written)%nat) by lia.
      rewrite (write_bytes_content _ _ _ _ _ Hw1 _ d).
      - apply Z.mod_small. by eapply is_bytes_lookup.
      - unfold part. rewrite lookup_take_lt by lia. rewrite lookup_drop.
        rewrite <- Hd. f_equal. lia. }
    destruct (Z.leb_spec (Z.of_nat (length data)) (written + k)) as [Hdone|Hmore].
    + exists img1. split; [done|]. split; [done|]. split; [done|]. split.
      * intros o Ho. apply Hframe1. specialize (Ho b ltac:(set_solver)). fold bs in Ho. lia.
      * intros i d Hi Hd. pose proof (lookup_lt_Some _ _ _ Hd) as Hlt.
        exists b. rewrite Z.div_small, Z.mod_small by lia. split; [done|].
        apply Hcontent1; [lia|done].
    + assert (k = bs) as Hk by lia.
      destruct (IH (written + k) img1 Hbuf1 Hnd) as (img' & Heq & Hl' & Hbuf' & Hframe' & Hcont');
        [|lia|cbn [length] in Hlen; lia|].
      { intros b' Hin'. destruct (Hin b') as [? ?]; [set_solver|]. split; [done|lia]. }
      exists img'. split; [done|]. split; [lia|]. split; [done|]. split.
      * intros o Ho. rewrite Hframe'; [|intros b' Hin'; apply Ho; set_solver].
        apply Hframe1. specialize (Ho b ltac:(set_solver)). fold bs in Ho. lia.
      * intros i d Hi Hd.
        destruct (Z.ltb_spec (Z.of_nat i) (written + bs)) as [Hfirst|Hlater].
        -- exists b. rewrite Z.div_small, Z.mod_small by lia. split; [done|].
           rewrite Hframe'; [apply Hcontent1; [lia|done]|].
           intros b' Hin'. apply (block_ranges_disjoint info b b'); [done|set_solver|].
           fold bs. lia.
        -- destruct (Hcont' i d ltac:(lia) Hd) as (b' & Hlook & Hbyte).
           exists b'. rewrite Hk in Hlook, Hbyte.
           replace (Z.of_nat i - written) with (Z.of_nat i - (written + bs) + 1 * bs) by lia.
           rewrite Z.div_add, Z.mod_add by lia. split; [|done].
           replace (Z.to_nat ((Z.of_nat i - (written + bs)) / bs + 1))
             with (S (Z.to_nat ((Z.of_nat i - (written + bs)) / bs))); [done|].
           assert (0 <= (Z.of_nat i - (written + bs)) / bs) by (apply Z.div_pos; lia).
           lia.
Qed.

Lemma set_image_id v : set_image (image v) v = v.
Proof. by destruct v. Qed.

Lemma read_block_ok blockOffset bytesRead img : forall count i forkData,
  0 <= blockOffset + i -> blockOffset + i + Z.of_nat count <= byteLength img ->
  0 <= bytesRead + i -> bytesRead + i + Z.of_nat count <= Z.of_nat (length forkData) ->
  exists forkData',
    read_block count blockOffset bytesRead i forkData img = Done (Some forkData') img
    /\ length forkData' = length forkData
    /\ forall k : nat,
         forkData' !! k
         = if bool_decide (bytesRead + i <= Z.of_nat k < bytesRead + i + Z.of_nat count)
           then Some (byte_at img (blockOffset + (Z.of_nat k - bytesRead)))
           else forkData !! k.
Proof.
  induction count as [|count IH]; intros i forkData Hoff0 Hoff1 Hfd0 Hfd1.
  - exists forkData. split; [done|]. split; [done|]. intros k.
    by rewrite bool_decide_eq_false_2 by lia.
  - cbn [read_block]. rewrite bind_get.
    destruct (Z.ltb_spec (blockOffset + i) (byteLength img)); [|lia].
    destruct (Z.ltb_spec (bytesRead + i) (Z.of_nat (length forkData))); [|lia].
    cbn [andb]. step_read.
    destruct (IH (i + 1)
                (<[Z.to_nat (bytesRead + i) := byte_at img (blockOffset + i)]> forkData))
      as (fd' & Heq & Hlen & Hlook); [lia|lia|lia|rewrite length_insert; lia|].
    exists fd'. split; [done|]. rewrite length_insert in Hlen. split; [done|].
    intros k. rewrite Hlook.
    destruct (decide (Z.of_nat k = bytesRead + i)) as [Hk|Hk].
    + rewrite bool_decide_eq_false_2 by lia. rewrite bool_decide_eq_true_2 by lia.
      replace (Z.to_nat (bytesRead + i)) with k by lia.
      rewrite list_lookup_insert_eq by lia. do 2 f_equal. lia.
    + rewrite list_lookup_insert_ne by lia.
      destruct (decide (bytesRead + (i + 1) <= Z.of_nat k
                        < bytesRead + (i + 1) + Z.of_nat count)).
      * rewrite !bool_decide_eq_true_2 by lia. done.
      * rewrite !bool_decide_eq_false_2 by lia. done.
Qed.

(** Reading the chain of a fork whose bytes are in its blocks gives the
    bytes back. *)
Lemma read_chain_ok v data blocks :
  let info := volumeInfo v in
  0 < VolumeInfo.allocBlockSize info ->
  fork_stored (image v) info blocks data ->
  (forall b, b ∈ blocks -> block_in_buffer (image v) info b) ->
  (Z.of_nat (length blocks) - 1) * VolumeInfo.allocBlockSize info < Z.of_nat (length data)
  <= Z.of_nat (length blocks) * VolumeInfo.allocBlockSize info ->
  forall rest start before fuel forkData,
    blocks = before ++ rest ->
    chain (abm v) (VolumeInfo.numAllocBlocks info) start rest ->
    Z.of_nat (length data) <= Z.of_nat (length forkData) ->
    (forall k : nat,
       Z.of_nat k < Z.of_nat (length before) * VolumeInfo.allocBlockSize info ->
       forkData !! k = data !! k) ->
    (length rest <= fuel)%nat ->
    read_chain fuel (Z.of_nat (length data)) forkData
      (Z.of_nat (length before) * VolumeInfo.allocBlockSize info) (Some start) v
    = Done data v.
Proof.
  intros info Hbs Hstored Hin Hsize. set (bs := VolumeInfo.allocBlockSize info) in *.
  assert (forall fd : list Z,
            Z.of_nat (length data) <= Z.of_nat (length fd) ->
            (forall k : nat, Z.of_nat k < Z.of_nat (length data) -> fd !! k = data !! k) ->
            take (Z.to_nat (Z.of_nat (length data))) fd = data) as Hfinish.
  { intros fd Hlen Hsame. rewrite Nat2Z.id. apply list_eq. intros k.
    destruct (decide (k < length data)%nat).
    - rewrite lookup_take_lt by done. apply Hsame. lia.
    - rewrite lookup_take_ge by lia. symmetry. apply lookup_ge_None. lia. }
  induction rest as [|b0 rest IH]; intros start before fuel forkData Hblocks Hchain
    Hfd Hsame Hfuel; inversion Hchain as [b Hb Hlast|b next rest' Hb Hnext Hn Hrest];
    subst.
  - (* the last block *)
    rewrite length_app in Hsize. cbn [length] in Hsize.
    destruct fuel as [|fuel]; [cbn in Hfuel; lia|]. cbn [read_chain].
    destruct (Z.eqb_spec b0 1); [lia|]. destruct (Z.eqb_spec b0 0); [lia|].
    destruct (Z.leb_spec 2 b0); [|lia].
    destruct (Z.ltb_spec (Z.of_nat (length before) * bs) (Z.of_nat (length data))); [|lia].
    cbn [negb andb]. cbv beta iota delta [bind the_volumeInfo]. fold info. fold bs.
    set (k := Z.min bs (Z.of_nat (length data) - Z.of_nat (length before) * bs)).
    destruct (Hin b0) as [Hoff0 Hoff1]; [set_solver|]. fold bs in Hoff1.
    destruct (read_block_ok (blockDiskOffset info b0) (Z.of_nat (length before) * bs)
                (image v) (Z.to_nat k) 0 forkData) as (fd' & Heq & Hlen & Hlook); [lia..|].
    unfold dv, zoom. rewrite Heq, set_image_id. unfold _getABMEntry. fold info.
    rewrite orb_false_intro by lia. rewrite Hlast. cbn [Z.eqb Pos.eqb]. cbv beta iota delta [ret].
    f_equal. apply Hfinish; [lia|]. intros j Hj. rewrite Hlook. subst k.
    case_bool_decide as Hrange; [|apply Hsame; lia].
    destruct (lookup_lt_is_Some_2 data j ltac:(lia)) as [d Hd]. rewrite Hd.
    destruct (Hstored j d Hd) as (b & Hlookb & Hbyte). f_equal. rewrite <- Hbyte.
    fold bs in Hlookb |- *.
    assert (Z.of_nat j / bs = Z.of_nat (length before)) as Hdiv
      by (symmetry; apply Z.div_unique with (Z.of_nat j - Z.of_nat (length before) * bs);
          lia).
    rewrite Hdiv, Nat2Z.id, list_lookup_middle in Hlookb by done.
    injection Hlookb as <-. do 2 f_equal.
    apply Z.mod_unique with (Z.of_nat (length before)); lia.
  - (* a block with a successor *)
    rewrite length_app in Hsize. cbn [length] in Hsize.
    assert (1 <= length rest)%nat as Hrest1 by (destruct Hrest; cbn; lia).
    destruct fuel as [|fuel]; [cbn in Hfuel; lia|]. cbn [read_chain].
    destruct (Z.eqb_spec b0 1); [lia|]. destruct (Z.eqb_spec b0 0); [lia|].
    destruct (Z.leb_spec 2 b0); [|lia].
    destruct (Z.ltb_spec (Z.of_nat (length before) * bs) (Z.of_nat (length data))); [|nia].
    cbn [negb andb]. cbv beta iota delta [bind the_volumeInfo]. fold info. fold bs.
    assert (Z.min bs (Z.of_nat (length data) - Z.of_nat (length before) * bs) = bs) as ->
      by nia.
    destruct (Hin b0) as [Hoff0 Hoff1]; [set_solver|]. fold bs in Hoff1.
    destruct (read_block_ok (blockDiskOffset info b0) (Z.of_nat (length before) * bs)
                (image v) (Z.to_nat bs) 0 forkData) as (fd' & Heq & Hlen & Hlook);
      [lia|lia|lia|nia|].
    unfold dv, zoom. rewrite Heq, set_image_id. unfold _getABMEntry. fold info.
    rewrite orb_false_intro by lia. rewrite Hnext.
    destruct (Z.eqb_spec next 1); [lia|].
    rewrite !orb_false_intro by lia.
    replace (Z.of_nat (length before) * bs + bs)
      with (Z.of_nat (length (before ++ [b0])) * bs)
      by (rewrite length_app; cbn [length]; lia).
    apply IH; [by rewrite <- app_assoc|done|lia| |cbn [length] in Hfuel; lia].
    intros j Hj. rewrite length_app in Hj. cbn [length] in Hj. rewrite Hlook.
    case_bool_decide as Hrange; [|apply Hsame; lia].
    destruct (lookup_lt_is_Some_2 data j ltac:(nia)) as [d Hd]. rewrite Hd.
    destruct (Hstored j d Hd) as (b & Hlookb & Hbyte). f_equal. rewrite <- Hbyte.
    fold bs in Hlookb |- *.
    assert (Z.of_nat j / bs = Z.of_nat (length before)) as Hdiv
      by (symmetry; apply Z.div_unique with (Z.of_nat j - Z.of_nat (length before) * bs);
          lia).
    rewrite Hdiv, Nat2Z.id, list_lookup_middle in Hlookb by done.
    injection Hlookb as <-. do 2 f_equal.
    apply Z.mod_unique with (Z.of_nat (length before)); lia.
Qed.

(** *** The steps of writeFile *)

Lemma allocate_fork_ok k v :
  consistent v ->
  0 <= k <= VolumeInfo.freeAllocBlocks (volumeInfo v) ->
  VolumeInfo.numAllocBlocks (volumeInfo v) + 1 <= 0xFFF ->
  let blocks := free_blocks (abm v) (VolumeInfo.numAllocBlocks (volumeInfo v)) k in
  allocate_fork (Some k) v
  = Done (default 0 (head blocks), blocks)
      (realloc (link (abm v) blocks) (VolumeInfo.freeAllocBlocks (volumeInfo v) - k) v)
  /\ Z.of_nat (length blocks) = k.
Proof.
  intros Hcons Hk Hn blocks. split.
  - unfold allocate_fork. destruct (Z.ltb_spec 0 k).
    + apply allocateBlockChain_ok; [lia|apply Hcons|done].
    + assert (k = 0) as -> by lia. unfold blocks, free_blocks.
      change (Z.to_nat 0) with 0%nat. rewrite take_0. cbn [fmap list_fmap link].
      by rewrite Z.sub_0_r, realloc_id.
  - unfold blocks. rewrite free_blocks_length by lia. destruct Hcons as [<- _]. lia.
Qed.

Lemma block_in_buffer_range img info b :
  0 < VolumeInfo.allocBlockSize info ->
  1088 <= VolumeInfo.allocBlockStartSector info * SECTOR_SIZE ->
  VolumeInfo.allocBlockStartSector info * SECTOR_SIZE
  + VolumeInfo.numAllocBlocks info * VolumeInfo.allocBlockSize info <= byteLength img ->
  2 <= b < VolumeInfo.numAllocBlocks info + 2 ->
  block_in_buffer img info b
  /\ VolumeInfo.allocBlockStartSector info * SECTOR_SIZE <= blockDiskOffset info b.
Proof. unfold block_in_buffer, blockDiskOffset. intros. nia. Qed.

Lemma fork_stored_nil img info blocks : fork_stored img info blocks [].
Proof. intros i d Hd. done. Qed.

Lemma fork_stored_ext img img' info blocks data :
  fork_stored img info blocks data ->
  0 < VolumeInfo.allocBlockSize info ->
  (forall b o, b ∈ blocks ->
     blockDiskOffset info b <= o < blockDiskOffset info b + VolumeInfo.allocBlockSize info ->
     byte_at img' o = byte_at img o) ->
  fork_stored img' info blocks data.
Proof.
  intros Hs Hbs Hsame i d Hd. destruct (Hs i d Hd) as (b & Hb & Hbyte).
  exists b. split; [done|]. rewrite (Hsame b); [done|by eapply list_elem_of_lookup_2|].
  pose proof (Z.mod_pos_bound (Z.of_nat i) (VolumeInfo.allocBlockSize info) Hbs). lia.
Qed.

(** The step of [writeFile] that writes a fork. *)
Lemma fork_written (content : option (list Z)) (allocated : list Z) v :
  let info := volumeInfo v in
  let data := default [] content in
  0 < VolumeInfo.allocBlockSize info -> is_buffer (image v) ->
  PackBits.is_bytes data -> NoDup allocated ->
  (forall b, b ∈ allocated -> block_in_buffer (image v) info b) ->
  Z.of_nat (length data) <= Z.of_nat (length allocated) * VolumeInfo.allocBlockSize info ->
  (allocated = [] -> data = []) ->
  exists img',
    match content with
    | Some content =>
        if 0 <? Z.of_nat (length allocated) then _writeForkData content allocated else ret tt
    | None => ret tt
    end v = Done tt (set_image img' v)
    /\ byteLength img' = byteLength (image v)
    /\ is_buffer img'
    /\ (forall o,
          (forall b, b ∈ allocated ->
             ~ (blockDiskOffset info b <= o
                < blockDiskOffset info b + VolumeInfo.allocBlockSize info)) ->
          byte_at img' o = byte_at (image v) o)
    /\ fork_stored img' info allocated data.
Proof.
  intros info data Hbs Hbuf Hbytes Hnd Hin Hsize Hempty.
  assert (exists img', ret tt v = Done tt (set_image img' v)
            /\ byteLength img' = byteLength (image v) /\ is_buffer img'
            /\ (forall o : Z, byte_at img' o = byte_at (image v) o)) as Hnothing.
  { exists (image v). by rewrite set_image_id. }
  destruct content as [content|]; cbn [default from_option] in data.
  2:{ destruct Hnothing as (img' & Heq & Hl & Hb & Hsame). exists img'.
      do 3 (split; [done|]). split; [by intros; apply Hsame|apply fork_stored_nil]. }
  destruct (Z.ltb_spec 0 (Z.of_nat (length allocated))) as [Hsome|Hnone].
  2:{ destruct Hnothing as (img' & Heq & Hl & Hb & Hsame). exists img'.
      do 3 (split; [done|]). split; [by intros; apply Hsame|].
      rewrite (Hempty ltac:(by destruct allocated; [|cbn in Hnone; lia])).
      apply fork_stored_nil. }
  destruct (write_fork_ok info data Hbs Hbytes allocated 0 (image v) Hbuf Hnd Hin)
    as (img' & Heq & Hl & Hb & Hframe & Hcontent); [lia|lia|].
  exists img'. unfold _writeForkData. cbv beta iota delta [bind the_volumeInfo].
  unfold dv, zoom. fold info. unfold id in data. fold data. rewrite Heq.
  do 4 (split; [done|]). intros i d Hd.
  destruct (Hcontent i d ltac:(lia) Hd) as (b & Hlook & Hbyte).
  rewrite Z.sub_0_r in Hlook, Hbyte. by exists b.
Qed.

Lemma find_entry_None dir filename i :
  find_entry dir filename i = None <-> filename ∉ (FileEntry.filename <$> dir).
Proof.
  revert i. induction dir as [|e dir IH]; intros i; cbn [find_entry fmap list_fmap].
  - split; [intros _; apply not_elem_of_nil|done].
  - rewrite not_elem_of_cons. case_bool_decide as Hname.
    + split; [done|]. intros [Hne _]. by destruct Hne.
    + rewrite IH. split; [intros; split; [congruence|done]|by intros [_ ?]].
Qed.

Lemma find_entry_app_new dir filename e i :
  filename ∉ (FileEntry.filename <$> dir) -> FileEntry.filename e = filename ->
  find_entry (dir ++ [e]) filename i = Some (e, (i + length dir)%nat).
Proof.
  revert i. induction dir as [|e' dir IH]; intros i Hnew He; cbn [find_entry app length].
  - rewrite bool_decide_eq_true_2 by done. by rewrite Nat.add_0_r.
  - cbn [fmap list_fmap] in Hnew. apply not_elem_of_cons in Hnew as [Hne Hnew].
    rewrite bool_decide_eq_false_2 by congruence. rewrite IH by done. do 2 f_equal. lia.
Qed.

Lemma last_entry_end_nonneg start dir : 0 <= last_entry_end start dir.
Proof.
  unfold last_entry_end.
  assert (forall acc, acc <= foldl (fun lastEntryEndOffset entry =>
                            Z.max lastEntryEndOffset
                              (FileEntry._diskOffset entry - start
                               + FileEntry._entryLength entry)) acc dir) as H; [|apply H].
  induction dir as [|e dir IH]; intros acc; cbn [foldl]; [done|].
  etransitivity; [|apply IH]. lia.
Qed.

(** The state that [writeFile] leaves for a file that is not yet on the
    volume, when the forks fit and the directory has room. *)
Lemma writeFile_new v filename data rsrc metadata now :
  well_formed v ->
  filename ∉ filenames v ->
  PackBits.is_bytes (default [] data) -> PackBits.is_bytes (default [] rsrc) ->
  blocks_needed data v + blocks_needed rsrc v <= VolumeInfo.freeAllocBlocks (volumeInfo v) ->
  last_entry_end (VolumeInfo.dirStartBlock (volumeInfo v) * SECTOR_SIZE) (fileDirectory v) + 52
  <= VolumeInfo.dirLengthBlocks (volumeInfo v) * SECTOR_SIZE ->
  exists e img' info' bd br,
    writeFile filename data rsrc metadata now v
    = Done (Some (file_info e))
        (mkVolume img' info' (link (link (abm v) bd) br) (fileDirectory v ++ [e]))
    /\ FileEntry.filename e = filename
    /\ FileEntry.dataForkStartBlock e = default 0 (head bd)
    /\ FileEntry.dataForkLogicalLength e = Z.of_nat (length (default [] data))
    /\ FileEntry.dataForkAllocLength e
       = Z.of_nat (length bd) * VolumeInfo.allocBlockSize (volumeInfo v)
    /\ FileEntry.resourceForkStartBlock e = default 0 (head br)
    /\ FileEntry.resourceForkLogicalLength e = Z.of_nat (length (default [] rsrc))
    /\ FileEntry.resourceForkAllocLength e
       = Z.of_nat (length br) * VolumeInfo.allocBlockSize (volumeInfo v)
    /\ 0 <= FileEntry._diskOffset e < byteLength (image v)
    /\ byteLength img' = byteLength (image v)
    /\ is_buffer img'
    /\ info' = VolumeInfo.set_modificationDate (Some now)
                 (VolumeInfo.set_numFiles (VolumeInfo.numFiles (volumeInfo v) + 1)
                    (VolumeInfo.set_nextFileNum (VolumeInfo.nextFileNum (volumeInfo v) + 1)
                       (VolumeInfo.set_freeAllocBlocks
                          (VolumeInfo.freeAllocBlocks (volumeInfo v)
                           - Z.of_nat (length bd) - Z.of_nat (length br)) (volumeInfo v))))
    /\ bd = free_blocks (abm v) (VolumeInfo.numAllocBlocks (volumeInfo v))
              (blocks_needed data v)
    /\ br = free_blocks (link (abm v) bd) (VolumeInfo.numAllocBlocks (volumeInfo v))
              (blocks_needed rsrc v)
    /\ Z.of_nat (length bd) = blocks_needed data v
    /\ Z.of_nat (length br) = blocks_needed rsrc v
    /\ fork_stored img' (volumeInfo v) bd (default [] data)
    /\ fork_stored img' (volumeInfo v) br (default [] rsrc)
    /\ fork_chain (link (link (abm v) bd) br) (VolumeInfo.numAllocBlocks (volumeInfo v))
         (default 0 (head bd)) bd
    /\ fork_chain (link (link (abm v) bd) br) (VolumeInfo.numAllocBlocks (volumeInfo v))
         (default 0 (head br)) br
    /\ (forall k, 0 <= k < VolumeInfo.numAllocBlocks (volumeInfo v) ->
          is_abm_value (default 0 (link (link (abm v) bd) br !! k))).
Proof.
  intros Hwf Hnew Hdbytes Hrbytes Hfit Hroom.
  destruct Hwf as [Hcons Hbuf Hbs [Hn0 Hn] Hmap (Hds & Hdl & Hdir) Hblocks Hvals Hentries _].
  set (info := volumeInfo v) in *. set (bs := VolumeInfo.allocBlockSize info) in *.
  set (n := VolumeInfo.numAllocBlocks info) in *.
  unfold blocks_needed in *. fold info in Hfit |- *. fold bs in Hfit |- *.
  destruct (blocks_for_spec (byteLength_of data) bs Hbs) as (nd & Hd & Hd0 & Hd1).
  destruct (blocks_for_spec (byteLength_of rsrc) bs Hbs) as (nr & Hr & Hr0 & Hr1).
  rewrite Hd, Hr in Hfit |- *. cbn [default from_option] in Hfit |- *. unfold id in Hfit |- *.
  assert (0 <= nd /\ 0 <= nr) as [Hnd0 Hnr0].
  { destruct (Z.ltb_spec 0 (byteLength_of data)); destruct (Z.ltb_spec 0 (byteLength_of rsrc)); lia. }
  assert (byteLength_of data = Z.of_nat (length (default [] data))) as Hdlen by (by destruct data).
  assert (byteLength_of rsrc = Z.of_nat (length (default [] rsrc))) as Hrlen by (by destruct rsrc).
  (* the two allocations *)
  destruct (allocate_fork_ok nd v Hcons ltac:(fold info; lia) ltac:(fold info; fold n; lia))
    as [Halloc_d Hlen_d]. fold info n in Halloc_d, Hlen_d.
  set (bd := free_blocks (abm v) n nd) in *.
  pose proof (consistent_alloc v nd Hcons Hlen_d) as Hcons1. fold info n bd in Hcons1.
  set (v1 := realloc (link (abm v) bd) (VolumeInfo.freeAllocBlocks info - nd) v) in *.
  destruct (allocate_fork_ok nr v1 Hcons1 ltac:(cbn; fold info; lia) ltac:(cbn; fold info n; lia))
    as [Halloc_r Hlen_r].
  cbn [v1 realloc abm volumeInfo VolumeInfo.numAllocBlocks VolumeInfo.freeAllocBlocks
       VolumeInfo.set_freeAllocBlocks] in Halloc_r, Hlen_r. fold info n in Halloc_r, Hlen_r.
  set (br := free_blocks (link (abm v) bd) n nr) in *.
  unfold writeFile. cbv beta iota delta [bind _findFileEntryByName the_volumeInfo ret].
  unfold filenames in Hnew. rewrite (proj2 (find_entry_None _ _ 0%nat) Hnew).
  fold info bs. rewrite Hd, Hr, Halloc_d. cbv beta iota. rewrite Halloc_r. cbv beta iota.
  (* the directory slot *)
  set (slot := VolumeInfo.dirStartBlock info * SECTOR_SIZE
               + last_entry_end (VolumeInfo.dirStartBlock info * SECTOR_SIZE) (fileDirectory v)).
  assert (0 <= slot /\ slot + 308 <= byteLength (image v)) as [Hslot0 Hslot1].
  { pose proof (last_entry_end_nonneg (VolumeInfo.dirStartBlock info * SECTOR_SIZE)
                  (fileDirectory v)).
    unfold slot, SECTOR_SIZE in *. lia. }
  subst v1. unfold _findFreeDirectorySlot, update_volumeInfo, realloc.
  cbn [volumeInfo fileDirectory image abm set_volumeInfo VolumeInfo.dirStartBlock
       VolumeInfo.dirLengthBlocks VolumeInfo.set_freeAllocBlocks VolumeInfo.nextFileNum
       VolumeInfo.allocBlockSize fst snd default from_option].
  fold info. rewrite (proj2 (Z.leb_le _ _) Hroom). fold slot. cbv beta iota.
  cbn [volumeInfo fileDirectory image abm set_volumeInfo VolumeInfo.dirStartBlock
       VolumeInfo.dirLengthBlocks VolumeInfo.set_freeAllocBlocks VolumeInfo.nextFileNum
       VolumeInfo.set_nextFileNum
       VolumeInfo.allocBlockSize fst snd default from_option].
  unfold id.
  lazymatch goal with
  | |- context [_writeFileDirectoryEntry ?e0 slot ?s] => set (e := e0); set (v3 := s)
  end.
  destruct (writes_within_writeFileDirectoryEntry e slot (image v) Hbuf Hslot0 Hslot1)
    as ([] & img4 & Heq4 & Hlen4 & Hbuf4 & Hframe4).
  assert (_writeFileDirectoryEntry e slot v3 = Done tt (set_image img4 v3)) as ->.
  { unfold _writeFileDirectoryEntry, dv, zoom. change (image v3) with (image v).
    by rewrite Heq4. }
  cbv beta iota.
  assert (0 <= (n + 1) / 2 * 3) as Hmap0 by zlia.
  assert (1088 <= VolumeInfo.allocBlockStartSector info * SECTOR_SIZE) as Hstart
    by (fold n in Hmap; lia).
  assert (forall img b, byteLength img = byteLength (image v) -> 2 <= b < n + 2 ->
            block_in_buffer img info b
            /\ VolumeInfo.allocBlockStartSector info * SECTOR_SIZE <= blockDiskOffset info b)
    as Hrange.
  { intros img b Hl Hb. apply block_in_buffer_range; [done|done|by rewrite Hl|done]. }
  assert (forall b, b ∈ bd -> 2 <= b < n + 2 /\ abm v !! (b - 2) = Some 0) as Hbd
    by apply free_blocks_spec.
  assert (forall b, b ∈ br -> 2 <= b < n + 2 /\ link (abm v) bd !! (b - 2) = Some 0) as Hbr
    by apply free_blocks_spec.
  pose proof (chains_ok_alloc (abm v) n [] bd (chains_ok_nil _ _)
                (free_blocks_NoDup _ _ _) Hbd) as Hok1.
  pose proof (chains_ok_alloc _ n _ br Hok1 (free_blocks_NoDup _ _ _) Hbr) as Hok2.
  cbn [app] in Hok1, Hok2.
  (* the data fork *)
  destruct (fork_written data bd (set_image img4 v3))
    as (img5 & Heq5 & Hlen5 & Hbuf5 & Hframe5 & Hstored5).
  { exact Hbs. } { exact Hbuf4. } { exact Hdbytes. } { apply free_blocks_NoDup. }
  { intros b Hb. apply (Hrange img4 b Hlen4). by apply Hbd. }
  { change (Z.of_nat (length (default [] data)) <= Z.of_nat (length bd) * bs).
    destruct (Z.ltb_spec 0 (byteLength_of data)); lia. }
  { intros Hnil. apply nil_length_inv. rewrite Hnil in Hlen_d. cbn in Hlen_d.
    destruct (Z.ltb_spec 0 (byteLength_of data)); lia. }
  unfold ret in Heq5. rewrite Heq5. cbv beta iota.
  change (image (set_image img4 v3)) with img4 in *.
  change (volumeInfo (set_image img4 v3)) with (volumeInfo v3) in *.
  (* the resource fork *)
  destruct (fork_written rsrc br (set_image img5 (set_image img4 v3)))
    as (img6 & Heq6 & Hlen6 & Hbuf6 & Hframe6 & Hstored6).
  { exact Hbs. } { exact Hbuf5. } { exact Hrbytes. } { apply free_blocks_NoDup. }
  { intros b Hb. apply (Hrange img5 b); [congruence|by apply Hbr]. }
  { change (Z.of_nat (length (default [] rsrc)) <= Z.of_nat (length br) * bs).
    destruct (Z.ltb_spec 0 (byteLength_of rsrc)); lia. }
  { intros Hnil. apply nil_length_inv. rewrite Hnil in Hlen_r. cbn in Hlen_r.
    destruct (Z.ltb_spec 0 (byteLength_of rsrc)); lia. }
  unfold ret in Heq6. rewrite Heq6. cbv beta iota.
  change (image (set_image img5 (set_image img4 v3))) with img5 in *.
  change (volumeInfo (set_image img5 (set_image img4 v3))) with (volumeInfo v3) in *.
  (* the master directory block *)
  lazymatch goal with |- context [_writeMDB ?s] => set (v8 := s) end.
  assert (forall k, 0 <= k < VolumeInfo.numAllocBlocks (volumeInfo v8) ->
            is_abm_value (default 0 (abm v8 !! k))) as Hvals8.
  { intros k Hk. change (abm v8) with (link (link (abm v) bd) br).
    destruct (link (link (abm v) bd) br !! k) as [x|] eqn:Hx; [|cbn; unfold is_abm_value; lia].
    cbn [default from_option]. unfold id. revert Hx. apply link_values.
    - intros y. apply link_values.
      + intros z Hz. specialize (Hvals k Hk). by rewrite Hz in Hvals.
      + intros b Hb. apply Hbd in Hb. unfold is_abm_value. lia.
    - intros b Hb. apply Hbr in Hb. unfold is_abm_value. lia. }
  destruct (writes_within_writeMDB (volumeInfo v8) (abm v8) Hvals8 Hn0 img6 Hbuf6)
    as ([] & img7 & Heq7 & Hlen7 & Hbuf7 & Hframe7); [lia| |].
  { change (VolumeInfo.numAllocBlocks (volumeInfo v8)) with n.
    assert (0 <= n * bs) by nia. unfold SECTOR_SIZE in *. lia. }
  change (VolumeInfo.numAllocBlocks (volumeInfo v8)) with n in Hframe7.
  assert (_writeMDB v8 = Done tt (set_image img7 v8)) as ->.
  { unfold _writeMDB, dv, zoom. change (image v8) with img6. by rewrite Heq7. }
  cbv beta iota. unfold getFileInfo, _findFileEntryByName.
  cbv beta iota delta [bind ret].
  change (fileDirectory (set_image img7 v8)) with (fileDirectory v).
  change (fileDirectory (set_fileDirectory (fileDirectory v ++ [e]) (set_image img7 v8)))
    with (fileDirectory v ++ [e]).
  rewrite (find_entry_app_new (fileDirectory v) filename e 0 Hnew eq_refl).
  cbn [fmap option_fmap option_map fst].
  exists e, img7, (volumeInfo v8), bd, br.
  split; [reflexivity|]. split; [reflexivity|]. split; [reflexivity|].
  split; [exact Hdlen|]. split; [cbn [e FileEntry.dataForkAllocLength]; by rewrite Hlen_d|].
  split; [reflexivity|]. split; [exact Hrlen|].
  split; [cbn [e FileEntry.resourceForkAllocLength]; by rewrite Hlen_r|].
  split; [cbn [e FileEntry._diskOffset]; lia|].
  split; [congruence|]. split; [exact Hbuf7|].
  split; [rewrite Hlen_d, Hlen_r; reflexivity|].
  split; [reflexivity|]. split; [reflexivity|].
  split; [exact Hlen_d|]. split; [exact Hlen_r|].
  assert (forall b o, 2 <= b < n + 2 ->
            blockDiskOffset info b <= o < blockDiskOffset info b + bs ->
            byte_at img7 o = byte_at img6 o) as Hkeep7.
  { intros b o Hb Ho. apply Hframe7. right.
    destruct (Hrange img6 b ltac:(congruence) Hb) as [_ Hlow]. lia. }
  split; [|split; [|split; [|split]]].
  - apply (fork_stored_ext img5); [exact Hstored5|exact Hbs|].
    intros b o Hb Ho. rewrite (Hkeep7 b o); [|by apply Hbd|exact Ho].
    apply Hframe6. intros b' Hb'. apply (block_ranges_disjoint info b b'); [exact Hbs| |exact Ho].
    intros <-. destruct (chains_ok_elem _ _ _ b Hok1) as [_ Hused].
    { cbn. rewrite app_nil_r. exact Hb. }
    by apply Hbr in Hb' as [_ Hfree].
  - apply (fork_stored_ext img6); [exact Hstored6|exact Hbs|].
    intros b o Hb Ho. apply (Hkeep7 b o); [by apply Hbr|exact Ho].
  - destruct Hok2 as [Hall _]. by apply Forall_cons in Hall as [H1 _].
  - destruct Hok2 as [Hall _]. apply Forall_cons in Hall as [_ Hall].
    by apply Forall_cons in Hall as [H2 _].
  - exact Hvals8.
Qed.

(** Reading a fork back: the bytes stored in the blocks of its chain. *)
Lemma read_fork_back v start blocks data :
  let info := volumeInfo v in
  let bs := VolumeInfo.allocBlockSize info in
  0 < bs ->
  fork_stored (image v) info blocks data ->
  (forall b, b ∈ blocks -> block_in_buffer (image v) info b) ->
  (Z.of_nat (length data) <= 0 -> Z.of_nat (length blocks) = 0) ->
  (0 < Z.of_nat (length data) ->
   (Z.of_nat (length blocks) - 1) * bs < Z.of_nat (length data)
   <= Z.of_nat (length blocks) * bs) ->
  fork_chain (abm v) (VolumeInfo.numAllocBlocks info) start blocks ->
  (if (start =? 0) || (Z.of_nat (length data) =? 0) then ret []
   else read_chain (Z.to_nat (Z.of_nat (length data)) + 1) (Z.of_nat (length data))
          (replicate (Z.to_nat (Z.of_nat (length blocks) * bs)) 0) 0 (Some start)) v
  = Done data v.
Proof.
  intros info bs Hbs Hstored Hin Hnone Hsome Hchain.
  destruct data as [|d data].
  { cbn [length]. change (Z.of_nat 0 =? 0) with true. rewrite orb_true_r. done. }
  specialize (Hsome ltac:(cbn [length]; lia)).
  destruct Hchain as [[-> ->]|[Hstart Hchain]].
  { cbn [length] in Hsome. lia. }
  rewrite (proj2 (Z.eqb_neq _ _) Hstart).
  destruct (Z.eqb_spec (Z.of_nat (length (d :: data))) 0) as [H0|_];
    [cbn [length] in H0; lia|].
  cbn [orb].
  pose proof (read_chain_ok v (d :: data) blocks Hbs Hstored Hin Hsome blocks start []
                (Z.to_nat (Z.of_nat (length (d :: data))) + 1)%nat
                (replicate (Z.to_nat (Z.of_nat (length blocks) * bs)) 0) eq_refl Hchain)
    as Hread.
  cbn [length Nat.add] in Hread. change (Z.of_nat 0 * _) with 0 in Hread.
  apply Hread.
  - rewrite length_replicate. fold bs in Hsome. cbn [length] in Hsome |- *. lia.
  - intros k Hk. lia.
  - fold bs in Hsome. cbn [length] in Hsome |- *.
    assert (Z.of_nat (length blocks) <= Z.of_nat (S (length data))) by nia. lia.
Qed.

(** Writing a file whose name is not on the volume, then reading it. *)
Lemma writeFile_new_round_trip v filename data rsrc metadata now :
  well_formed v ->
  filename ∉ filenames v ->
  PackBits.is_bytes (default [] data) -> PackBits.is_bytes (default [] rsrc) ->
  blocks_needed data v + blocks_needed rsrc v <= VolumeInfo.freeAllocBlocks (volumeInfo v) ->
  last_entry_end (VolumeInfo.dirStartBlock (volumeInfo v) * SECTOR_SIZE) (fileDirectory v) + 52
  <= VolumeInfo.dirLengthBlocks (volumeInfo v) * SECTOR_SIZE ->
  exists r v',
    writeFile filename data rsrc metadata now v = Done r v'
    /\ readFile filename ForkData v' = Done (default [] data) v'
    /\ readFile filename ForkResource v' = Done (default [] rsrc) v'
    /\ well_formed v'.
Proof.
  intros Hwf Hnew Hdb Hrb Hfit Hroom.
  destruct (writeFile_new v filename data rsrc metadata now Hwf Hnew Hdb Hrb Hfit Hroom)
    as (e & img' & info' & bd & br & Heq & Hname & Hds & Hdl & Hda & Hrs & Hrl & Hra & Hoff
        & Hlen & Hbuf & Hinfo & Hbd & Hbr & Hnd & Hnr & Hsd & Hsr & Hcd & Hcr & Hvals').
  destruct Hwf as [Hcons Hbuf0 Hbs [Hn0 Hn] Hmap (Hds' & Hdl' & Hdir) Hblocks Hvals
                     Hentries Hnames].
  set (info := volumeInfo v) in *. set (bs := VolumeInfo.allocBlockSize info) in *.
  set (n := VolumeInfo.numAllocBlocks info) in *.
  set (v' := mkVolume img' info' (link (link (abm v) bd) br) (fileDirectory v ++ [e])) in *.
  assert (VolumeInfo.allocBlockSize info' = bs
          /\ VolumeInfo.numAllocBlocks info' = n
          /\ VolumeInfo.allocBlockStartSector info' = VolumeInfo.allocBlockStartSector info
          /\ VolumeInfo.dirStartBlock info' = VolumeInfo.dirStartBlock info
          /\ VolumeInfo.dirLengthBlocks info' = VolumeInfo.dirLengthBlocks info)
    as (Hbs' & Hn' & Hstart' & Hdirs' & Hdirl') by (by rewrite Hinfo).
  assert (0 <= (n + 1) / 2 * 3) as Hmap0 by zlia.
  assert (forall b, 2 <= b < n + 2 -> block_in_buffer img' info b) as Hrange.
  { intros b Hb. apply block_in_buffer_range; [done|lia|by rewrite Hlen|done]. }
  assert (forall b, b ∈ bd -> 2 <= b < n + 2) as Hbd_in.
  { intros b Hb. rewrite Hbd in Hb. by apply free_blocks_spec in Hb as [? _]. }
  assert (forall b, b ∈ br -> 2 <= b < n + 2) as Hbr_in.
  { intros b Hb. rewrite Hbr in Hb. by apply free_blocks_spec in Hb as [? _]. }
  unfold blocks_needed in Hnd, Hnr. fold info bs in Hnd, Hnr.
  destruct (blocks_for_spec (byteLength_of data) bs Hbs) as (nd & Hd & Hd0 & Hd1).
  destruct (blocks_for_spec (byteLength_of rsrc) bs Hbs) as (nr & Hr & Hr0 & Hr1).
  rewrite Hd in Hnd. rewrite Hr in Hnr. cbn [default from_option] in Hnd, Hnr.
  unfold id in Hnd, Hnr.
  assert (byteLength_of data = Z.of_nat (length (default [] data))) as Hdlen by (by destruct data).
  assert (byteLength_of rsrc = Z.of_nat (length (default [] rsrc))) as Hrlen by (by destruct rsrc).
  assert (find_entry (fileDirectory v') filename 0
          = Some (e, (0 + length (fileDirectory v))%nat)) as Hfind.
  { apply find_entry_app_new; [exact Hnew|exact Hname]. }
  assert (forall img (blocks data : list Z),
            fork_stored img info blocks data -> fork_stored img (volumeInfo v') blocks data)
    as Hstored'.
  { intros img blocks d Hs i x Hx. destruct (Hs i x Hx) as (b & Hb & Hbyte).
    exists b. unfold blockDiskOffset in *. cbn [v' volumeInfo]. rewrite Hbs', Hstart'.
    by split. }
  assert (forall b, block_in_buffer img' info b -> block_in_buffer (image v') (volumeInfo v') b)
    as Hin'.
  { intros b Hb. unfold block_in_buffer, blockDiskOffset in *. cbn [v' volumeInfo image].
    by rewrite Hbs', Hstart'. }
  exists (Some (file_info e)), v'. split; [exact Heq|]. split; [|split].
  - unfold readFile. cbv beta iota delta [bind _findFileEntryByName ret]. rewrite Hfind.
    cbv beta iota delta [bind ret]. cbn [fst snd]. rewrite Hds, Hdl, Hda.
    rewrite <- Hbs'.
    apply (read_fork_back v' (default 0 (head bd)) bd (default [] data)).
    + cbn [v' volumeInfo]. lia.
    + by apply Hstored'.
    + intros b Hb. by apply Hin', Hrange, Hbd_in.
    + lia.
    + cbn [v' volumeInfo]. rewrite Hbs'. lia.
    + cbn [v' volumeInfo abm]. rewrite Hn'. exact Hcd.
  - unfold readFile. cbv beta iota delta [bind _findFileEntryByName ret]. rewrite Hfind.
    cbv beta iota delta [bind ret]. cbn [fst snd]. rewrite Hrs, Hrl, Hra.
    rewrite <- Hbs'.
    apply (read_fork_back v' (default 0 (head br)) br (default [] rsrc)).
    + cbn [v' volumeInfo]. lia.
    + by apply Hstored'.
    + intros b Hb. by apply Hin', Hrange, Hbr_in.
    + lia.
    + cbn [v' volumeInfo]. rewrite Hbs'. lia.
    + cbn [v' volumeInfo abm]. rewrite Hn'. exact Hcr.
  - split; cbn [v' volumeInfo image abm fileDirectory];
      rewrite ?Hbs', ?Hn', ?Hstart', ?Hdirs', ?Hdirl', ?Hlen.
    + eapply writeFile_consistent; [exact Hcons|exact Heq].
    + exact Hbuf.
    + exact Hbs.
    + done.
    + exact Hmap.
    + done.
    + exact Hblocks.
    + exact Hvals'.
    + intros e' [He'| ->%list_elem_of_singleton]%elem_of_app; [by apply Hentries|exact Hoff].
    + change (NoDup (FileEntry.filename <$> fileDirectory v ++ [e])).
      rewrite fmap_app. apply NoDup_app.
      split; [exact Hnames|]. split; [|apply NoDup_singleton].
      intros x Hx Hx'. cbn [fmap list_fmap] in Hx'.
      apply list_elem_of_singleton in Hx' as ->. rewrite Hname in Hx. by apply Hnew.
Qed.

Lemma last_entry_end_le start dir x :
  last_entry_end start dir <= x
  <-> 0 <= x /\ forall e, e ∈ dir ->
                 FileEntry._diskOffset e - start + FileEntry._entryLength e <= x.
Proof.
  unfold last_entry_end. generalize 0. induction dir as [|e dir IH]; intros acc; cbn [foldl].
  - split; [intros; split; [done|]; by intros ? ?%elem_of_nil|by intros [? _]].
  - rewrite IH. split.
    + intros [Hacc Hall]. split; [lia|]. intros e' [->|He']%elem_of_cons; [lia|by apply Hall].
    + intros [Hacc Hall]. split.
      * specialize (Hall e ltac:(set_solver)). lia.
      * intros e' He'. apply Hall. set_solver.
Qed.

Lemma last_entry_end_delete start dir i :
  last_entry_end start (delete i dir) <= last_entry_end start dir.
Proof.
  apply last_entry_end_le. split; [apply last_entry_end_nonneg|].
  intros e He%list_elem_of_delete_inv.
  by apply (proj1 (last_entry_end_le start dir _) (Z.le_refl _)).
Qed.

(** Deleting a file that is on the volume. *)
Lemma deleteFile_ok v filename now :
  well_formed v -> filename ∈ filenames v ->
  exists v0,
    deleteFile filename now v = Done true v0
    /\ well_formed v0
    /\ filename ∉ filenames v0
    /\ VolumeInfo.freeAllocBlocks (volumeInfo v) <= VolumeInfo.freeAllocBlocks (volumeInfo v0)
    /\ VolumeInfo.allocBlockSize (volumeInfo v0) = VolumeInfo.allocBlockSize (volumeInfo v)
    /\ VolumeInfo.dirStartBlock (volumeInfo v0) = VolumeInfo.dirStartBlock (volumeInfo v)
    /\ VolumeInfo.dirLengthBlocks (volumeInfo v0) = VolumeInfo.dirLengthBlocks (volumeInfo v)
    /\ forall start,
         last_entry_end start (fileDirectory v0) <= last_entry_end start (fileDirectory v).
Proof.
  intros Hwf Hin.
  pose proof Hwf as [Hcons Hbuf Hbs [Hn0 Hn] Hmap (Hds & Hdl & Hdir) Hblocks Hvals
                       Hentries Hnames].
  pose proof Hcons as [Hfree (owned & Hforks & Hok)].
  destruct (find_entry (fileDirectory v) filename 0) as [[e idx]|] eqn:Hfind.
  2:{ apply find_entry_None in Hfind. done. }
  pose proof (find_entry_lookup _ _ _ _ _ Hfind) as (_ & Hlook & Hname).
  rewrite Nat.sub_0_r in Hlook.
  destruct (owned_split _ _ _ _ Hlook Hforks) as (o1 & cd & cr & o2 & -> & Hforks').
  destruct (chains_ok_free _ _ _ _ _ _ Hok) as (Hok1 & Hcd & Hndd & Hused_d).
  destruct (chains_ok_free _ _ _ _ _ _ Hok1) as (Hok2 & Hcr & Hndr & Hused_r).
  set (info := volumeInfo v) in *. set (n := VolumeInfo.numAllocBlocks info) in *.
  assert (0 <= FileEntry._diskOffset e < byteLength (image v)) as Hoff.
  { apply Hentries. by eapply list_elem_of_lookup_2. }
  assert (0 <= (n + 1) / 2 * 3) as Hmap0 by zlia.
  unfold deleteFile. cbv beta iota delta [bind _findFileEntryByName]. rewrite Hfind.
  rewrite (freeBlockChain_spec v _ cd Hcd Hndd).
  erewrite (freeBlockChain_spec _ _ cr); [|exact Hcr|exact Hndr].
  lazymatch goal with |- context [dv (readUint8 _) ?s] => set (v2 := s) end.
  assert (dv (readUint8 (FileEntry._diskOffset e)) v2
          = Done (byte_at (image v) (FileEntry._diskOffset e)) v2) as ->.
  { unfold dv, zoom. change (image v2) with (image v). by rewrite (readUint8_ok _ _ Hoff). }
  set (img3 := store (image v) (FileEntry._diskOffset e)
                 (Z.land (byte_at (image v) (FileEntry._diskOffset e)) 127)).
  assert (dv (writeUint8 (FileEntry._diskOffset e)
                (Z.land (byte_at (image v) (FileEntry._diskOffset e)) 127)) v2
          = Done tt (set_image img3 v2)) as ->.
  { unfold dv, zoom. change (image v2) with (image v). by rewrite (writeUint8_ok _ _ _ Hoff). }
  cbv beta iota delta [update_volumeInfo].
  lazymatch goal with |- context [_writeMDB ?s] => set (v5 := s) end.
  assert (is_buffer img3) as Hbuf3 by (by apply store_is_buffer).
  assert (forall k, 0 <= k < n -> is_abm_value (default 0 (clear (clear (abm v) cd) cr !! k)))
    as Hvals5.
  { intros k Hk.
    destruct (clear (clear (abm v) cd) cr !! k) as [x|] eqn:Hx; [|cbn; unfold is_abm_value; lia].
    cbn [default from_option]. unfold id. revert Hx. apply clear_values.
    intros y. apply clear_values.
    intros z Hz. specialize (Hvals k Hk). by rewrite Hz in Hvals. }
  destruct (writes_within_writeMDB (volumeInfo v5) (abm v5) Hvals5 Hn0 img3 Hbuf3)
    as ([] & img5 & Heq5 & Hlen5 & Hbuf5 & Hframe5); [lia| |].
  { change (VolumeInfo.numAllocBlocks (volumeInfo v5)) with n. change (byteLength img3)
      with (byteLength (image v)).
    assert (0 <= n * VolumeInfo.allocBlockSize info) by nia. unfold SECTOR_SIZE in *. lia. }
  assert (_writeMDB v5 = Done tt (set_image img5 v5)) as ->.
  { unfold _writeMDB, dv, zoom. change (image v5) with img3. by rewrite Heq5. }
  cbv beta iota delta [ret].
  eexists. split; [reflexivity|].
  change (byteLength img3) with (byteLength (image v)) in Hlen5.
  split; [|split; [|split; [|split; [|split; [|split]]]]].
  - split; cbn [v5 v2 realloc set_image set_volumeInfo set_fileDirectory volumeInfo image abm
                  fileDirectory VolumeInfo.allocBlockSize VolumeInfo.numAllocBlocks
                  VolumeInfo.allocBlockStartSector VolumeInfo.dirStartBlock
                  VolumeInfo.dirLengthBlocks VolumeInfo.set_freeAllocBlocks
                  VolumeInfo.set_numFiles VolumeInfo.set_modificationDate].
    + split.
      * cbn. unfold info in Hfree. rewrite Hfree.
        rewrite (free_count_clear _ _ cr), (free_count_clear _ _ cd); [reflexivity|done..].
      * exists (o1 ++ o2). split; [done|]. exact Hok2.
    + exact Hbuf5.
    + exact Hbs.
    + done.
    + exact Hmap.
    + rewrite Hlen5. done.
    + rewrite Hlen5. exact Hblocks.
    + exact Hvals5.
    + intros e' He'%list_elem_of_delete_inv. rewrite Hlen5. by apply Hentries.
    + change (NoDup (FileEntry.filename <$> delete idx (fileDirectory v))).
      rewrite list_fmap_delete. eapply sublist_NoDup; [exact Hnames|]. apply sublist_delete.
  - change (filename ∉ FileEntry.filename <$> delete idx (fileDirectory v)).
    unfold filenames in Hnames.
    rewrite <- (take_drop_middle _ _ _ Hlook), fmap_app, fmap_cons, Hname in Hnames.
    apply NoDup_app in Hnames as (_ & Hdis & Hnd2). apply NoDup_cons in Hnd2 as [Hnot _].
    rewrite delete_take_drop, fmap_app. intros [Hl|Hr]%elem_of_app; [|done].
    apply (Hdis _ Hl). set_solver.
  - unfold info. cbn. lia.
  - reflexivity.
  - reflexivity.
  - reflexivity.
  - intros start. apply last_entry_end_delete.
Qed.

(** Overwriting: [writeFile] on a file that is on the volume deletes it and
    goes on as on the volume without the file. *)
Lemma writeFile_existing v filename data rsrc metadata now v0 :
  filename ∈ filenames v ->
  deleteFile filename now v = Done true v0 ->
  filename ∉ filenames v0 ->
  writeFile filename data rsrc metadata now v = writeFile filename data rsrc metadata now v0.
Proof.
  intros Hin Hdel Hnew.
  destruct (find_entry (fileDirectory v) filename 0) as [found|] eqn:Hfind.
  2:{ apply find_entry_None in Hfind. done. }
  apply find_entry_None with (i := 0%nat) in Hnew.
  unfold writeFile. cbv beta iota delta [bind _findFileEntryByName].
  rewrite Hfind, Hdel, Hnew. reflexivity.
Qed.

Lemma formatNewImage_well_formed sizeKB volumeName now v :
  9 <= sizeKB <= 4102 -> _formatNewImage sizeKB volumeName now = Returns v -> well_formed v.
Proof.
  intros Hsize Hnew. pose proof (formatNewImage_consistent _ _ _ _ Hnew) as Hcons.
  apply formatNewImage_result in Hnew. cbv zeta in Hnew.
  assert (((sizeKB * 1024 / 512 - 16) / 2) mod 65536 = sizeKB - 8) as Hn.
  { assert (sizeKB * 1024 / 512 = 2 * sizeKB) as -> by zlia.
    assert ((2 * sizeKB - 16) / 2 = sizeKB - 8) as -> by zlia.
    apply Z.mod_small. lia. }
  rewrite Hn in Hnew.
  destruct Hnew as (Hlen & Hbuf & Hdir & _ & Hds & Hdl & Hnum & Hbs & Hstart & _ & _ & Habm).
  split; rewrite ?Hlen, ?Hdir, ?Hds, ?Hdl, ?Hnum, ?Hbs, ?Hstart; unfold SECTOR_SIZE.
  - exact Hcons.
  - exact Hbuf.
  - lia.
  - lia.
  - assert ((sizeKB - 8 + 1) / 2 <= 2047) by zlia. lia.
  - lia.
  - lia.
  - intros k Hk. rewrite Habm, bool_decide_eq_true_2 by lia. cbn. unfold is_abm_value. lia.
  - by intros e ?%elem_of_nil.
  - unfold filenames. rewrite Hdir. constructor.
Qed.

Lemma fresh_volume_well_formed : well_formed fresh_volume.
Proof.
  pose proof fresh_volume_eq as Hnew. unfold new_MFSVolume in Hnew.
  apply (formatNewImage_well_formed 400 (js "Untitled") an_instant); [lia|exact Hnew].
Qed.


Lemma perform_all_reachable calls : forall v v',
  reachable v -> perform_all calls v = Done tt v' -> reachable v'.
Proof.
  induction calls as [|c calls IH]; intros v v' Hv H; cbn [perform_all] in H.
  - by injection H as <-.
  - apply bind_inv in H as ([] & v1 & H1 & H). eapply IH; [|exact H].
    eapply reach_call; [exact Hv|exact H1].
Qed.

(** C1, as the specification states it, fails: that the forks fit in the
    free space is not enough. On a fresh 400 KB volume 118 empty files with
    one-character names are created; their entries of 52 bytes take 6136 of
    the 6144 bytes of the file directory. All 392 blocks are free, and a
    file "B" with a data fork of one byte needs one block; yet [writeFile]
    throws, and the file cannot be read. *)
Lemma writeFile_directory_full :
  exists v,
    perform_all one_character_files fresh_volume = Done tt v
    /\ reachable v
    /\ VolumeInfo.freeAllocBlocks (volumeInfo v) = 392
    /\ blocks_needed (Some [1]) v + blocks_needed (Some []) v = 1
    /\ match writeFile (js "B") (Some [1]) (Some []) PNTG_MPNT an_instant v with
       | Thrown msg v' =>
           msg = "File directory is full. Expansion not yet supported."
           /\ match readFile (js "B") ForkData v' with
              | Thrown msg' _ => msg' = "File not found for reading"
              | _ => False
              end
       | _ => False
       end.
Proof.
  assert (match perform_all one_character_files fresh_volume with
          | Done _ v =>
              VolumeInfo.freeAllocBlocks (volumeInfo v) = 392
              /\ blocks_needed (Some [1]) v + blocks_needed (Some []) v = 1
              /\ match writeFile (js "B") (Some [1]) (Some []) PNTG_MPNT an_instant v with
                 | Thrown msg v' =>
                     msg = "File directory is full. Expansion not yet supported."
                     /\ match readFile (js "B") ForkData v' with
                        | Thrown msg' _ => msg' = "File not found for reading"
                        | _ => False
                        end
                 | _ => False
                 end
          | _ => False
          end) as Hrun by (vm_compute; repeat split).
  destruct (perform_all one_character_files fresh_volume) as [[] v| |] eqn:E;
    [|destruct Hrun..].
  exists v. split; [reflexivity|]. split; [|exact Hrun].
  eapply perform_all_reachable; [apply fresh_volume_reachable|exact E].
Qed.

(** C1, amended: on a well-formed volume (its state in memory is
    consistent, the allocation block map, the file directory and the
    allocation blocks lie in the buffer one after the other, and no two
    files have the same name), whether or not a file of that name is on the
    volume, if the two forks fit in the free blocks and the file directory
    has room for one more entry header after its last entry, then
    [writeFile] returns, and then [readFile] returns the bytes of the data
    fork for "data" and those of the resource fork for "resource"; the
    volume is well formed again. *)
Theorem writeFile_then_readFile v filename (data rsrc : list Z) metadata now :
  well_formed v ->
  PackBits.is_bytes data -> PackBits.is_bytes rsrc ->
  blocks_needed (Some data) v + blocks_needed (Some rsrc) v
  <= VolumeInfo.freeAllocBlocks (volumeInfo v) ->
  last_entry_end (VolumeInfo.dirStartBlock (volumeInfo v) * SECTOR_SIZE) (fileDirectory v) + 52
  <= VolumeInfo.dirLengthBlocks (volumeInfo v) * SECTOR_SIZE ->
  exists r v',
    writeFile filename (Some data) (Some rsrc) metadata now v = Done r v'
    /\ readFile filename ForkData v' = Done data v'
    /\ readFile filename ForkResource v' = Done rsrc v'
    /\ well_formed v'.
Proof.
  intros Hwf Hdb Hrb Hfit Hroom.
  destruct (decide (filename ∈ filenames v)) as [Hin|Hnew].
  - destruct (deleteFile_ok v filename now Hwf Hin)
      as (v0 & Hdel & Hwf0 & Hnew & Hfree & Hbs & Hds & Hdl & Hlast).
    rewrite (writeFile_existing v filename _ _ metadata now v0 Hin Hdel Hnew).
    apply (writeFile_new_round_trip v0 filename (Some data) (Some rsrc)); try done.
    + unfold blocks_needed in *. rewrite Hbs. lia.
    + rewrite Hds, Hdl. specialize (Hlast (VolumeInfo.dirStartBlock (volumeInfo v) * SECTOR_SIZE)).
      lia.
  - by apply (writeFile_new_round_trip v filename (Some data) (Some rsrc)).
Qed.

Lemma writeFile_then_readFile_witness :
  exists r v',
    writeFile (js "A") (Some [1; 2; 3]) (Some [4; 5]) PNTG_MPNT an_instant fresh_volume
    = Done r v'
    /\ readFile (js "A") ForkData v' = Done [1; 2; 3] v'
    /\ readFile (js "A") ForkResource v' = Done [4; 5] v'.
Proof.
  destruct (writeFile_then_readFile fresh_volume (js "A") [1; 2; 3] [4; 5] PNTG_MPNT
              an_instant) as (r & v' & Hwrite & Hdata & Hrsrc & _).
  - apply fresh_volume_well_formed.
  - repeat constructor; lia.
  - repeat constructor; lia.
  - by vm_compute.
  - by vm_compute.
  - exists r, v'. exact (conj Hwrite (conj Hdata Hrsrc)).
Defined.

(** ** Further properties of the volume *)

(** X1: for a name that no file of the volume has, [deleteFile] and
    [readFile] throw their "not found" errors, [getFileInfo] returns
    [null], and the volume is as before. *)
Theorem missing_file_is_reported (v : Volume) (filename : JSString) :
  filename ∉ filenames v ->
  (forall now, deleteFile filename now v = Thrown "File not found for deletion" v)
  /\ (forall forkType, readFile filename forkType v = Thrown "File not found for reading" v)
  /\ getFileInfo filename v = Done None v.
Proof.
  intros Hnew. apply (find_entry_None _ _ 0%nat) in Hnew.
  unfold deleteFile, readFile, getFileInfo.
  cbv beta iota delta [bind _findFileEntryByName]. rewrite Hnew. done.
Qed.

Lemma missing_file_is_reported_witness :
  (forall now, deleteFile (js "A") now fresh_volume
               = Thrown "File not found for deletion" fresh_volume)
  /\ (forall forkType, readFile (js "A") forkType fresh_volume
                       = Thrown "File not found for reading" fresh_volume)
  /\ getFileInfo (js "A") fresh_volume = Done None fresh_volume.
Proof.
  apply (missing_file_is_reported fresh_volume (js "A")).
  vm_compute. apply not_elem_of_nil.
Defined.







(** X3: on a well-formed volume, [deleteFile] of a file that is on the
    volume returns [true]; the volume is well formed again, it has no file
    of that name any more, so that [readFile] reports the file as not
    found, and it has no fewer free blocks than before. *)
Theorem deleteFile_removes_the_file (v : Volume) (filename : JSString) (now : Date) :
  well_formed v -> filename ∈ filenames v ->
  exists v0,
    deleteFile filename now v = Done true v0
    /\ well_formed v0
    /\ filename ∉ filenames v0
    /\ VolumeInfo.freeAllocBlocks (volumeInfo v) <= VolumeInfo.freeAllocBlocks (volumeInfo v0)
    /\ forall forkType,
         readFile filename forkType v0 = Thrown "File not found for reading" v0.
Proof.
  intros Hwf Hin.
  destruct (deleteFile_ok v filename now Hwf Hin) as (v0 & Hdel & Hwf0 & Hnew & Hfree & _).
  exists v0. do 4 (split; [done|]). intros forkType.
  apply (find_entry_None _ _ 0%nat) in Hnew.
  unfold readFile. cbv beta iota delta [bind _findFileEntryByName]. by rewrite Hnew.
Qed.

Lemma deleteFile_removes_the_file_witness :
  exists v v0,
    (exists r, writeFile (js "A") (Some [1; 2; 3]) None PNTG_MPNT an_instant fresh_volume
               = Done r v)
    /\ deleteFile (js "A") an_instant v = Done true v0
    /\ js "A" ∉ filenames v0.
Proof.
  destruct (writeFile_new_round_trip fresh_volume (js "A") (Some [1; 2; 3]) None PNTG_MPNT
              an_instant) as (r & v & Hwrite & Hread & _ & Hwf).
  - apply fresh_volume_well_formed.
  - vm_compute. apply not_elem_of_nil.
  - repeat constructor; lia.
  - constructor.
  - by vm_compute.
  - by vm_compute.
  - destruct (decide (js "A" ∈ filenames v)) as [Hin|Hout].
    + destruct (deleteFile_removes_the_file v (js "A") an_instant Hwf Hin)
        as (v0 & Hdel & _ & Hnew & _).
      exists v, v0. split; [by exists r|]. exact (conj Hdel Hnew).
    + apply (find_entry_None _ _ 0%nat) in Hout. unfold readFile in Hread.
      cbv beta iota delta [bind _findFileEntryByName] in Hread. rewrite Hout in Hread.
      discriminate Hread.
Defined.



End MFSProofs.

Module DitherProofs.
Import Dither.

Section Frame.
Context {F : Type} `{JSNumbers F}.
Implicit Types h : gmap nat (TypedArray F).

Lemma only_changes_refl ls h : only_changes ls h h.
Proof. by split. Qed.

Lemma only_changes_trans ls h1 h2 h3 :
  only_changes ls h1 h2 -> only_changes ls h2 h3 -> only_changes ls h1 h3.
Proof.
  intros [S1 K1] [S2 K2]. split.
  - intros l. by rewrite S2, S1.
  - intros l Hl. by rewrite K2, K1.
Qed.

Lemma only_changes_mono ls ls' h h' :
  ls ⊆ ls' -> only_changes ls h h' -> only_changes ls' h h'.
Proof. intros Hsub [S1 K1]. split; [done|]. intros l Hl. apply K1. set_solver. Qed.

Lemma shape_is_Some (a : option (TypedArray F)) : is_Some (shape a) <-> is_Some a.
Proof. destruct a as [[?|?]|]; simpl; split; intros [? ?]; eauto; discriminate. Qed.

Lemma only_changes_dom ls h h' : only_changes ls h h' -> dom h' = dom h.
Proof.
  intros [S1 _]. apply set_eq. intros l. rewrite !elem_of_dom.
  by rewrite <- !shape_is_Some, S1.
Qed.

Lemma write_num_only h l idx v : only_changes {[l]} h (write_num h l idx v).
Proof.
  unfold write_num. destruct (idx <? 0); [apply only_changes_refl|].
  destruct (h !! l) as [[elems|elems]|] eqn:E; [| |apply only_changes_refl].
  - split.
    + intros l'. destruct (decide (l' = l)) as [->|Hne].
      * rewrite lookup_insert_eq, E. simpl. by rewrite length_insert.
      * by rewrite lookup_insert_ne.
    + intros l' Hl'. rewrite lookup_insert_ne; [done|set_solver].
  - split.
    + intros l'. destruct (decide (l' = l)) as [->|Hne].
      * rewrite lookup_insert_eq, E. simpl. by rewrite length_insert.
      * by rewrite lookup_insert_ne.
    + intros l' Hl'. rewrite lookup_insert_ne; [done|set_solver].
Qed.

Lemma write_int_only h l idx b : only_changes {[l]} h (write_int h l idx b).
Proof.
  unfold write_int. destruct (idx <? 0); [apply only_changes_refl|].
  destruct (h !! l) as [[elems|elems]|] eqn:E; [| |apply only_changes_refl].
  - split.
    + intros l'. destruct (decide (l' = l)) as [->|Hne].
      * rewrite lookup_insert_eq, E. simpl. by rewrite length_insert.
      * by rewrite lookup_insert_ne.
    + intros l' Hl'. rewrite lookup_insert_ne; [done|set_solver].
  - split.
    + intros l'. destruct (decide (l' = l)) as [->|Hne].
      * rewrite lookup_insert_eq, E. simpl. by rewrite length_insert.
      * by rewrite lookup_insert_ne.
    + intros l' Hl'. rewrite lookup_insert_ne; [done|set_solver].
Qed.

Lemma add_at_only h l idx e : only_changes {[l]} h (add_at h l idx e).
Proof. apply write_num_only. Qed.

(** A conditional update. *)
Lemma only_changes_if ls (c : bool) h h1 h' :
  only_changes ls h h1 -> (forall h2, only_changes ls h h2 -> only_changes ls h h' ) ->
  only_changes ls h h'.
Proof. intros H1 H2. by apply (H2 h1). Qed.

Lemma put_bit_only o bit (st : @Loop F) :
  only_changes {[o]} (heap st) (heap (put_bit o bit st)).
Proof.
  unfold put_bit. destruct (_ =? 8); cbn [heap].
  - apply write_int_only.
  - apply only_changes_refl.
Qed.

Lemma for_x_only ls (body : Z -> @Loop F -> @Loop F) :
  (forall x st, only_changes ls (heap st) (heap (body x st))) ->
  forall count x st, only_changes ls (heap st) (heap (for_x count body x st)).
Proof.
  intros Hbody. induction count as [|count IH]; intros x st; cbn [for_x].
  - apply only_changes_refl.
  - eapply only_changes_trans; [apply Hbody|apply IH].
Qed.

Lemma for_y_only ls width (body : Z -> Z -> @Loop F -> @Loop F) :
  (forall y x st, only_changes ls (heap st) (heap (body y x st))) ->
  forall count y st, only_changes ls (heap st) (heap (for_y count width body y st)).
Proof.
  intros Hbody. induction count as [|count IH]; intros y st; cbn [for_y].
  - apply only_changes_refl.
  - eapply only_changes_trans; [|apply IH].
    apply for_x_only. intros x st'. apply Hbody.
Qed.

(** One step of a chain of conditional [add_at]s on the array [g]. *)
Ltac chain_step g :=
  match goal with
  | |- only_changes _ ?h0 (if ?c then add_at ?h _ _ _ else ?h) =>
      apply (only_changes_trans _ h0 h);
      [|destruct c;
        [eapply only_changes_mono; [|apply add_at_only]; set_solver
        |apply only_changes_refl]]
  end.

Lemma threshold_body_only g o t i (st : @Loop F) :
  only_changes {[o]} (heap st) (heap (threshold_body g o t i st)).
Proof.
  unfold threshold_body. destruct (_ =? 8); cbn [heap].
  - apply write_int_only.
  - apply only_changes_refl.
Qed.

Lemma atkinson_body_only g o width height y x (st : @Loop F) :
  only_changes {[g; o]} (heap st) (heap (atkinson_body g o width height y x st)).
Proof.
  unfold atkinson_body. cbn [heap].
  do 6 chain_step g.
  eapply only_changes_mono; [|apply put_bit_only]. set_solver.
Qed.

Lemma floyd_steinberg_body_only g o width height y x (st : @Loop F) :
  only_changes {[g; o]} (heap st) (heap (floyd_steinberg_body g o width height y x st)).
Proof.
  unfold floyd_steinberg_body. cbn [heap].
  do 4 chain_step g.
  eapply only_changes_mono; [|apply put_bit_only]. set_solver.
Qed.

Lemma bayer_body_only this g o width height y x (st : @Loop F) :
  only_changes {[o]} (heap st) (heap (bayer_body this g o width height y x st)).
Proof. unfold bayer_body. apply put_bit_only. Qed.

(** *** Allocation *)

Lemma alloc_fresh h a : (alloc h a).1 ∉ dom h.
Proof. unfold alloc. simpl. apply is_fresh. Qed.

Lemma alloc_keeps h a : keeps h (alloc h a).2.
Proof.
  intros l Hl. unfold alloc. simpl. rewrite lookup_insert_ne; [done|].
  intros <-. by apply is_fresh in Hl.
Qed.

Lemma alloc_lookup h a : (alloc h a).2 !! (alloc h a).1 = Some a.
Proof. unfold alloc. simpl. by rewrite lookup_insert_eq. Qed.

Lemma alloc_dom h a : dom (alloc h a).2 = {[(alloc h a).1]} ∪ dom h.
Proof. unfold alloc. simpl. by rewrite dom_insert_L. Qed.

Lemma keeps_trans h1 h2 h3 : dom h1 ⊆ dom h2 -> keeps h1 h2 -> keeps h2 h3 -> keeps h1 h3.
Proof. intros Hsub K1 K2 l Hl. rewrite K2 by set_solver. by apply K1. Qed.

Lemma only_changes_keeps ls h0 h h' :
  (forall l, l ∈ ls -> l ∉ dom h0) -> only_changes ls h h' -> keeps h0 h -> keeps h0 h'.
Proof.
  intros Hfresh [_ K] K0 l Hl. rewrite K; [by apply K0|].
  intros Hin. by apply Hfresh in Hin.
Qed.

Lemma new_one_bit_Returns h width height r :
  new_one_bit h width height = Returns r ->
  (r.1) ∉ dom h /\ keeps h (r.2) /\ dom (r.2) = {[(r.1)]} ∪ dom h
  /\ (forall l, l ≠ (r.1) -> (r.2) !! l = h !! l).
Proof.
  unfold new_one_bit. destruct (_ <? 0); [discriminate|]. intros [= <-].
  split; [apply alloc_fresh|]. split; [apply alloc_keeps|]. split; [apply alloc_dom|].
  intros l Hl. unfold alloc. simpl. by rewrite lookup_insert_ne.
Qed.

(** The end of a strategy: what it returns is a new array, and nothing but
    [oneBitDataArray] and this new array is touched. *)
Lemma finish_Returns o width height (st : @Loop F) r :
  finish o width height st = Returns r ->
  (r.1) ∉ dom (heap st)
  /\ (forall l, l ≠ o -> l ≠ (r.1) -> (r.2) !! l = heap st !! l)
  /\ (forall l, l ≠ (r.1) -> shape ((r.2) !! l) = shape (heap st !! l)).
Proof.
  unfold finish.
  set (st1 := if 0 <? bitPosition st then _ else st).
  assert (only_changes {[o]} (heap st) (heap st1)) as Hst1.
  { unfold st1. destruct (0 <? bitPosition st); cbn [heap];
      [apply write_int_only|apply only_changes_refl]. }
  destruct (new_one_bit (heap st1) width height) as [r0| |] eqn:Hnew; [|done..].
  cbn [obind]. intros [= <-]. cbn [fst snd].
  apply new_one_bit_Returns in Hnew as (Hfresh & Hkeep & Hdom & Hother).
  rewrite (only_changes_dom _ _ _ Hst1) in Hfresh.
  destruct Hst1 as [Hshape Honly].
  assert (forall l, l ≠ (r0.1) ->
            match (r0.2) !! o, (r0.2) !! (r0.1) with
            | Some (Uint8Array src), Some (Uint8Array dst) =>
                <[(r0.1) := Uint8Array (let part := take (length dst) src in
                                      part ++ drop (length part) dst)]> (r0.2)
            | _, _ => (r0.2)
            end !! l = (r0.2) !! l) as Hcopy.
  { intros l Hl. destruct ((r0.2) !! o) as [[src|?]|]; try done.
    destruct ((r0.2) !! (r0.1)) as [[dst|?]|]; try done.
    by rewrite lookup_insert_ne. }
  split; [done|]. split.
  - intros l Hlo Hlf. rewrite Hcopy, Hother by done. apply Honly. set_solver.
  - intros l Hlf. rewrite Hcopy, Hother by done. apply Hshape.
Qed.

(** The strategies that clone their input (Floyd-Steinberg, Atkinson). *)
Lemma diffuse_Returns (body : nat -> nat -> Z -> Z -> Z -> Z -> @Loop F -> @Loop F)
    h gsDataInput width height r :
  (forall g o w ht y x st, only_changes {[g; o]} (heap st) (heap (body g o w ht y x st))) ->
  diffuse body h gsDataInput width height = Returns r ->
  keeps h (r.2) /\ (r.1) ∉ dom h
  /\ exists g, g ∉ dom h
       /\ shape ((r.2) !! g)
          = Some (true, length (as_float32 (default (Float32Array []) (h !! gsDataInput)))).
Proof.
  intros Hbody. unfold diffuse.
  set (source := default (Float32Array []) (h !! gsDataInput)).
  pose proof (alloc_fresh h (Float32Array (as_float32 source))) as Hg.
  pose proof (alloc_keeps h (Float32Array (as_float32 source))) as Hgk.
  pose proof (alloc_lookup h (Float32Array (as_float32 source))) as Hgl.
  pose proof (alloc_dom h (Float32Array (as_float32 source))) as Hgd.
  destruct (alloc h (Float32Array (as_float32 source))) as [g h1]. cbn [fst snd] in *.
  destruct (new_one_bit h1 width height) as [r0| |] eqn:Hnew; [|done..].
  cbn [obind]. intros Hfin.
  apply new_one_bit_Returns in Hnew as (Ho & Hok & Hod & Hoo).
  set (st := for_y _ _ _ _ _) in Hfin.
  assert (only_changes {[g; (r0.1)]} (r0.2) (heap st)) as Hloop.
  { unfold st. apply (for_y_only {[g; (r0.1)]} width (body g (r0.1) width height)).
    intros y x st'. apply Hbody. }
  apply finish_Returns in Hfin as (Hf & Hfo & Hfs).
  rewrite (only_changes_dom _ _ _ Hloop), Hod, Hgd in Hf.
  assert (g ≠ (r0.1)) as Hgo by (intros ->; apply Ho; rewrite Hgd; set_solver).
  split; [|split].
  - intros l Hl.
    assert (l ≠ g) by (intros ->; done).
    assert (l ≠ (r0.1)) by (intros ->; apply Ho; rewrite Hgd; set_solver).
    assert (l ≠ (r.1)) by (intros ->; apply Hf; set_solver).
    rewrite Hfo by done. destruct Hloop as [_ Hl2]. rewrite Hl2 by set_solver.
    rewrite Hoo by done. by apply Hgk.
  - intros Hin. apply Hf. set_solver.
  - exists g. split; [done|].
    assert (g ≠ (r.1)) by (intros ->; apply Hf; set_solver).
    rewrite Hfs by done. destruct Hloop as [Hs2 _]. rewrite Hs2, Hoo, Hgl by done.
    done.
Qed.

(** The strategies that only read their input (threshold, Bayer). *)
Lemma bayer_Returns this h gsData width height r :
  BayerDitheringStrategy_apply this h gsData width height = Returns r ->
  keeps h (r.2) /\ (r.1) ∉ dom h.
Proof.
  unfold BayerDitheringStrategy_apply.
  destruct (new_one_bit h width height) as [r0| |] eqn:Hnew; [|done..].
  cbn [obind]. intros Hfin.
  apply new_one_bit_Returns in Hnew as (Ho & Hok & Hod & Hoo).
  set (st := for_y _ _ _ _ _) in Hfin.
  assert (only_changes {[(r0.1)]} (r0.2) (heap st)) as Hloop.
  { unfold st. apply (for_y_only {[(r0.1)]} width (bayer_body this gsData (r0.1) width height)).
    intros y x st'. apply bayer_body_only. }
  apply finish_Returns in Hfin as (Hf & Hfo & Hfs).
  rewrite (only_changes_dom _ _ _ Hloop), Hod in Hf.
  split.
  - intros l Hl.
    assert (l ≠ (r0.1)) by (intros ->; done).
    assert (l ≠ (r.1)) by (intros ->; apply Hf; set_solver).
    rewrite Hfo by done. destruct Hloop as [_ Hl2]. rewrite Hl2 by set_solver.
    by apply Hok.
  - intros Hin. apply Hf. set_solver.
Qed.

Lemma threshold_Returns t h gsData width height r :
  ThresholdStrategy_apply t h gsData width height = Returns r ->
  keeps h (r.2) /\ (r.1) ∉ dom h.
Proof.
  unfold ThresholdStrategy_apply.
  destruct (new_one_bit h width height) as [r0| |] eqn:Hnew; [|done..].
  cbn [obind]. intros [= <-]. cbn [fst snd].
  apply new_one_bit_Returns in Hnew as (Ho & Hok & Hod & Hoo).
  set (st := for_x _ _ _ _).
  assert (only_changes {[(r0.1)]} (r0.2) (heap st)) as Hloop.
  { unfold st. apply for_x_only. intros x st'. apply threshold_body_only. }
  split; [|done].
  assert (only_changes {[(r0.1)]} (r0.2)
            (if 0 <? bitPosition st
             then write_int (heap st) (r0.1)
                    ((from_option array_length 0 (h !! gsData) - 1) / 8) (currentByte st)
             else heap st)) as [_ Hall].
  { destruct (0 <? bitPosition st); [|done].
    eapply only_changes_trans; [exact Hloop|apply write_int_only]. }
  intros l Hl. rewrite Hall; [by apply Hok|].
  intros Hin. apply Ho. set_solver.
Qed.

(** No strategy has a loop that could run forever. *)
Lemma new_one_bit_fuel h width height : new_one_bit h width height <> OutOfFuel.
Proof. unfold new_one_bit. by destruct (_ <? 0). Qed.

Lemma finish_fuel o width height (st : @Loop F) : finish o width height st <> OutOfFuel.
Proof.
  unfold finish.
  match goal with
  | |- context [new_one_bit ?h0 width height] =>
      pose proof (new_one_bit_fuel h0 width height);
      by destruct (new_one_bit h0 width height)
  end.
Qed.

Lemma apply_fuel (s : Strategy) h gsData width height :
  apply s h gsData width height <> OutOfFuel.
Proof.
  destruct s as [t| | |m]; cbn [apply].
  - unfold ThresholdStrategy_apply.
    pose proof (new_one_bit_fuel h width height).
    by destruct (new_one_bit h width height).
  - unfold FloydSteinbergDitheringStrategy_apply, diffuse.
    destruct (alloc h _) as [g h1].
    pose proof (new_one_bit_fuel h1 width height).
    destruct (new_one_bit h1 width height); [|done..].
    cbn [obind]. apply finish_fuel.
  - unfold AtkinsonDitheringStrategy_apply, diffuse.
    destruct (alloc h _) as [g h1].
    pose proof (new_one_bit_fuel h1 width height).
    destruct (new_one_bit h1 width height); [|done..].
    cbn [obind]. apply finish_fuel.
  - unfold BayerDitheringStrategy_apply.
    pose proof (new_one_bit_fuel h width height).
    destruct (new_one_bit h width height); [|done..].
    cbn [obind]. apply finish_fuel.
Qed.

(** C9: whichever of the four strategies is applied, to whatever heap,
    input location and dimensions: if the call returns, every array that
    existed before the call, the caller's grayscale input among them, is
    unchanged, and the result is a new array. The two error-diffusion
    strategies have cloned the input: a [Float32Array] of the same length
    as the input, at a location that was not in use. *)
Theorem dithering_leaves_input_untouched (s : Strategy) h (gsData : nat) (width height : Z) :
  apply s h gsData width height <> OutOfFuel
  /\ forall r, apply s h gsData width height = Returns r ->
       (forall data, h !! gsData = Some data -> (r.2) !! gsData = Some data)
       /\ keeps h (r.2)
       /\ (r.1) ∉ dom h
       /\ (s = FloydSteinberg \/ s = Atkinson ->
           exists g, g ∉ dom h
             /\ shape ((r.2) !! g) = Some (true, length (as_float32
                                       (default (Float32Array []) (h !! gsData))))).
Proof.
  split; [apply apply_fuel|]. intros r Hr.
  assert (keeps h (r.2) /\ (r.1) ∉ dom h
          /\ (s = FloydSteinberg \/ s = Atkinson ->
              exists g, g ∉ dom h
                /\ shape ((r.2) !! g) = Some (true, length (as_float32
                                          (default (Float32Array []) (h !! gsData))))))
    as (Hk & Hout & Hclone).
  { destruct s as [t| | |m]; cbn [apply] in Hr.
    - apply threshold_Returns in Hr as [? ?]. split; [done|]. split; [done|].
      intros [?|?]; discriminate.
    - apply diffuse_Returns in Hr as (? & ? & ?);
        [|intros; apply floyd_steinberg_body_only]. done.
    - apply diffuse_Returns in Hr as (? & ? & ?);
        [|intros; apply atkinson_body_only]. done.
    - apply bayer_Returns in Hr as [? ?]. split; [done|]. split; [done|].
      intros [?|?]; discriminate. }
  split; [|done].
  intros data Hdata. rewrite Hk; [done|]. apply elem_of_dom. by exists data.
Qed.

End Frame.
End DitherProofs.

(** The gradient of the examples, dithered by Atkinson's strategy with exact
    arithmetic: the call returns and the input array is as it was. *)
Example atkinson_on_gradient :
  match @Dither.apply Q Dither.exact_numbers Dither.Atkinson Dither.gradient_heap 0%nat 16 1 with
  | Returns r => (r.2) !! 0%nat = Dither.gradient_heap !! 0%nat
  | _ => False
  end.
Proof. vm_compute. reflexivity. Qed.
